(** * still_here: a dead man's switch registry

    Shallow embedding of the in-process core of [backend/still_here]:
    the [Device] aggregate, the time-indexed in-memory repository, the
    unit of work, the command handlers, the message bus with its
    bootstrap wiring, and the expiry poller.

    Python objects of class [Device] are mutable and shared by
    reference: the repository indexes, the unit of work's backup and
    the handlers' local variables all point to the same object.  The
    embedding therefore keeps an explicit heap of [Device] objects
    addressed by location, and the dictionaries hold locations. *)

From stdpp Require Import gmap strings list fin_maps.
From Stdlib Require Import ZArith Lia Sorted.

Local Open Scope string_scope.
Local Open Scope list_scope.
Local Open Scope Z_scope.

(** ** Exceptions (builtins and [foundation/exceptions.py]) *)

Inductive exn : Type :=
  | TypeError
  | KeyError
  | RuntimeError
  | NotFoundError
  | InvalidMessageTypeError
  | AttributeError
  | UserError (what : string).

Inductive Result (A : Type) : Type :=
  | Ok (a : A)
  | Raise (e : exn).
Arguments Ok {A} a.
Arguments Raise {A} e.

(** ** Python values that reach [Device.__init__] as [created_at] *)

(** A [datetime] is given by [wall], the seconds its calendar fields
    (year to second) count from 1970-01-01 00:00:00, and by [tzinfo]:
    [None] for a naive value, [Some off] for an aware one whose zone is
    [off] seconds east of UTC ([Some 0] is [UTC]). *)
Inductive pyobj : Type :=
  | PyInt (z : Z)
  | PyDatetime (wall : Z) (tzinfo : option Z).

(** [created_at + self.ttl] where [ttl] is an [int]: [int + int] is
    integer addition; [datetime + int] is rejected by both
    [datetime.__add__] (which accepts a [timedelta] only) and
    [int.__radd__], so Python raises [TypeError]. *)
Definition py_add_int (a : pyobj) (b : Z) : Result Z :=
  match a with
  | PyInt x => Ok (x + b)
  | PyDatetime _ _ => Raise TypeError
  end.

(** [int(dt.timestamp())]: an aware value lies [wall - off] seconds
    after the epoch; a naive value is read as local time, [local] being
    the offset of the host's zone.  An [int] has no such method. *)
Definition timestamp (local : Z) (dt : pyobj) : Result Z :=
  match dt with
  | PyDatetime wall (Some off) => Ok (wall - off)
  | PyDatetime wall None => Ok (wall - local)
  | PyInt _ => Raise AttributeError
  end.

(** ** Domain messages ([core/domain/events.py], [core/domain/commands.py]) *)

Inductive Event : Type :=
  | RegisterDeviceEvent (uuid name last_will : string) (ttl fire_at : Z)
  | RemoveDeviceEvent (uuid : string)
  | KeepAliveDeviceEvent (uuid : string) (fire_at : Z)
  | OtherEvent (cls : string).

Inductive Command : Type :=
  | RegisterDeviceCommand (uuid name last_will : string) (ttl : Z)
  | RemoveDeviceCommand (uuid : string)
  | KeepAliveDeviceCommand (uuid : string)
  | ConsumerCommand (uuid consumer_id : string).

(** What [type(message)] returns; these are the keys of the handler
    dictionaries. *)
Inductive EventType : Type :=
  | T_RegisterDeviceEvent
  | T_RemoveDeviceEvent
  | T_KeepAliveDeviceEvent
  | T_OtherEvent (cls : string).

Inductive CommandType : Type :=
  | T_RegisterDeviceCommand
  | T_RemoveDeviceCommand
  | T_KeepAliveDeviceCommand
  | T_ConsumerCommand.

#[global] Instance EventType_eq_dec : EqDecision EventType.
Proof. solve_decision. Defined.
#[global] Instance CommandType_eq_dec : EqDecision CommandType.
Proof. solve_decision. Defined.

Definition type_of_event (ev : Event) : EventType :=
  match ev with
  | RegisterDeviceEvent _ _ _ _ _ => T_RegisterDeviceEvent
  | RemoveDeviceEvent _ => T_RemoveDeviceEvent
  | KeepAliveDeviceEvent _ _ => T_KeepAliveDeviceEvent
  | OtherEvent cls => T_OtherEvent cls
  end.

Definition type_of_command (c : Command) : CommandType :=
  match c with
  | RegisterDeviceCommand _ _ _ _ => T_RegisterDeviceCommand
  | RemoveDeviceCommand _ => T_RemoveDeviceCommand
  | KeepAliveDeviceCommand _ => T_KeepAliveDeviceCommand
  | ConsumerCommand _ _ => T_ConsumerCommand
  end.

Definition command_uuid (c : Command) : string :=
  match c with
  | RegisterDeviceCommand u _ _ _ => u
  | RemoveDeviceCommand u => u
  | KeepAliveDeviceCommand u => u
  | ConsumerCommand u _ => u
  end.

(** ** The aggregate ([core/domain/model.py]) *)

Record Device : Type := mkDevice {
  uuid : string;
  name : string;
  last_will : string;
  ttl : Z;
  created_at : pyobj;
  fire_at : Z;
  consumer_id : option string;
  consumed : bool;
  events : list Event;
  version_number : Z;
}.

(** [Device.__init__] with the defaults [consumer_id=None],
    [consumed=False], [version_number=0]. *)
Definition Device__init__ (uuid name last_will : string) (ttl : Z)
    (created_at : pyobj) : Result Device :=
  match py_add_int created_at ttl with
  | Raise e => Raise e
  | Ok fire =>
      Ok {| uuid := uuid; name := name; last_will := last_will; ttl := ttl;
            created_at := created_at; fire_at := fire;
            consumer_id := None; consumed := false;
            events := []; version_number := 0 |}
  end.

Definition set_events (evs : list Event) (d : Device) : Device :=
  {| uuid := uuid d; name := name d; last_will := last_will d; ttl := ttl d;
     created_at := created_at d; fire_at := fire_at d;
     consumer_id := consumer_id d; consumed := consumed d;
     events := evs; version_number := version_number d |}.

(** The three [generate_event_*] methods: build the event from the
    current attribute values and append it to [self.events]. *)
Definition generate_event_register_device (d : Device) : Device :=
  set_events (events d ++
    [RegisterDeviceEvent (uuid d) (name d) (last_will d) (ttl d) (fire_at d)]) d.

Definition generate_event_remove_device (d : Device) : Device :=
  set_events (events d ++ [RemoveDeviceEvent (uuid d)]) d.

Definition generate_event_keep_alive_device (d : Device) : Device :=
  set_events (events d ++ [KeepAliveDeviceEvent (uuid d) (fire_at d)]) d.

(** Keyword arguments of [update(uuid, **fields)].  Each present key is
    assigned with [setattr], the list of pending events included.
    [Device] hashes and compares by [uuid] and [by_uuid] files it under
    that value, so the identifying attribute is not among the keys. *)
Record Fields : Type := mkFields {
  f_name : option string;
  f_last_will : option string;
  f_ttl : option Z;
  f_created_at : option pyobj;
  f_fire_at : option Z;
  f_consumer_id : option (option string);
  f_consumed : option bool;
  f_events : option (list Event);
  f_version_number : option Z;
}.

Definition no_fields : Fields :=
  mkFields None None None None None None None None None.

Definition only_fire_at (t : Z) : Fields :=
  mkFields None None None None (Some t) None None None None.

(** [for key, value in fields.items(): setattr(device, key, value)] *)
Definition setattrs (f : Fields) (d : Device) : Device :=
  {| uuid := uuid d;
     name := default (name d) (f_name f);
     last_will := default (last_will d) (f_last_will f);
     ttl := default (ttl d) (f_ttl f);
     created_at := default (created_at d) (f_created_at f);
     fire_at := default (fire_at d) (f_fire_at f);
     consumer_id := default (consumer_id d) (f_consumer_id f);
     consumed := default (consumed d) (f_consumed f);
     events := default (events d) (f_events f);
     version_number := default (version_number d) (f_version_number f) |}.

(** ** Object heap and repository state ([core/repository.py]) *)

Definition loc : Type := positive.

(** [heap] holds every [Device] object ever constructed;
    [by_uuid], [by_fire_at] and [seen] are the attributes of the shared
    [InMemoryDeviceRepository].  [seen] is a Python [set] of devices,
    hashed and compared by [uuid]: it is keyed here by that [uuid]. *)
Record Store : Type := mkStore {
  heap : gmap loc Device;
  by_uuid : gmap string loc;
  by_fire_at : gmap Z (gset string);
  seen : gmap string loc;
}.

Definition empty_store : Store := mkStore ∅ ∅ ∅ ∅.

Definition set_heap (h : gmap loc Device) (s : Store) : Store :=
  mkStore h (by_uuid s) (by_fire_at s) (seen s).
Definition set_by_uuid (m : gmap string loc) (s : Store) : Store :=
  mkStore (heap s) m (by_fire_at s) (seen s).
Definition set_by_fire_at (m : gmap Z (gset string)) (s : Store) : Store :=
  mkStore (heap s) (by_uuid s) m (seen s).
Definition set_seen (m : gmap string loc) (s : Store) : Store :=
  mkStore (heap s) (by_uuid s) (by_fire_at s) m.

(** Allocation of a freshly constructed object. *)
Definition fresh_loc (s : Store) : loc := fresh (dom (heap s)).

Definition alloc (d : Device) (s : Store) : loc * Store :=
  (fresh_loc s, set_heap (<[fresh_loc s := d]> (heap s)) s).

(** The stored device a key resolves to. *)
Definition device_at (s : Store) (k : string) : option Device :=
  by_uuid s !! k ≫= λ l, heap s !! l.

(** Python's [range(a, b)]. *)
Definition range (a b : Z) : list Z :=
  (λ i : nat, a + Z.of_nat i) <$> seq 0 (Z.to_nat (b - a)).

(** Operations of a [defaultdict(set)]: indexing a missing key yields
    (and stores) the empty set. *)
Definition dd_get (t : Z) (m : gmap Z (gset string)) : gset string :=
  default ∅ (m !! t).
Definition dd_add (t : Z) (u : string) (m : gmap Z (gset string)) :=
  <[t := dd_get t m ∪ {[u]}]> m.
Definition dd_discard (t : Z) (u : string) (m : gmap Z (gset string)) :=
  <[t := dd_get t m ∖ {[u]}]> m.
(** [if not m[t]: del m[t]] *)
Definition dd_prune (t : Z) (m : gmap Z (gset string)) :=
  if decide (dd_get t m = ∅) then delete t m else m.

Module Repository.

(** [self.seen.add(device)]: a set keeps the element it already has
    when an equal one is added. *)
Definition seen_add (l : loc) (s : Store) : Store :=
  match heap s !! l with
  | Some d =>
      match seen s !! uuid d with
      | Some _ => s
      | None => set_seen (<[uuid d := l]> (seen s)) s
      end
  | None => s
  end.

Definition seen_update (ls : list loc) (s : Store) : Store :=
  foldl (λ s l, seen_add l s) s ls.

(** *** [InMemoryDeviceRepository] *)

Definition _add (l : loc) (s : Store) : Store :=
  match heap s !! l with
  | Some d =>
      set_by_fire_at (dd_add (fire_at d) (uuid d) (by_fire_at s))
        (set_by_uuid (<[uuid d := l]> (by_uuid s)) s)
  | None => s
  end.

Definition _get (k : string) (s : Store) : option loc := by_uuid s !! k.

Definition _get_all_by_uuid (s : Store) : gmap string loc := by_uuid s.

(** Inner loop of the range query: the devices of one bucket. *)
Definition bucket_devices (s : Store) (ts : Z) : list loc :=
  omap (λ k, _get k s) (elements (dd_get ts (by_fire_at s))).

Definition _get_fire_at_between (start end_ : Z) (s : Store)
    : list loc * Store :=
  foldl (λ '(devices, s) ts,
           (devices ++ bucket_devices s ts,
            set_by_fire_at (delete ts (by_fire_at s)) s))
        ([], s) (range start (end_ + 1)).

Definition _update (k : string) (f : Fields) (s : Store) : Store :=
  match by_uuid s !! k with
  | None => s
  | Some l =>
      match heap s !! l with
      | None => s
      | Some d =>
          let old_fire_at := fire_at d in
          let s1 := set_heap (<[l := setattrs f d]> (heap s)) s in
          match f_fire_at f with
          | Some new_fire_at =>
              if decide (new_fire_at ≠ old_fire_at) then
                set_by_fire_at
                  (dd_add new_fire_at k
                     (dd_prune old_fire_at
                        (dd_discard old_fire_at k (by_fire_at s1)))) s1
              else s1
          | None => s1
          end
      end
  end.

Definition _remove (k : string) (s : Store) : Store :=
  match by_uuid s !! k with
  | None => s
  | Some l =>
      let s1 := set_by_uuid (delete k (by_uuid s)) s in
      match heap s !! l with
      | None => s1
      | Some d =>
          set_by_fire_at
            (dd_prune (fire_at d) (dd_discard (fire_at d) k (by_fire_at s1)))
            s1
      end
  end.

Definition _remove_all (s : Store) : Store :=
  set_by_fire_at ∅ (set_by_uuid ∅ s).

(** *** [AbstractDeviceRepository]: the public methods, which also
    record every touched device in [seen]. *)

Definition get (k : string) (s : Store) : option loc * Store :=
  match _get k s with
  | Some l => (Some l, seen_add l s)
  | None => (None, s)
  end.

Definition get_all_by_uuid (s : Store) : gmap string loc * Store :=
  let devices_map := _get_all_by_uuid s in
  (devices_map, seen_update (map_to_list devices_map).*2 s).

Definition get_fire_at_between (start end_ : Z) (s : Store)
    : list loc * Store :=
  let '(devices, s1) := _get_fire_at_between start end_ s in
  (devices, seen_update devices s1).

Definition add (l : loc) (s : Store) : Store :=
  seen_add l (_add l s).

Definition update (k : string) (f : Fields) (s : Store) : Store :=
  match get k s with
  | (Some l, s1) => seen_add l (_update k f s1)
  | (None, s1) => s1
  end.

Definition remove (k : string) (s : Store) : Store :=
  match get k s with
  | (Some l, s1) => seen_add l (_remove k s1)
  | (None, s1) => s1
  end.

(** After [_remove_all] the dictionary bound to [devices] is the
    cleared [by_uuid] itself, so the final [seen.update] sees no
    value. *)
Definition remove_all (s : Store) : Store :=
  let '(devices, s1) := get_all_by_uuid s in
  if decide (devices = ∅) then s1
  else seen_update [] (_remove_all s1).

End Repository.

(** ** Unit of work ([foundation/service/unit_of_work.py],
    [core/service/unit_of_work.py]) *)

(** An [InMemoryDeviceUnitOfWork] instance.  There is one repository,
    so [_devices] only records whether the [devices] property has been
    bound; [_backup] is the shallow copy of [by_uuid] taken on entry:
    it holds the same [Device] objects as the repository. *)
Record InMemoryDeviceUnitOfWork : Type := mkUoW {
  _devices : bool;
  _backup : gmap string loc;
}.

Module UnitOfWork.

(** [InMemoryDeviceUnitOfWork(repository)] *)
Definition __init__ : InMemoryDeviceUnitOfWork := mkUoW false ∅.

Definition __enter__ (u : InMemoryDeviceUnitOfWork) (s : Store)
    : InMemoryDeviceUnitOfWork * Store :=
  let '(devices_map, s1) := Repository.get_all_by_uuid s in
  (mkUoW true devices_map, s1).

(** [_commit] has an empty body. *)
Definition _commit (u : InMemoryDeviceUnitOfWork) (s : Store) : Store := s.

Definition commit (u : InMemoryDeviceUnitOfWork) (s : Store) : Store :=
  _commit u s.

(** [_backup] is a dictionary from its construction on, never [None]:
    the guard at the top of [rollback] does not fire. *)
Definition rollback (u : InMemoryDeviceUnitOfWork) (s : Store) : Store :=
  let devices := (map_to_list (_backup u)).*2 in
  foldl (λ s l, Repository.add l s) (Repository.remove_all s) devices.

(** [AbstractUnitOfWork.__exit__]: the same body whatever the exception
    arguments are, that is, whether or not the block raised. *)
Definition __exit__ (u : InMemoryDeviceUnitOfWork) (s : Store) : Store :=
  rollback u s.

(** [while device.events: yield device.events.pop(0)] for one device. *)
Definition drain (acc : list Event * Store) (l : loc) : list Event * Store :=
  match heap acc.2 !! l with
  | Some d =>
      (acc.1 ++ events d, set_heap (<[l := set_events [] d]> (heap acc.2)) acc.2)
  | None => acc
  end.

(** [collect_new_events], consumed to the end by [queue.extend].  The
    [devices] property raises while no repository is bound. *)
Definition collect_new_events (u : InMemoryDeviceUnitOfWork) (s : Store)
    : Result (list Event) * Store :=
  if _devices u then
    let '(evs, s1) := foldl drain ([], s) (map_to_list (seen s)).*2 in
    (Ok evs, s1)
  else (Raise RuntimeError, s).

End UnitOfWork.

(** ** The world handlers run in *)

Inductive LogRecord : Type :=
  | LogHandlingCommand (c : Command)
  | LogCommandException (c : Command) (e : exn)
  | LogHandlingEvent (ev : Event) (handler : string)
  | LogEventException (ev : Event) (e : exn)
  | LogEventHandled (handler : string) (ev : Event)
  | LogPolling (start_time end_time : Z)
  | LogLWTTriggered (uuid : string) (fire_at triggered_at : Z)
      (last_will : string).

(** [store] is the repository singleton of [bootstrap] (with the heap),
    [uow] the unit of work injected into the handlers, [clock] the
    reading of the system clock ([time.time()]) in whole seconds since
    the epoch, [utcoffset] the offset of the host's local time zone, in
    seconds east of UTC. *)
Record World : Type := mkWorld {
  store : Store;
  uow : InMemoryDeviceUnitOfWork;
  log : list LogRecord;
  clock : Z;
  utcoffset : Z;
}.

Definition set_store (s : Store) (w : World) : World :=
  mkWorld s (uow w) (log w) (clock w) (utcoffset w).
Definition set_uow (u : InMemoryDeviceUnitOfWork) (w : World) : World :=
  mkWorld (store w) u (log w) (clock w) (utcoffset w).
Definition add_log (r : LogRecord) (w : World) : World :=
  mkWorld (store w) (uow w) (log w ++ [r]) (clock w) (utcoffset w).

Definition init_world (t off : Z) : World :=
  mkWorld empty_store UnitOfWork.__init__ [] t off.

(** Computations that read and write the world and may raise. *)
Definition M (A : Type) : Type := World → Result A * World.

#[global] Instance M_ret : MRet M := λ A a w, (Ok a, w).
#[global] Instance M_bind : MBind M := λ A B f m w,
  match m w with
  | (Ok a, w1) => f a w1
  | (Raise e, w1) => (Raise e, w1)
  end.

Definition raise {A : Type} (e : exn) : M A := λ w, (Raise e, w).
Definition lift {A : Type} (r : Result A) : M A := λ w, (r, w).
Definition on_store {A : Type} (f : Store → A * Store) : M A :=
  λ w, let '(a, s) := f (store w) in (Ok a, set_store s w).
Definition on_store_ (f : Store → Store) : M unit :=
  λ w, (Ok tt, set_store (f (store w)) w).
Definition logger (r : LogRecord) : M unit := λ w, (Ok tt, add_log r w).

(** Attribute reads go through the object; objects are never freed, so
    the failing branch is not reached from a valid location. *)
Definition deref (l : loc) : M Device :=
  λ w, match heap (store w) !! l with
       | Some d => (Ok d, w)
       | None => (Raise RuntimeError, w)
       end.

(** A method that mutates [self]. *)
Definition call_method (l : loc) (f : Device → Device) : M unit :=
  on_store_ (λ s, set_heap (alter f l (heap s)) s).

(** [datetime.now()]: the naive local wall-clock time, which is the
    system clock shifted by the offset of the host's zone. *)
Definition datetime_now : M pyobj :=
  λ w, (Ok (PyDatetime (clock w + utcoffset w) None), w).

(** [get_utc_tz_aware_datetime] ([foundation/utils.py]): a naive value
    gets [tzinfo=UTC] attached, its calendar fields unchanged; an aware
    value is returned as it is.  It is only applied to a [datetime]. *)
Definition get_utc_tz_aware_datetime (dt : pyobj) : pyobj :=
  match dt with
  | PyDatetime wall None => PyDatetime wall (Some 0)
  | _ => dt
  end.

(** [int(dt.timestamp())] on this host. *)
Definition py_timestamp (dt : pyobj) : M Z :=
  λ w, (timestamp (utcoffset w) dt, w).

(** [with uow: body].  [__exit__] returns [None], so an exception of
    the body propagates after the exit code has run. *)
Definition with_uow {A : Type} (body : M A) : M A := λ w,
  let '(u, s) := UnitOfWork.__enter__ (uow w) (store w) in
  let '(r, w1) := body (set_store s (set_uow u w)) in
  (r, set_store (UnitOfWork.__exit__ (uow w1) (store w1)) w1).

Definition uow_commit : M unit :=
  λ w, (Ok tt, set_store (UnitOfWork.commit (uow w) (store w)) w).

(** ** Command handlers ([core/service/handlers/command_handlers.py]) *)

Module command_handlers.

Definition register_device (cmd : Command) : M unit :=
  with_uow (
    match cmd with
    | RegisterDeviceCommand cuuid cname clast_will cttl =>
        dt ← datetime_now;
        d ← lift (Device__init__ cuuid cname clast_will cttl
                    (get_utc_tz_aware_datetime dt));
        device ← on_store (alloc d);
        on_store_ (Repository.add device);;
        call_method device generate_event_register_device;;
        uow_commit
    | _ => raise AttributeError
    end).

Definition remove_device (cmd : Command) : M unit :=
  with_uow (
    found ← on_store (Repository.get (command_uuid cmd));
    match found with
    | None => raise NotFoundError
    | Some device =>
        d ← deref device;
        on_store_ (Repository.remove (uuid d));;
        call_method device generate_event_remove_device;;
        uow_commit
    end).

Definition keep_alive_device (cmd : Command) : M unit :=
  with_uow (
    found ← on_store (Repository.get (command_uuid cmd));
    match found with
    | None => raise NotFoundError
    | Some device =>
        dt ← datetime_now;
        t ← py_timestamp (get_utc_tz_aware_datetime dt);
        d ← deref device;
        on_store_ (Repository.update (uuid d) (only_fire_at (t + ttl d)));;
        call_method device generate_event_keep_alive_device;;
        uow_commit
    end).

End command_handlers.

(** ** Event handlers ([core/service/handlers/event_handlers.py]) *)

Module event_handlers.

Definition register_device_event (ev : Event) : M unit :=
  logger (LogEventHandled "register_device" ev).
Definition remove_device_event (ev : Event) : M unit :=
  logger (LogEventHandled "remove_device" ev).
Definition keep_alive_device_event (ev : Event) : M unit :=
  logger (LogEventHandled "keep_alive_device" ev).

End event_handlers.

(** ** Message bus ([messagebus.py]) *)

(** A message handed to [handle]: an [Event], a [Command], or any
    other Python object. *)
Inductive Message : Type :=
  | MsgEvent (ev : Event)
  | MsgCommand (c : Command)
  | MsgOther (repr : string).

(** A callable registered for an event type; [handler_name] is what the
    debug record prints for it. *)
Record EventHandler : Type := mkEventHandler {
  handler_name : string;
  handler_call : Event → M unit;
}.

(** A dictionary literal, as the list of its items: the values written
    for the key [k], in source order. *)
Definition items_for {K V : Type} `{EqDecision K} (k : K) (d : list (K * V))
    : list V :=
  (filter (λ kv, kv.1 = k) d).*2.

(** [d[k]] on a plain [dict]: the value written last for the key,
    [KeyError] when the key is missing. *)
Definition dict_getitem {K V : Type} `{EqDecision K} (k : K) (d : list (K * V))
    : Result V :=
  match last (items_for k d) with
  | Some v => Ok v
  | None => Raise KeyError
  end.

(** [for x in xs: acc = body(acc, x)] inside [M]. *)
Fixpoint for_each {A B : Type} (body : B → A → M B) (acc : B) (xs : list A)
    : M B :=
  match xs with
  | [] => mret acc
  | x :: xs' => acc' ← body acc x; for_each body acc' xs'
  end.

Module messagebus.

Section MessageBus.

Variable event_handlers : list (EventType * list EventHandler).
Variable command_handlers : list (CommandType * (Command → M unit)).

(** [self.queue.extend(self.uow.collect_new_events())] *)
Definition extend_with_new_events (queue : list Message) : M (list Message) :=
  λ w, match UnitOfWork.collect_new_events (uow w) (store w) with
       | (Ok evs, s) => (Ok (queue ++ (MsgEvent <$> evs)), set_store s w)
       | (Raise e, s) => (Raise e, set_store s w)
       end.

(** One iteration of the loop in [_handle_event]: the [try] block and
    its [except Exception: ... continue]. *)
Definition try_event_handler (ev : Event) (queue : list Message)
    (handler : EventHandler) : M (list Message) :=
  λ w, match (logger (LogHandlingEvent ev (handler_name handler));;
              handler_call handler ev;;
              extend_with_new_events queue) w with
       | (Ok queue', w1) => (Ok queue', w1)
       | (Raise e, w1) => (Ok queue, add_log (LogEventException ev e) w1)
       end.

(** The dictionary is indexed in the header of the [for] statement,
    outside the [try]. *)
Definition _handle_event (ev : Event) (queue : list Message)
    : M (list Message) :=
  handlers ← lift (dict_getitem (type_of_event ev) event_handlers);
  for_each (try_event_handler ev) queue handlers.

Definition _handle_command (c : Command) (queue : list Message)
    : M (list Message) :=
  λ w, match (handler ← lift (dict_getitem (type_of_command c) command_handlers);
              handler c;;
              extend_with_new_events queue) (add_log (LogHandlingCommand c) w) with
       | (Ok queue', w1) => (Ok queue', w1)
       | (Raise e, w1) => (Raise e, add_log (LogCommandException c e) w1)
       end.

(** The body of [while self.queue:] for the popped [message]. *)
Definition process (message : Message) (queue : list Message)
    : M (list Message) :=
  match message with
  | MsgEvent ev => _handle_event ev queue
  | MsgCommand c => _handle_command c queue
  | MsgOther _ => raise InvalidMessageTypeError
  end.

(** The loop of [handle]; [None] when [fuel] iterations were not
    enough to empty the queue. *)
Fixpoint drain_queue (fuel : nat) (queue : list Message) (w : World)
    : option (Result unit * World) :=
  match queue with
  | [] => Some (Ok tt, w)
  | message :: rest =>
      match fuel with
      | O => None
      | S fuel' =>
          match process message rest w with
          | (Ok queue', w1) => drain_queue fuel' queue' w1
          | (Raise e, w1) => Some (Raise e, w1)
          end
      end
  end.

Definition handle (fuel : nat) (message : Message) (w : World)
    : option (Result unit * World) :=
  drain_queue fuel [message] w.

End MessageBus.

End messagebus.

(** ** Wiring ([bootstrap.py]) *)

Module bootstrap.

Definition EVENT_HANDLERS : list (EventType * list EventHandler) :=
  [ (T_RegisterDeviceEvent,
      [mkEventHandler "register_device_event"
         event_handlers.register_device_event]);
    (T_RemoveDeviceEvent,
      [mkEventHandler "remove_device_event"
         event_handlers.remove_device_event]);
    (T_KeepAliveDeviceEvent,
      [mkEventHandler "keep_alive_device_event"
         event_handlers.keep_alive_device_event]) ].

Definition COMMAND_HANDLERS : list (CommandType * (Command → M unit)) :=
  [ (T_RegisterDeviceCommand, command_handlers.register_device);
    (T_ConsumerCommand, command_handlers.remove_device);
    (T_KeepAliveDeviceCommand, command_handlers.keep_alive_device) ].

(** The bus [bootstrap()] returns: every handler already receives the
    unit of work through the world. *)
Definition handle : nat → Message → World → option (Result unit * World) :=
  messagebus.handle EVENT_HANDLERS COMMAND_HANDLERS.

End bootstrap.

(** ** Expiry poller ([scheduler/task.py]) *)

Record FirePoller : Type := mkFirePoller {
  _last_poll : Z;
  interval_sec : Z;
}.

Module task.

(** [FirePoller(interval_sec=10)], constructed at clock reading [t]. *)
Definition __init__ (t : Z) : FirePoller := mkFirePoller t 10.

(** The record written for one returned device; both timestamps are
    rendered from [device.fire_at]. *)
Definition lwt_record (d : Device) : LogRecord :=
  LogLWTTriggered (uuid d) (fire_at d) (fire_at d) (last_will d).

Definition fire (s : Store) (devices : list loc) : list LogRecord :=
  omap (λ l, lwt_record <$> heap s !! l) devices.

(** The devices the range query of a tick returns, in the world the
    tick finds. *)
Definition polled (p : FirePoller) (w : World) : list loc :=
  let '(u, s1) := UnitOfWork.__enter__ UnitOfWork.__init__ (store w) in
  (Repository.get_fire_at_between (_last_poll p + 1) (clock w) s1).1.

Definition check_and_fire (p : FirePoller) (w : World) : FirePoller * World :=
  let now := clock w in
  let start_time := _last_poll p + 1 in
  let end_time := now in
  let u0 := UnitOfWork.__init__ in
  let w0 := add_log (LogPolling start_time end_time) w in
  let '(u, s1) := UnitOfWork.__enter__ u0 (store w0) in
  let '(devices, s2) := Repository.get_fire_at_between start_time end_time s1 in
  let records := fire s2 devices in
  let s3 := UnitOfWork.__exit__ u s2 in
  (mkFirePoller now (interval_sec p),
   mkWorld s3 (uow w0) (log w0 ++ records) (clock w0) (utcoffset w0)).

(** Successive ticks; [ws] lists the world each tick finds (other
    activity may change the store and the clock between ticks).  The
    result lists, per tick, the queried window and the devices
    returned. *)
Fixpoint ticks (p : FirePoller) (ws : list World)
    : list (Z * Z * list Device) :=
  match ws with
  | [] => []
  | w :: ws' =>
      (_last_poll p + 1, clock w,
       omap (λ l, heap (store w) !! l) (polled p w))
      :: ticks (check_and_fire p w).1 ws'
  end.

End task.

(** ** Properties of store states *)

(** Every key of [by_uuid] leads to an object carrying that [uuid]. *)
Definition keys_coherent (s : Store) : Prop :=
  ∀ k l, by_uuid s !! k = Some l → ∃ d, heap s !! l = Some d ∧ uuid d = k.

(** Every identity listed in bucket [t] is a key of [by_uuid] whose
    device has [fire_at = t]. *)
Definition index_sound (s : Store) : Prop :=
  ∀ t b k, by_fire_at s !! t = Some b → k ∈ b →
    ∃ d, device_at s k = Some d ∧ fire_at d = t.

Definition no_empty_bucket (s : Store) : Prop :=
  ∀ t b, by_fire_at s !! t = Some b → b ≠ ∅.

(** Every stored device is listed in the bucket of its [fire_at]: no
    bucket holding a stored device has been consumed by a range query. *)
Definition index_complete (s : Store) : Prop :=
  ∀ k d, device_at s k = Some d → k ∈ dd_get (fire_at d) (by_fire_at s).

Definition store_inv (s : Store) : Prop :=
  keys_coherent s ∧ index_sound s ∧ no_empty_bucket s.

(** The device [k] is stored and still listed in the time index. *)
Definition listed (s : Store) (k : string) (d : Device) : Prop :=
  device_at s k = Some d ∧ k ∈ dd_get (fire_at d) (by_fire_at s).

(** States of the heap and repository reached from an empty repository
    by constructing devices and calling the repository's methods; [add]
    is called with a device whose [uuid] is not a key yet. *)
Inductive reachable : Store → Prop :=
  | reach_empty (h : gmap loc Device) :
      reachable (mkStore h ∅ ∅ ∅)
  | reach_construct (s : Store) (d : Device) :
      reachable s → reachable (alloc d s).2
  | reach_add (s : Store) (l : loc) (d : Device) :
      reachable s → heap s !! l = Some d → by_uuid s !! uuid d = None →
      reachable (Repository.add l s)
  | reach_update (s : Store) (k : string) (f : Fields) :
      reachable s → reachable (Repository.update k f s)
  | reach_remove (s : Store) (k : string) :
      reachable s → reachable (Repository.remove k s)
  | reach_remove_all (s : Store) :
      reachable s → reachable (Repository.remove_all s)
  | reach_get_fire_at_between (s : Store) (start end_ : Z) :
      reachable s → reachable (Repository.get_fire_at_between start end_ s).2
  | reach_get (s : Store) (k : string) :
      reachable s → reachable (Repository.get k s).2
  | reach_get_all_by_uuid (s : Store) :
      reachable s → reachable (Repository.get_all_by_uuid s).2.

(** ** Auxiliary notions used in the statements and proofs *)

(** Two states that differ at most in the [seen] bookkeeping. *)
Definition same_indexes (s s' : Store) : Prop :=
  heap s' = heap s ∧ by_uuid s' = by_uuid s ∧ by_fire_at s' = by_fire_at s.

(** The time index after [_update] has moved [k] from [old] to [new]. *)
Definition reindexed (k : string) (old new : Z) (m : gmap Z (gset string))
    : gmap Z (gset string) :=
  if decide (new ≠ old) then dd_add new k (dd_prune old (dd_discard old k m))
  else m.

(** The devices a scan over the timestamps [ts] collects, each bucket
    being dropped once read. *)
Fixpoint scanned (s : Store) (ts : list Z) : list loc :=
  match ts with
  | [] => []
  | t :: ts' =>
      Repository.bucket_devices s t
        ++ scanned (set_by_fire_at (delete t (by_fire_at s)) s) ts'
  end.

Definition drop_buckets (ts : list Z) (m : gmap Z (gset string))
    : gmap Z (gset string) :=
  foldl (λ m t, delete t m) m ts.

(** The objects of a backup still carry the [uuid] they are filed under. *)
Definition backup_coherent (s : Store) (m : gmap string loc) : Prop :=
  ∀ k l, m !! k = Some l → ∃ d, heap s !! l = Some d ∧ uuid d = k.

Definition is_event (m : Message) : Prop :=
  match m with MsgEvent _ => True | _ => False end.

(** What makes one iteration of the loop of [handle] raise [e] on the
    popped message [m]. *)
Definition raising_step (ehs : list (EventType * list EventHandler))
    (chs : list (CommandType * (Command → M unit)))
    (m : Message) (e : exn) : Prop :=
  match m with
  | MsgCommand c =>
      ∃ q w w', messagebus._handle_command chs c q w = (Raise e, w')
  | MsgEvent ev => items_for (type_of_event ev) ehs = [] ∧ e = KeyError
  | MsgOther _ => e = InvalidMessageTypeError
  end.

(** The type of [ev] has an entry in the event-handler dictionary. *)
Definition mapped (ehs : list (EventType * list EventHandler)) (ev : Event)
    : Prop :=
  ∃ hs, dict_getitem (type_of_event ev) ehs = Ok hs.

Definition is_mapped_event (ehs : list (EventType * list EventHandler))
    (m : Message) : Prop :=
  match m with MsgEvent ev => mapped ehs ev | _ => False end.

(** Every event pending on an object of the heap satisfies [P]. *)
Definition pending (P : Event → Prop) (s : Store) : Prop :=
  ∀ l d ev, heap s !! l = Some d → ev ∈ events d → P ev.

(** Every pending event is of a type with an entry. *)
Definition pending_mapped (ehs : list (EventType * list EventHandler))
    (w : World) : Prop :=
  pending (mapped ehs) (store w).

(** No registered handler leaves an event pending whose type has no
    entry. *)
Definition handlers_keep_mapped (ehs : list (EventType * list EventHandler))
    (chs : list (CommandType * (Command → M unit))) : Prop :=
  (∀ ct handler c w,
     (ct, handler) ∈ chs → pending_mapped ehs w →
     pending_mapped ehs (handler c w).2) ∧
  (∀ et hs h ev w,
     (et, hs) ∈ ehs → h ∈ hs → pending_mapped ehs w →
     pending_mapped ehs (handler_call h ev w).2).

(** The computation [m] keeps the property [P] of the store, whether
    it returns or raises. *)
Definition keeps {A : Type} (P : Store → Prop) (m : M A) : Prop :=
  ∀ w, P (store w) → P (store (m w).2).

(** ** A small scenario: one device registered at second 100, ttl 10,
    on a host whose local zone is UTC *)

Definition device_a : Device :=
  mkDevice "a" "sensor" "gone" 10 (PyInt 100) 110 None false [] 0.
Definition device_b : Device :=
  mkDevice "b" "probe" "bye" 5 (PyInt 100) 105 None false [] 0.
Definition store_a : Store :=
  Repository.add (alloc device_a empty_store).1 (alloc device_a empty_store).2.
Definition world_a (t : Z) : World :=
  mkWorld store_a UnitOfWork.__init__ [] t 0.
(** The same store on a host [off] seconds east of UTC. *)
Definition world_in_zone (t off : Z) : World :=
  mkWorld store_a UnitOfWork.__init__ [] t off.
Definition ticks_example : list World :=
  [world_a 103; world_a 110; world_a 120].

(** ** Further parts of the code *)

(** [Device.consume] ([core/domain/model.py]): the warning it may log
    (the module has its own logger) and the mutated device. *)
Definition consume (consumer : string) (d : Device) : list string * Device :=
  (if consumed d then ["consuming already consumed message!"] else [],
   {| uuid := uuid d; name := name d; last_will := last_will d; ttl := ttl d;
      created_at := created_at d; fire_at := fire_at d;
      consumer_id := Some consumer; consumed := true;
      events := events d; version_number := version_number d + 1 |}).

(** Successive calls of [consume] on one object, with the warnings in
    the order they are logged. *)
Definition consume_all (consumers : list string) (d : Device)
    : list string * Device :=
  foldl (λ acc c, (acc.1 ++ (consume c acc.2).1, (consume c acc.2).2))
        ([], d) consumers.

(** States reached from an empty repository without range queries. *)
Inductive reachable_unclaimed : Store → Prop :=
  | unclaimed_empty (h : gmap loc Device) :
      reachable_unclaimed (mkStore h ∅ ∅ ∅)
  | unclaimed_construct (s : Store) (d : Device) :
      reachable_unclaimed s → reachable_unclaimed (alloc d s).2
  | unclaimed_add (s : Store) (l : loc) (d : Device) :
      reachable_unclaimed s → heap s !! l = Some d →
      by_uuid s !! uuid d = None →
      reachable_unclaimed (Repository.add l s)
  | unclaimed_update (s : Store) (k : string) (f : Fields) :
      reachable_unclaimed s → reachable_unclaimed (Repository.update k f s)
  | unclaimed_remove (s : Store) (k : string) :
      reachable_unclaimed s → reachable_unclaimed (Repository.remove k s)
  | unclaimed_remove_all (s : Store) :
      reachable_unclaimed s → reachable_unclaimed (Repository.remove_all s)
  | unclaimed_get (s : Store) (k : string) :
      reachable_unclaimed s → reachable_unclaimed (Repository.get k s).2
  | unclaimed_get_all_by_uuid (s : Store) :
      reachable_unclaimed s →
      reachable_unclaimed (Repository.get_all_by_uuid s).2.

(** Every entry of [seen] is an object carrying the [uuid] it is filed
    under. *)
Definition seen_coherent (s : Store) : Prop :=
  ∀ k l, seen s !! k = Some l → ∃ d, heap s !! l = Some d ∧ uuid d = k.

(** The events pending on the object at [l], oldest first. *)
Definition pending_of (s : Store) (l : loc) : list Event :=
  default [] (events <$> heap s !! l).

(** No object of the heap has a pending event. *)
Definition no_pending (s : Store) : Prop :=
  ∀ l d, heap s !! l = Some d → events d = [].

(** No device marked seen has a pending event. *)
Definition drained (s : Store) : Prop :=
  ∀ k l d, seen s !! k = Some l → heap s !! l = Some d → events d = [].

(** The world at a later clock reading. *)
Definition at_clock (t : Z) (w : World) : World :=
  mkWorld (store w) (uow w) (log w) t (utcoffset w).

(** Ticks at the given clock readings with no other activity in
    between: each tick runs in the world the previous one left.  The
    result lists the objects each tick fired. *)
Fixpoint poll_at (p : FirePoller) (w : World) (clocks : list Z)
    : list (list loc) :=
  match clocks with
  | [] => []
  | t :: clocks' =>
      task.polled p (at_clock t w)
      :: poll_at (task.check_and_fire p (at_clock t w)).1
           (task.check_and_fire p (at_clock t w)).2 clocks'
  end.

(** A second object with the uuid of [device_a], stamped at second 200. *)
Definition device_a' : Device :=
  mkDevice "a" "sensor" "gone" 10 (PyInt 200) 210 None false [] 0.

(** No entry of [seen] under [k] names an object other than [l]. *)
Definition seen_agrees (k : string) (l : loc) (s : Store) : Prop :=
  ∀ l0, seen s !! k = Some l0 → l0 = l.

(** * Proofs *)

(** ** The [seen] bookkeeping, buckets, and the private methods *)

(** * The definitions on small inputs *)

Example range_is_half_open : range 3 (5 + 1) = [3; 4; 5].
Proof. reflexivity. Qed.

Example range_of_empty_window : range 7 (5 + 1) = [].
Proof. reflexivity. Qed.

Example scenario_index :
  by_uuid store_a !! "a" = Some 1%positive ∧
  by_fire_at store_a !! 110 = Some {["a"]} ∧
  (Repository.get_fire_at_between 101 110 store_a).1 = [1%positive] ∧
  (Repository.get_fire_at_between 101 109 store_a).1 = [].
Proof. vm_compute. done. Qed.

(** * The [seen] bookkeeping does not touch the heap or the indexes *)

Lemma same_indexes_refl s : same_indexes s s.
Proof. by repeat split. Qed.

Lemma same_indexes_trans s1 s2 s3 :
  same_indexes s1 s2 → same_indexes s2 s3 → same_indexes s1 s3.
Proof. intros (?&?&?) (?&?&?). repeat split; congruence. Qed.

Lemma seen_add_same l s : same_indexes s (Repository.seen_add l s).
Proof.
  unfold Repository.seen_add.
  destruct (heap s !! l) as [d|]; [|apply same_indexes_refl].
  destruct (seen s !! uuid d); by repeat split.
Qed.

Lemma seen_update_same ls s : same_indexes s (Repository.seen_update ls s).
Proof.
  unfold Repository.seen_update. revert s.
  induction ls as [|l ls IH]; intros s; simpl; [apply same_indexes_refl|].
  eapply same_indexes_trans; [apply seen_add_same|apply IH].
Qed.

Lemma device_at_same s s' k :
  same_indexes s s' → device_at s' k = device_at s k.
Proof. intros (Hh&Hu&_). unfold device_at. by rewrite Hh, Hu. Qed.

Lemma store_inv_same s s' : same_indexes s s' → store_inv s → store_inv s'.
Proof.
  intros Hs (Hk&Hi&He). pose proof Hs as (Hh&Hu&Hf). repeat split.
  - intros k l. rewrite Hu, Hh. apply Hk.
  - intros t b k. rewrite Hf, (device_at_same s s') by done. apply Hi.
  - intros t b. rewrite Hf. apply He.
Qed.

Lemma index_complete_same s s' :
  same_indexes s s' → index_complete s → index_complete s'.
Proof.
  intros Hs Hc k d. pose proof Hs as (Hh&Hu&Hf).
  rewrite (device_at_same s s'), Hf by done. apply Hc.
Qed.

(** * Buckets of the [defaultdict] *)

Lemma dd_get_Some m t b : m !! t = Some b → dd_get t m = b.
Proof. unfold dd_get. by intros ->. Qed.

Lemma dd_get_None m t : m !! t = None → dd_get t m = ∅.
Proof. unfold dd_get. by intros ->. Qed.

Lemma dd_get_delete m t t' :
  dd_get t (delete t' m) = if decide (t' = t) then ∅ else dd_get t m.
Proof.
  unfold dd_get. rewrite lookup_delete. by case_decide.
Qed.

Lemma dd_get_add m t u t' :
  dd_get t' (dd_add t u m) =
  if decide (t = t') then dd_get t m ∪ {[u]} else dd_get t' m.
Proof.
  unfold dd_add, dd_get at 1. rewrite lookup_insert. by case_decide.
Qed.

Lemma dd_get_remove m t u t' :
  dd_get t' (dd_prune t (dd_discard t u m)) =
  if decide (t = t') then dd_get t m ∖ {[u]} else dd_get t' m.
Proof.
  unfold dd_prune.
  assert (Hd : dd_get t (dd_discard t u m) = dd_get t m ∖ {[u]}).
  { unfold dd_discard, dd_get at 1. by rewrite lookup_insert_eq. }
  rewrite Hd. destruct (decide (dd_get t m ∖ {[u]} = ∅)) as [He|Hne].
  - rewrite dd_get_delete. case_decide; [done|].
    unfold dd_discard, dd_get at 1. by rewrite lookup_insert_ne.
  - case_decide as Ht; [by subst|].
    unfold dd_discard, dd_get at 1. by rewrite lookup_insert_ne.
Qed.


Lemma index_sound_alt s :
  index_sound s ↔
  ∀ t k, k ∈ dd_get t (by_fire_at s) → ∃ d, device_at s k = Some d ∧ fire_at d = t.
Proof.
  unfold index_sound, dd_get. split.
  - intros H t k. destruct (by_fire_at s !! t) as [b|] eqn:Hb; simpl.
    + by apply H.
    + set_solver.
  - intros H t b k Hb Hk. apply H. by rewrite Hb.
Qed.

Lemma no_empty_delete t (m : gmap Z (gset string)) :
  (∀ t' b, m !! t' = Some b → b ≠ ∅) →
  ∀ t' b, delete t m !! t' = Some b → b ≠ ∅.
Proof.
  intros H t' b. rewrite lookup_delete. case_decide; [done|apply H].
Qed.

Lemma no_empty_add t u (m : gmap Z (gset string)) :
  (∀ t' b, m !! t' = Some b → b ≠ ∅) →
  ∀ t' b, dd_add t u m !! t' = Some b → b ≠ ∅.
Proof.
  intros H t' b. unfold dd_add. rewrite lookup_insert. case_decide.
  - intros [= <-]. set_solver.
  - apply H.
Qed.

Lemma no_empty_remove t u (m : gmap Z (gset string)) :
  (∀ t' b, m !! t' = Some b → b ≠ ∅) →
  ∀ t' b, dd_prune t (dd_discard t u m) !! t' = Some b → b ≠ ∅.
Proof.
  intros H t' b. unfold dd_prune.
  destruct (decide (dd_get t (dd_discard t u m) = ∅)) as [He|Hne].
  - rewrite lookup_delete. case_decide; [done|].
    unfold dd_discard. rewrite lookup_insert_ne by done. apply H.
  - unfold dd_discard in *. rewrite lookup_insert. case_decide.
    + intros [= <-]. unfold dd_get at 1 in Hne.
      by rewrite lookup_insert_eq in Hne.
    + apply H.
Qed.

(** * The private methods preserve the invariant *)

Lemma device_at_add s l d k :
  heap s !! l = Some d →
  device_at (Repository._add l s) k =
  if decide (k = uuid d) then Some d else device_at s k.
Proof.
  intros Hl. unfold Repository._add, device_at. rewrite Hl. simpl.
  case_decide as Hk.
  - subst. by rewrite lookup_insert_eq.
  - by rewrite lookup_insert_ne.
Qed.

Lemma by_fire_at_add s l d :
  heap s !! l = Some d →
  by_fire_at (Repository._add l s) = dd_add (fire_at d) (uuid d) (by_fire_at s).
Proof. intros Hl. unfold Repository._add. by rewrite Hl. Qed.

Lemma _add_inv s l d :
  heap s !! l = Some d → by_uuid s !! uuid d = None →
  store_inv s → store_inv (Repository._add l s).
Proof.
  intros Hl Hfresh (Hk&Hi&He). split_and!.
  - intros k l'. unfold Repository._add. rewrite Hl. simpl.
    rewrite lookup_insert. case_decide.
    + intros [= <-]. eauto.
    + apply Hk.
  - apply index_sound_alt. intros t k.
    rewrite (by_fire_at_add _ _ _ Hl), dd_get_add, (device_at_add _ _ _ _ Hl).
    pose proof (proj1 (index_sound_alt s) Hi) as Hi'. clear Hi. rename Hi' into Hi.
    assert (Hold : ∀ t, k ∈ dd_get t (by_fire_at s) → k ≠ uuid d).
    { intros t' Hin ->. apply Hi in Hin as (d'&Hd'&_).
      unfold device_at in Hd'. by rewrite Hfresh in Hd'. }
    destruct (decide (fire_at d = t)) as [<-|Ht];
      destruct (decide (k = uuid d)) as [->|Hne]; try eauto.
    + intros [Hin|Heq]%elem_of_union; [by apply Hi|set_solver].
    + intros Hin. by destruct (Hold _ Hin).
  - intros t b. rewrite (by_fire_at_add _ _ _ Hl). by apply no_empty_add.
Qed.

Lemma _add_complete s l d :
  heap s !! l = Some d →
  index_complete s → index_complete (Repository._add l s).
Proof.
  intros Hl Hc k d'.
  rewrite (by_fire_at_add _ _ _ Hl), dd_get_add, (device_at_add _ _ _ _ Hl).
  destruct (decide (k = uuid d)) as [->|Hne].
  - intros [= <-]. rewrite decide_True by done. set_solver.
  - intros Hd'%Hc. case_decide as Ht; [|done]. rewrite Ht. set_solver.
Qed.

Lemma device_at_coherent s k d :
  keys_coherent s → device_at s k = Some d → uuid d = k.
Proof.
  intros Hk. unfold device_at.
  destruct (by_uuid s !! k) as [l|] eqn:Hl; [|done]. simpl.
  destruct (Hk _ _ Hl) as (d'&Hd'&Hu). rewrite Hd'. by intros [= <-].
Qed.

Lemma device_at_Some s k d :
  keys_coherent s →
  device_at s k = Some d ↔ ∃ l, by_uuid s !! k = Some l ∧ heap s !! l = Some d.
Proof.
  intros Hk. unfold device_at. split.
  - destruct (by_uuid s !! k) as [l|]; [|done]. simpl. eauto.
  - intros (l&->&Hd). done.
Qed.

Lemma _remove_spec s k :
  keys_coherent s →
  match device_at s k with
  | None => Repository._remove k s = s
  | Some d =>
      heap (Repository._remove k s) = heap s ∧
      by_uuid (Repository._remove k s) = delete k (by_uuid s) ∧
      by_fire_at (Repository._remove k s) =
        dd_prune (fire_at d) (dd_discard (fire_at d) k (by_fire_at s))
  end.
Proof.
  intros Hk. unfold device_at, Repository._remove.
  destruct (by_uuid s !! k) as [l|] eqn:Hl; [|done]. simpl.
  destruct (Hk _ _ Hl) as (d&Hd&Hu). by rewrite Hd.
Qed.

Lemma device_at_delete s s' k k' :
  heap s' = heap s → by_uuid s' = delete k (by_uuid s) →
  device_at s' k' = if decide (k = k') then None else device_at s k'.
Proof.
  intros Hh Hu. unfold device_at. rewrite Hu, Hh, lookup_delete.
  by case_decide.
Qed.

Lemma _remove_inv s k : store_inv s → store_inv (Repository._remove k s).
Proof.
  intros (Hk&Hi&He). pose proof (_remove_spec s k Hk) as Hs.
  destruct (device_at s k) as [d|] eqn:Hd; [|by rewrite Hs].
  destruct Hs as (Hh&Hu&Hf). split_and!.
  - intros k' l. rewrite Hu, Hh, lookup_delete. case_decide; [done|apply Hk].
  - apply index_sound_alt. intros t k'. pose proof (proj1 (index_sound_alt s) Hi) as Hi'. clear Hi. rename Hi' into Hi.
    rewrite Hf, dd_get_remove, (device_at_delete s _ k k' Hh Hu).
    destruct (decide (fire_at d = t)) as [<-|Ht]; case_decide as Hkk; subst.
    + intros [_ Hn]%elem_of_difference. destruct Hn. by apply elem_of_singleton.
    + intros [Hin _]%elem_of_difference. by apply Hi.
    + intros (d'&Hd'&Ht')%Hi. congruence.
    + apply Hi.
  - intros t b. rewrite Hf. by apply no_empty_remove.
Qed.

Lemma _remove_complete s k :
  keys_coherent s → index_complete s → index_complete (Repository._remove k s).
Proof.
  intros Hk Hc. pose proof (_remove_spec s k Hk) as Hs.
  destruct (device_at s k) as [d|] eqn:Hd; [|by rewrite Hs].
  destruct Hs as (Hh&Hu&Hf). intros k' d'.
  rewrite Hf, dd_get_remove, (device_at_delete s _ k k' Hh Hu).
  case_decide as Hkk; [done|]. intros Hd'. pose proof (Hc _ _ Hd') as Hin.
  case_decide as Ht; [|done]. rewrite Ht. set_solver.
Qed.

Lemma dd_get_reindexed k old new m t :
  dd_get t (reindexed k old new m) =
  if decide (new = old) then dd_get t m
  else if decide (new = t) then dd_get new m ∪ {[k]}
  else if decide (old = t) then dd_get old m ∖ {[k]}
  else dd_get t m.
Proof.
  unfold reindexed. destruct (decide (new = old)) as [->|Hne].
  - by rewrite decide_False by auto.
  - rewrite decide_True by done. rewrite dd_get_add.
    destruct (decide (new = t)) as [->|Hnt].
    + rewrite dd_get_remove. by rewrite decide_False by auto.
    + by rewrite dd_get_remove.
Qed.

Lemma _update_spec s k f :
  keys_coherent s →
  match device_at s k with
  | None => Repository._update k f s = s
  | Some d =>
      ∃ l, by_uuid s !! k = Some l ∧ heap s !! l = Some d ∧
        heap (Repository._update k f s) = <[l := setattrs f d]> (heap s) ∧
        by_uuid (Repository._update k f s) = by_uuid s ∧
        seen (Repository._update k f s) = seen s ∧
        by_fire_at (Repository._update k f s) =
          reindexed k (fire_at d) (fire_at (setattrs f d)) (by_fire_at s)
  end.
Proof.
  intros Hk. unfold device_at, Repository._update.
  destruct (by_uuid s !! k) as [l|] eqn:Hl; [|done]. simpl.
  destruct (Hk _ _ Hl) as (d&Hd&Hu). rewrite Hd.
  exists l. split_and!; try done.
  - by destruct (f_fire_at f) as [new|]; [case_decide|].
  - by destruct (f_fire_at f) as [new|]; [case_decide|].
  - by destruct (f_fire_at f) as [new|]; [case_decide|].
  - unfold reindexed. simpl.
    destruct (f_fire_at f) as [new|]; simpl.
    + by case_decide.
    + by rewrite decide_False by auto.
Qed.

Lemma device_at_update s k f d k' :
  keys_coherent s → device_at s k = Some d →
  device_at (Repository._update k f s) k' =
  if decide (k' = k) then Some (setattrs f d) else device_at s k'.
Proof.
  intros Hk Hd. pose proof (_update_spec s k f Hk) as Hs. rewrite Hd in Hs.
  destruct Hs as (l&Hl&Hhl&Hh&Hu&_&_). unfold device_at.
  rewrite Hu, Hh. case_decide as Hkk.
  - subst. rewrite Hl. simpl. by rewrite lookup_insert_eq.
  - destruct (by_uuid s !! k') as [l'|] eqn:Hl'; [|done]. simpl.
    rewrite lookup_insert_ne; [done|]. intros <-.
    destruct (Hk _ _ Hl') as (d'&Hd'&Hu'). destruct (Hk _ _ Hl) as (d0&Hd0&Hu0).
    congruence.
Qed.

Lemma _update_inv s k f : store_inv s → store_inv (Repository._update k f s).
Proof.
  intros (Hk&Hi&He). pose proof (_update_spec s k f Hk) as Hs.
  destruct (device_at s k) as [d|] eqn:Hd; [|by rewrite Hs].
  destruct Hs as (l&Hl&Hhl&Hh&Hu&_&Hf). split_and!.
  - intros k' l'. rewrite Hu, Hh. intros Hl'.
    destruct (decide (l' = l)) as [->|Hne].
    + rewrite lookup_insert_eq. eexists; split; [done|]. simpl.
      destruct (Hk _ _ Hl') as (d'&Hd'&Hu'). congruence.
    + rewrite lookup_insert_ne by done. by apply Hk.
  - apply index_sound_alt. intros t k'.
    pose proof (proj1 (index_sound_alt s) Hi) as Hi'.
    rewrite Hf, dd_get_reindexed, (device_at_update s k f d k' Hk Hd).
    set (new := fire_at (setattrs f d)).
    destruct (decide (new = fire_at d)) as [Heq|Hne].
    { intros (d'&Hd'&Ht)%Hi'. case_decide; subst; [|eauto].
      eexists; split; [done|]. fold new. congruence. }
    destruct (decide (new = t)) as [<-|Hnt].
    { intros [Hin|Hin]%elem_of_union.
      - apply Hi' in Hin as (d'&Hd'&Ht). case_decide; subst; [|eauto].
        congruence.
      - apply elem_of_singleton in Hin as ->. rewrite decide_True by done.
        eauto. }
    destruct (decide (fire_at d = t)) as [<-|Hot].
    { intros [Hin Hnk]%elem_of_difference.
      rewrite decide_False by set_solver. by apply Hi'. }
    intros (d'&Hd'&Ht)%Hi'. case_decide; subst; [congruence|eauto].
  - intros t b. rewrite Hf. unfold reindexed. case_decide; [|apply He].
    by apply no_empty_add, no_empty_remove.
Qed.

Lemma _update_complete s k f :
  keys_coherent s → index_complete s →
  index_complete (Repository._update k f s).
Proof.
  intros Hk Hc. pose proof (_update_spec s k f Hk) as Hs.
  destruct (device_at s k) as [d|] eqn:Hd; [|by rewrite Hs].
  destruct Hs as (l&Hl&Hhl&Hh&Hu&_&Hf). intros k' d'.
  rewrite Hf, dd_get_reindexed, (device_at_update s k f d k' Hk Hd).
  set (new := fire_at (setattrs f d)).
  destruct (decide (k' = k)) as [->|Hkk].
  - intros [= <-]. fold new. pose proof (Hc _ _ Hd) as Hin.
    destruct (decide (new = fire_at d)) as [->|Hne]; [done|].
    rewrite decide_True by done. set_solver.
  - intros Hd'. pose proof (Hc _ _ Hd') as Hin.
    destruct (decide (new = fire_at d)) as [Heq|Hne]; [done|].
    destruct (decide (new = fire_at d')) as [Heq'|Hne']; [rewrite Heq'; set_solver|].
    destruct (decide (fire_at d = fire_at d')) as [Heq''|Hne'']; [|done].
    rewrite Heq''. set_solver.
Qed.

Lemma _remove_all_inv s : store_inv (Repository._remove_all s).
Proof.
  split_and!.
  - intros k l. simpl. by rewrite lookup_empty.
  - intros t b k. simpl. by rewrite lookup_empty.
  - intros t b. simpl. by rewrite lookup_empty.
Qed.

(** * The range query *)

Lemma elem_of_range a b t : t ∈ range a b ↔ a ≤ t < b.
Proof.
  unfold range. rewrite list_elem_of_fmap. split.
  - intros (i&->&Hi%elem_of_seq). lia.
  - intros Ht. exists (Z.to_nat (t - a)). split; [lia|].
    apply elem_of_seq. lia.
Qed.

Lemma set_by_fire_at_id s : set_by_fire_at (by_fire_at s) s = s.
Proof. by destruct s. Qed.

Lemma fold_range_query ts acc s :
  foldl (λ '(devices, s) ts,
           (devices ++ Repository.bucket_devices s ts,
            set_by_fire_at (delete ts (by_fire_at s)) s)) (acc, s) ts
  = (acc ++ scanned s ts, set_by_fire_at (drop_buckets ts (by_fire_at s)) s).
Proof.
  revert acc s. induction ts as [|t ts IH]; intros acc s; simpl.
  - by rewrite app_nil_r, set_by_fire_at_id.
  - rewrite IH. simpl. by rewrite app_assoc.
Qed.

Lemma _get_fire_at_between_eq start end_ s :
  Repository._get_fire_at_between start end_ s =
  (scanned s (range start (end_ + 1)),
   set_by_fire_at (drop_buckets (range start (end_ + 1)) (by_fire_at s)) s).
Proof. unfold Repository._get_fire_at_between. by rewrite fold_range_query. Qed.

Lemma lookup_drop_buckets ts (m : gmap Z (gset string)) t :
  drop_buckets ts m !! t = if decide (t ∈ ts) then None else m !! t.
Proof.
  unfold drop_buckets. revert m.
  induction ts as [|t' ts IH]; intros m; cbn [foldl].
  - rewrite decide_False; [done|]. apply not_elem_of_nil.
  - rewrite IH. destruct (decide (t ∈ ts)) as [Hin|Hnin].
    + rewrite decide_True; [done|]. apply elem_of_cons. by right.
    + rewrite lookup_delete. destruct (decide (t' = t)) as [->|Hne].
      * rewrite decide_True; [done|]. apply elem_of_cons. by left.
      * rewrite decide_False; [done|]. rewrite elem_of_cons.
        intros [Heq|Hin]; [by subst|done].
Qed.

Lemma elem_of_bucket_devices s t l :
  l ∈ Repository.bucket_devices s t ↔
  ∃ k, k ∈ dd_get t (by_fire_at s) ∧ by_uuid s !! k = Some l.
Proof.
  unfold Repository.bucket_devices, Repository._get.
  rewrite list_elem_of_omap. by setoid_rewrite elem_of_elements.
Qed.

Lemma elem_of_scanned s ts l :
  l ∈ scanned s ts ↔
  ∃ t k, t ∈ ts ∧ k ∈ dd_get t (by_fire_at s) ∧ by_uuid s !! k = Some l.
Proof.
  revert s. induction ts as [|t0 ts IH]; intros s; simpl.
  - split; [by intros ?%elem_of_nil|]. by intros (?&?&?%elem_of_nil&_).
  - rewrite elem_of_app, elem_of_bucket_devices, IH. simpl. split.
    + intros [(k&Hk&Hl)|(t&k&Ht&Hk&Hl)].
      * exists t0, k. split_and!; [apply elem_of_cons; by left|done..].
      * rewrite dd_get_delete in Hk. case_decide; [set_solver|].
        exists t, k. split_and!; [apply elem_of_cons; by right|done..].
    + intros (t&k&Ht&Hk&Hl). destruct (decide (t0 = t)) as [->|Hne].
      * left. eauto.
      * right. exists t, k. rewrite dd_get_delete, decide_False by done.
        apply elem_of_cons in Ht as [->|Ht]; done.
Qed.

Lemma scanned_nil s ts :
  (∀ t, t ∈ ts → by_fire_at s !! t = None) → scanned s ts = [].
Proof.
  intros Hnone. apply elem_of_nil_inv. intros l.
  rewrite elem_of_scanned. intros (t&k&Ht&Hk&_).
  rewrite (dd_get_None _ _ (Hnone _ Ht)) in Hk. set_solver.
Qed.

Lemma _get_fire_at_between_inv start end_ s :
  store_inv s → store_inv (Repository._get_fire_at_between start end_ s).2.
Proof.
  intros (Hk&Hi&He). rewrite _get_fire_at_between_eq. simpl. split_and!.
  - done.
  - intros t b k. simpl. rewrite lookup_drop_buckets.
    case_decide; [done|]. apply Hi.
  - intros t b. simpl. rewrite lookup_drop_buckets.
    case_decide; [done|]. apply He.
Qed.

(** * The public methods *)

Lemma get_spec k s :
  (Repository.get k s).1 = by_uuid s !! k ∧ same_indexes s (Repository.get k s).2.
Proof.
  unfold Repository.get, Repository._get.
  destruct (by_uuid s !! k) as [l|]; simpl.
  - split; [done|apply seen_add_same].
  - split; [done|apply same_indexes_refl].
Qed.

Lemma get_all_by_uuid_spec s :
  (Repository.get_all_by_uuid s).1 = by_uuid s ∧
  same_indexes s (Repository.get_all_by_uuid s).2.
Proof. split; [done|apply seen_update_same]. Qed.

Lemma add_same l s : same_indexes (Repository._add l s) (Repository.add l s).
Proof. apply seen_add_same. Qed.

Lemma add_inv s l d :
  heap s !! l = Some d → by_uuid s !! uuid d = None →
  store_inv s → store_inv (Repository.add l s).
Proof.
  intros Hl Hf Hinv. eapply store_inv_same; [apply add_same|].
  by eapply _add_inv.
Qed.

Lemma update_inv s k f : store_inv s → store_inv (Repository.update k f s).
Proof.
  intros Hinv. unfold Repository.update.
  destruct (get_spec k s) as [Hg Hs].
  destruct (Repository.get k s) as [[l|] s1]; simpl in *.
  - eapply store_inv_same; [apply seen_add_same|].
    apply _update_inv. by eapply store_inv_same.
  - by eapply store_inv_same.
Qed.

Lemma remove_inv s k : store_inv s → store_inv (Repository.remove k s).
Proof.
  intros Hinv. unfold Repository.remove.
  destruct (get_spec k s) as [Hg Hs].
  destruct (Repository.get k s) as [[l|] s1]; simpl in *.
  - eapply store_inv_same; [apply seen_add_same|].
    apply _remove_inv. by eapply store_inv_same.
  - by eapply store_inv_same.
Qed.

Lemma remove_all_inv s : store_inv s → store_inv (Repository.remove_all s).
Proof.
  intros Hinv. unfold Repository.remove_all.
  destruct (get_all_by_uuid_spec s) as [Hg Hs].
  destruct (Repository.get_all_by_uuid s) as [devices s1]; simpl in *.
  case_decide.
  - by eapply store_inv_same.
  - apply _remove_all_inv.
Qed.

Lemma get_fire_at_between_spec start end_ s :
  (Repository.get_fire_at_between start end_ s).1 =
    (Repository._get_fire_at_between start end_ s).1 ∧
  same_indexes (Repository._get_fire_at_between start end_ s).2
    (Repository.get_fire_at_between start end_ s).2.
Proof.
  unfold Repository.get_fire_at_between.
  destruct (Repository._get_fire_at_between start end_ s) as [devices s1].
  split; [done|apply seen_update_same].
Qed.

Lemma get_fire_at_between_inv start end_ s :
  store_inv s → store_inv (Repository.get_fire_at_between start end_ s).2.
Proof.
  intros Hinv. destruct (get_fire_at_between_spec start end_ s) as [_ Hs].
  eapply store_inv_same; [apply Hs|]. by apply _get_fire_at_between_inv.
Qed.

Lemma alloc_fresh d s : heap s !! (alloc d s).1 = None.
Proof.
  simpl. unfold fresh_loc. apply not_elem_of_dom, is_fresh.
Qed.

Lemma device_at_alloc d s k :
  keys_coherent s → device_at (alloc d s).2 k = device_at s k.
Proof.
  intros Hk. unfold device_at. simpl.
  destruct (by_uuid s !! k) as [l|] eqn:Hl; [|done]. simpl.
  destruct (Hk _ _ Hl) as (d'&Hd'&_). rewrite lookup_insert_ne; [done|].
  intros <-. pose proof (alloc_fresh d s) as Hf. simpl in Hf. congruence.
Qed.

Lemma alloc_inv d s : store_inv s → store_inv (alloc d s).2.
Proof.
  intros (Hk&Hi&He). split_and!.
  - intros k l Hl. simpl in Hl. destruct (Hk _ _ Hl) as (d'&Hd'&Hu).
    exists d'. split; [|done]. simpl. rewrite lookup_insert_ne; [done|].
    intros <-. pose proof (alloc_fresh d s) as Hf. simpl in Hf. congruence.
  - intros t b k. rewrite device_at_alloc by done. apply Hi.
  - apply He.
Qed.

Lemma empty_repository_inv h : store_inv (mkStore h ∅ ∅ ∅).
Proof.
  split_and!.
  - intros k l. simpl. by rewrite lookup_empty.
  - intros t b k. simpl. by rewrite lookup_empty.
  - intros t b. simpl. by rewrite lookup_empty.
Qed.

Lemma reachable_store_inv s : reachable s → store_inv s.
Proof.
  induction 1 as [h|s d _ IH|s l d _ IH Hl Hf|s k f _ IH|s k _ IH|s _ IH
                  |s a b _ IH|s k _ IH|s _ IH].
  - apply empty_repository_inv.
  - by apply alloc_inv.
  - by eapply add_inv.
  - by apply update_inv.
  - by apply remove_inv.
  - by apply remove_all_inv.
  - by apply get_fire_at_between_inv.
  - eapply store_inv_same; [apply get_spec|done].
  - eapply store_inv_same; [apply get_all_by_uuid_spec|done].
Qed.

(** C10.  Starting from an empty repository and applying any sequence
    of [add] (of a device whose uuid is not a key yet), [update],
    [remove], [remove_all] and [get_fire_at_between] (reads and object
    construction included), the two indexes stay consistent: every
    uuid listed in a bucket [by_fire_at[t]] is a key of [by_uuid] whose
    device has [fire_at = t], and no bucket is empty. *)
Theorem indexes_stay_consistent (s : Store) :
  reachable s →
  (∀ t b k, by_fire_at s !! t = Some b → k ∈ b →
     ∃ l d, by_uuid s !! k = Some l ∧ heap s !! l = Some d ∧ fire_at d = t) ∧
  (∀ t b, by_fire_at s !! t = Some b → b ≠ ∅).
Proof.
  intros (Hk&Hi&He)%reachable_store_inv. split; [|exact He].
  intros t b k Hb Hin. destruct (Hi _ _ _ Hb Hin) as (d&Hd&Ht).
  apply device_at_Some in Hd as (l&Hl&Hd); [|done]. eauto.
Qed.

Lemma elem_of_get_fire_at_between start end_ s l :
  l ∈ (Repository.get_fire_at_between start end_ s).1 ↔
  ∃ t k, start ≤ t ≤ end_ ∧ k ∈ dd_get t (by_fire_at s) ∧ by_uuid s !! k = Some l.
Proof.
  destruct (get_fire_at_between_spec start end_ s) as [-> _].
  rewrite _get_fire_at_between_eq. simpl. rewrite elem_of_scanned.
  setoid_rewrite elem_of_range.
  split; intros (t&k&?&?&?); exists t, k; split_and!; try done; lia.
Qed.

Lemma get_fire_at_between_again start end_ s :
  (Repository.get_fire_at_between start end_
     (Repository.get_fire_at_between start end_ s).2).1 = [].
Proof.
  destruct (get_fire_at_between_spec start end_ s) as [_ (_&_&Hf)].
  set (s1 := (Repository.get_fire_at_between start end_ s).2) in *.
  destruct (get_fire_at_between_spec start end_ s1) as [-> _].
  rewrite _get_fire_at_between_eq. simpl. apply scanned_nil.
  intros t Ht. rewrite Hf, _get_fire_at_between_eq. simpl.
  rewrite lookup_drop_buckets. by rewrite decide_True.
Qed.

(** C3, as amended.  On every store state that satisfies the
    repository invariant,
    for all integers [start] and [end_] (equal ones included),
    [get_fire_at_between start end_] returns exactly the stored devices
    still listed in the time index whose [fire_at] lies in the inclusive
    interval; when no bucket has been consumed before (the index is
    complete) these are exactly the stored devices with [fire_at] in
    the interval, one with [fire_at = end_] is included and one with
    [fire_at = end_ + 1] is not; and an immediately repeated call with
    the same bounds returns the empty list. *)
Theorem get_fire_at_between_claims_window (s : Store) (start end_ : Z) :
  store_inv s →
  let devices := (Repository.get_fire_at_between start end_ s).1 in
  let s1 := (Repository.get_fire_at_between start end_ s).2 in
  (∀ l, l ∈ devices ↔
     ∃ k d, by_uuid s !! k = Some l ∧ listed s k d ∧
            start ≤ fire_at d ≤ end_) ∧
  (index_complete s →
     (∀ l, l ∈ devices ↔
        ∃ k d, by_uuid s !! k = Some l ∧ heap s !! l = Some d ∧
               start ≤ fire_at d ≤ end_) ∧
     (∀ k l d, by_uuid s !! k = Some l → heap s !! l = Some d →
        start ≤ end_ → fire_at d = end_ → l ∈ devices) ∧
     (∀ k l d, by_uuid s !! k = Some l → heap s !! l = Some d →
        fire_at d = end_ + 1 → l ∉ devices)) ∧
  (Repository.get_fire_at_between start end_ s1).1 = [].
Proof.
  intros (Hk&Hi&He) devices s1.
  pose proof (proj1 (index_sound_alt s) Hi) as Hi'.
  assert (H1 : ∀ l, l ∈ devices ↔
     ∃ k d, by_uuid s !! k = Some l ∧ listed s k d ∧ start ≤ fire_at d ≤ end_).
  { intros l. unfold devices. rewrite elem_of_get_fire_at_between. split.
    - intros (t&k&Ht&Hin&Hl). destruct (Hi' _ _ Hin) as (d&Hd&<-).
      exists k, d. done.
    - intros (k&d&Hl&[Hd Hin]&Ht). exists (fire_at d), k. done. }
  assert (H2 : index_complete s → ∀ l, l ∈ devices ↔
     ∃ k d, by_uuid s !! k = Some l ∧ heap s !! l = Some d ∧
            start ≤ fire_at d ≤ end_).
  { intros Hc l. rewrite H1. split.
    - intros (k&d&Hl&[Hd Hin]&Ht). exists k, d. split; [done|]. split; [|done].
      apply device_at_Some in Hd as (l'&Hl'&Hd); [|done]. congruence.
    - intros (k&d&Hl&Hd&Ht). exists k, d.
      assert (device_at s k = Some d) as Hd' by (apply device_at_Some; eauto).
      split; [done|]. split; [|done]. split; [done|]. by apply Hc. }
  split_and!; [done| |apply get_fire_at_between_again].
  intros Hc. split_and!; [by apply H2|..].
  - intros k l d Hl Hd Hle Hf. apply H2; [done|]. exists k, d.
    split; [done|]. split; [done|]. lia.
  - intros k l d Hl Hd Hf (k'&d'&Hl'&Hd'&Ht)%H2; [|done].
    assert (d' = d) as -> by congruence. lia.
Qed.

(** * Unit of work: what scope exit does to the store *)

Lemma by_fire_at_empty_of_no_keys s :
  store_inv s → by_uuid s = ∅ → by_fire_at s = ∅.
Proof.
  intros (Hk&Hi&He) Hu. apply map_empty. intros t.
  destruct (by_fire_at s !! t) as [b|] eqn:Hb; [|done].
  destruct (set_choose_or_empty b) as [[k Hin]|Hb0].
  - destruct (Hi _ _ _ Hb Hin) as (d&Hd&_). unfold device_at in Hd.
    by rewrite Hu, lookup_empty in Hd.
  - apply leibniz_equiv in Hb0. by destruct (He _ _ Hb).
Qed.

Lemma remove_all_spec s :
  store_inv s →
  heap (Repository.remove_all s) = heap s ∧
  by_uuid (Repository.remove_all s) = ∅ ∧
  by_fire_at (Repository.remove_all s) = ∅.
Proof.
  intros Hinv. unfold Repository.remove_all.
  destruct (get_all_by_uuid_spec s) as [Hg (Hh&Hu&Hf)].
  destruct (Repository.get_all_by_uuid s) as [devices s1]; simpl in *.
  case_decide as He.
  - subst devices. split_and!; [done|congruence|].
    rewrite Hf. by apply by_fire_at_empty_of_no_keys.
  - done.
Qed.

Lemma add_spec s l d :
  heap s !! l = Some d →
  heap (Repository.add l s) = heap s ∧
  by_uuid (Repository.add l s) = <[uuid d := l]> (by_uuid s) ∧
  by_fire_at (Repository.add l s) = dd_add (fire_at d) (uuid d) (by_fire_at s).
Proof.
  intros Hl. destruct (add_same l s) as (->&->&->).
  unfold Repository._add. by rewrite Hl.
Qed.

Lemma add_complete s l d :
  heap s !! l = Some d → index_complete s → index_complete (Repository.add l s).
Proof.
  intros Hl Hc. eapply index_complete_same; [apply add_same|].
  by eapply _add_complete.
Qed.

Lemma fold_add_spec (kls : list (string * loc)) s :
  NoDup kls.*1 →
  (∀ k l, (k, l) ∈ kls → ∃ d, heap s !! l = Some d ∧ uuid d = k) →
  (∀ k, k ∈ kls.*1 → by_uuid s !! k = None) →
  store_inv s → index_complete s →
  let s' := foldl (λ s l, Repository.add l s) s kls.*2 in
  heap s' = heap s ∧ by_uuid s' = list_to_map kls ∪ by_uuid s ∧
  store_inv s' ∧ index_complete s'.
Proof.
  revert s. induction kls as [|[k l] kls IH]; intros s Hnd Hobj Hfresh Hinv Hc.
  - simpl. split_and!; try done. by rewrite (left_id_L ∅ (∪)).
  - rewrite fmap_cons in Hnd. apply NoDup_cons in Hnd as [Hk Hnd].
    rewrite fmap_cons. cbn [foldl snd fst] in *.
    destruct (Hobj k l) as (d&Hd&Hu); [apply elem_of_cons; by left|].
    destruct (add_spec s l d Hd) as (Hh1&Hu1&Hf1).
    assert (Hk0 : by_uuid s !! uuid d = None).
    { rewrite Hu. apply Hfresh. rewrite fmap_cons. apply elem_of_cons. by left. }
    destruct (IH (Repository.add l s)) as (Hh&Hby&Hinv'&Hc'); try done.
    + intros k' l' Hin. rewrite Hh1. apply Hobj, elem_of_cons. by right.
    + intros k' Hin. rewrite Hu1, Hu, lookup_insert_ne by (by intros ->).
      apply Hfresh. rewrite fmap_cons. apply elem_of_cons. by right.
    + by eapply add_inv.
    + by eapply add_complete.
    + split_and!; try done; [congruence|].
      rewrite Hby, Hu1, Hu. cbn [list_to_map foldr fst snd].
      rewrite <- insert_union_l.
      symmetry. apply insert_union_r. by apply not_elem_of_list_to_map_1.
Qed.

Lemma rollback_spec u s :
  store_inv s → backup_coherent s (_backup u) →
  heap (UnitOfWork.rollback u s) = heap s ∧
  by_uuid (UnitOfWork.rollback u s) = _backup u ∧
  store_inv (UnitOfWork.rollback u s) ∧
  index_complete (UnitOfWork.rollback u s).
Proof.
  intros Hinv Hb. unfold UnitOfWork.rollback.
  destruct (remove_all_spec s Hinv) as (Hh&Hu&Hf).
  destruct (fold_add_spec (map_to_list (_backup u)) (Repository.remove_all s))
    as (Hh'&Hu'&Hinv'&Hc').
  - apply NoDup_fst_map_to_list.
  - intros k l Hin%elem_of_map_to_list. rewrite Hh. by apply Hb.
  - intros k _. by rewrite Hu, lookup_empty.
  - by apply remove_all_inv.
  - intros k d. unfold device_at. by rewrite Hu, lookup_empty.
  - split_and!; try done; [congruence|].
    rewrite Hu', Hu, (right_id_L ∅ (∪)). apply list_to_map_to_list.
Qed.

(** ** Handlers inside a unit-of-work scope *)

Lemma bind_unfold {A B} (m : M A) (f : A → M B) w :
  (m ≫= f) w = match m w with
               | (Ok a, w1) => f a w1
               | (Raise e, w1) => (Raise e, w1)
               end.
Proof. reflexivity. Qed.

Lemma on_store_get w k :
  on_store (Repository.get k) w =
  (Ok (by_uuid (store w) !! k), set_store (Repository.get k (store w)).2 w).
Proof.
  unfold on_store. destruct (get_spec k (store w)) as [Hg _].
  destruct (Repository.get k (store w)) as [o s1]. simpl in *. by subst.
Qed.

Lemma deref_Some w l d : heap (store w) !! l = Some d → deref l w = (Ok d, w).
Proof. unfold deref. by intros ->. Qed.


Lemma update_spec s k f l d :
  store_inv s → by_uuid s !! k = Some l → heap s !! l = Some d →
  heap (Repository.update k f s) = <[l := setattrs f d]> (heap s) ∧
  by_uuid (Repository.update k f s) = by_uuid s ∧
  by_fire_at (Repository.update k f s) =
    reindexed k (fire_at d) (fire_at (setattrs f d)) (by_fire_at s).
Proof.
  intros (Hk&_&_) Hl Hd. unfold Repository.update.
  destruct (get_spec k s) as [Hg Hs].
  destruct (Repository.get k s) as [o s1]. simpl in Hg, Hs. subst o.
  rewrite Hl. destruct (seen_add_same l (Repository._update k f s1)) as (->&->&->).
  destruct Hs as (Hh&Hu&Hf).
  assert (Hk1 : keys_coherent s1).
  { intros k' l'. rewrite Hu, Hh. apply Hk. }
  pose proof (_update_spec s1 k f Hk1) as Hsp.
  assert (Hd1 : device_at s1 k = Some d).
  { unfold device_at. rewrite Hu, Hl. simpl. by rewrite Hh. }
  rewrite Hd1 in Hsp. destruct Hsp as (l'&Hl'&_&Hh'&Hu'&_&Hf').
  assert (l' = l) as -> by congruence.
  rewrite Hh', Hu', Hf'. by rewrite Hh, Hu, Hf.
Qed.

Lemma method_inv s l (f : Device → Device) :
  (∀ d, uuid (f d) = uuid d ∧ fire_at (f d) = fire_at d) →
  store_inv s → store_inv (set_heap (alter f l (heap s)) s).
Proof.
  intros Hf (Hk&Hi&He).
  assert (Hdev : ∀ k d, device_at s k = Some d →
            ∃ d', device_at (set_heap (alter f l (heap s)) s) k = Some d' ∧
                  uuid d' = uuid d ∧ fire_at d' = fire_at d).
  { intros k d. unfold device_at. simpl.
    destruct (by_uuid s !! k) as [l'|]; [|done]. simpl. intros Hd.
    rewrite lookup_alter. case_decide; subst; rewrite Hd; simpl; eauto. }
  split_and!.
  - intros k l' Hl'. simpl in Hl'. destruct (Hk _ _ Hl') as (d&Hd&Hu).
    destruct (Hdev k d) as (d'&Hd'&Hu'&_).
    { unfold device_at. rewrite Hl'. done. }
    unfold device_at in Hd'. simpl in Hd'. rewrite Hl' in Hd'.
    exists d'. split; [done|congruence].
  - intros t b k Hb Hin. destruct (Hi _ _ _ Hb Hin) as (d&Hd&Ht).
    destruct (Hdev k d Hd) as (d'&Hd'&_&Hf'). exists d'. split; [done|congruence].
  - apply He.
Qed.

Lemma scope_exit_spec u s :
  store_inv s → by_uuid s = _backup u →
  heap (UnitOfWork.__exit__ u s) = heap s ∧
  by_uuid (UnitOfWork.__exit__ u s) = by_uuid s ∧
  store_inv (UnitOfWork.__exit__ u s) ∧
  index_complete (UnitOfWork.__exit__ u s).
Proof.
  intros Hinv Hb. unfold UnitOfWork.__exit__.
  destruct (rollback_spec u s Hinv) as (?&?&?&?).
  - intros k l. rewrite <- Hb. apply Hinv.
  - split_and!; try done. congruence.
Qed.

Lemma keep_alive_device_spec w k l d :
  store_inv (store w) →
  by_uuid (store w) !! k = Some l → heap (store w) !! l = Some d →
  ∃ w', command_handlers.keep_alive_device (KeepAliveDeviceCommand k) w = (Ok tt, w') ∧
     by_uuid (store w') = by_uuid (store w) ∧
     heap (store w') = <[l := generate_event_keep_alive_device (setattrs (only_fire_at (clock w + utcoffset w + ttl d)) d)]> (heap (store w)) ∧
     store_inv (store w') ∧ index_complete (store w').
Proof.
  intros Hinv Hl Hd.
  unfold command_handlers.keep_alive_device, with_uow, UnitOfWork.__enter__.
  destruct (get_all_by_uuid_spec (store w)) as [Hg Hs].
  destruct (Repository.get_all_by_uuid (store w)) as [backup s1] eqn:Hga.
  simpl in Hg, Hs. subst backup.
  rewrite bind_unfold, on_store_get. cbn [store set_store set_uow command_uuid].
  destruct (get_spec k s1) as [_ Hs2].
  set (s2 := (Repository.get k s1).2) in *.
  pose proof (same_indexes_trans _ _ _ Hs Hs2) as Hs02.
  destruct Hs as (Hh1&Hu1&Hf1). destruct Hs02 as (Hh2&Hu2&Hf2).
  rewrite Hu1, Hl.
  assert (Hinv2 : store_inv s2).
  { eapply store_inv_same; [|exact Hinv]. by repeat split. }
  assert (Hd2 : heap s2 !! l = Some d) by (by rewrite Hh2).
  assert (Hl2 : by_uuid s2 !! k = Some l) by (by rewrite Hu2).
  assert (Hud : uuid d = k).
  { destruct Hinv as (Hk&_&_). destruct (Hk _ _ Hl) as (d'&?&?). congruence. }
  rewrite bind_unfold. cbn [datetime_now].
  rewrite bind_unfold.
  cbn [py_timestamp get_utc_tz_aware_datetime timestamp utcoffset set_store
       set_uow clock].
  rewrite Z.sub_0_r.
  rewrite bind_unfold, (deref_Some _ l d) by done.
  rewrite Hud.
  cbv [mbind M_bind on_store_ call_method uow_commit UnitOfWork.commit
       UnitOfWork._commit].
  cbn [set_store set_uow store uow log clock utcoffset].
  destruct (update_spec s2 k (only_fire_at (clock w + utcoffset w + ttl d)) l d Hinv2 Hl2 Hd2)
    as (Hh3&Hu3&Hf3).
  pose proof (update_inv s2 k (only_fire_at (clock w + utcoffset w + ttl d)) Hinv2) as Hinv3.
  set (s3 := Repository.update k (only_fire_at (clock w + utcoffset w + ttl d)) s2) in *.
  pose proof (method_inv s3 l generate_event_keep_alive_device
                (λ d, conj eq_refl eq_refl) Hinv3) as Hinv4.
  set (s4 := set_heap (alter generate_event_keep_alive_device l (heap s3)) s3) in *.
  destruct (scope_exit_spec (mkUoW true (by_uuid (store w))) s4 Hinv4)
    as (Hh5&Hu5&Hinv5&Hc5).
  { simpl. congruence. }
  eexists. split; [reflexivity|]. cbn [store set_store].
  split_and!; try done.
  - rewrite Hu5. simpl. congruence.
  - rewrite Hh5. simpl. rewrite Hh3, Hh2.
    apply map_eq. intros l'. rewrite lookup_alter, !lookup_insert.
    repeat case_decide; subst; try done.
Qed.

(** ** The poller *)

Lemma check_and_fire_last_poll p w :
  _last_poll (task.check_and_fire p w).1 = clock w.
Proof.
  unfold task.check_and_fire.
  destruct (UnitOfWork.__enter__ UnitOfWork.__init__ (store (add_log _ w)))
    as [u s1].
  by destruct (Repository.get_fire_at_between _ _ s1).
Qed.

Lemma enter_spec u s :
  _backup (UnitOfWork.__enter__ u s).1 = by_uuid s ∧
  same_indexes s (UnitOfWork.__enter__ u s).2.
Proof.
  unfold UnitOfWork.__enter__.
  destruct (get_all_by_uuid_spec s) as [Hg Hs].
  destruct (Repository.get_all_by_uuid s) as [m s1]. simpl in *. by subst.
Qed.

Lemma polled_window p w l :
  store_inv (store w) → l ∈ task.polled p w →
  ∃ k d, by_uuid (store w) !! k = Some l ∧ heap (store w) !! l = Some d ∧
         _last_poll p + 1 ≤ fire_at d ≤ clock w.
Proof.
  intros Hinv. unfold task.polled.
  destruct (enter_spec UnitOfWork.__init__ (store w)) as [_ Hs].
  destruct (UnitOfWork.__enter__ UnitOfWork.__init__ (store w)) as [u s1].
  simpl in Hs. rewrite elem_of_get_fire_at_between.
  intros (t&k&Ht&Hin&Hl). destruct Hs as (Hh&Hu&Hf).
  rewrite Hf in Hin. rewrite Hu in Hl.
  destruct Hinv as (Hk&Hi&_).
  destruct (proj1 (index_sound_alt _) Hi _ _ Hin) as (d&Hd&<-).
  apply device_at_Some in Hd as (l'&Hl'&Hd); [|done].
  assert (l' = l) as -> by congruence. by exists k, d.
Qed.

Lemma check_and_fire_log p w :
  log (task.check_and_fire p w).2 =
  log w ++ LogPolling (_last_poll p + 1) (clock w)
        :: omap (λ l, task.lwt_record <$> heap (store w) !! l) (task.polled p w).
Proof.
  unfold task.check_and_fire, task.polled. cbn [add_log store log clock].
  destruct (enter_spec UnitOfWork.__init__ (store w)) as [_ (Hh&_&_)].
  destruct (UnitOfWork.__enter__ UnitOfWork.__init__ (store w)) as [u s1].
  simpl in Hh.
  destruct (get_fire_at_between_spec (_last_poll p + 1) (clock w) s1)
    as [_ (Hh2&_&_)].
  rewrite _get_fire_at_between_eq in Hh2. simpl in Hh2.
  destruct (Repository.get_fire_at_between (_last_poll p + 1) (clock w) s1)
    as [devices s2].
  simpl in *. unfold task.fire. rewrite Hh2, Hh. by rewrite <- app_assoc.
Qed.

Lemma ticks_window_after ws p j a b devs :
  StronglySorted Z.le (clock <$> ws) →
  Forall (λ w, _last_poll p ≤ clock w) ws →
  task.ticks p ws !! j = Some (a, b, devs) → _last_poll p < a.
Proof.
  revert p j. induction ws as [|w ws IH]; intros p j Hs Hp; [done|].
  rewrite fmap_cons in Hs. apply StronglySorted_inv in Hs as [Hs Hw].
  apply Forall_cons in Hp as [Hpw Hp].
  destruct j as [|j]; simpl.
  - intros [= <- _ _]. lia.
  - intros Hj. apply IH in Hj; [|done|].
    + rewrite check_and_fire_last_poll in Hj. lia.
    + rewrite check_and_fire_last_poll. rewrite Forall_fmap in Hw. exact Hw.
Qed.

Lemma ticks_in_window ws p i a b devs d :
  Forall (λ w, store_inv (store w)) ws →
  task.ticks p ws !! i = Some (a, b, devs) → d ∈ devs → a ≤ fire_at d ≤ b.
Proof.
  revert p i. induction ws as [|w ws IH]; intros p i Hinv; [done|].
  apply Forall_cons in Hinv as [Hw Hinv].
  destruct i as [|i]; simpl.
  - intros [= <- <- <-]. rewrite list_elem_of_omap.
    intros (l&Hl&Hd). destruct (polled_window p w l Hw Hl) as (k&d'&_&Hd'&Ht).
    congruence.
  - by apply IH.
Qed.

Lemma ticks_disjoint ws p i j a b devs a' b' devs' :
  StronglySorted Z.le (clock <$> ws) →
  (i < j)%nat →
  task.ticks p ws !! i = Some (a, b, devs) →
  task.ticks p ws !! j = Some (a', b', devs') →
  b < a'.
Proof.
  revert p i j. induction ws as [|w ws IH]; intros p i j Hs Hij; [done|].
  rewrite fmap_cons in Hs. apply StronglySorted_inv in Hs as [Hs Hw].
  destruct j as [|j]; [lia|]. destruct i as [|i]; simpl.
  - intros [= <- <- <-] Hj.
    apply ticks_window_after in Hj; [|done|].
    + by rewrite check_and_fire_last_poll in Hj.
    + rewrite check_and_fire_last_poll. rewrite Forall_fmap in Hw. exact Hw.
  - apply IH; [done|lia].
Qed.

(** ** Keep-alive *)

Lemma store_a_reachable : reachable store_a.
Proof.
  unfold store_a. eapply (reach_add _ _ device_a).
  - apply reach_construct, (reach_empty ∅).
  - reflexivity.
  - reflexivity.
Qed.

Lemma get_fire_at_between_complete start end_ s l d :
  store_inv s → index_complete s → heap s !! l = Some d →
  (∃ k, by_uuid s !! k = Some l) →
  l ∈ (Repository.get_fire_at_between start end_ s).1 ↔
  start ≤ fire_at d ≤ end_.
Proof.
  intros (Hk&Hi&_) Hc Hd (k&Hl). rewrite elem_of_get_fire_at_between.
  assert (Hdev : device_at s k = Some d) by (apply device_at_Some; eauto).
  split.
  - intros (t&k'&Ht&Hin&Hl').
    destruct (proj1 (index_sound_alt s) Hi _ _ Hin) as (d'&Hd'&<-).
    apply device_at_Some in Hd' as (l'&Hl''&Hd'); [|done].
    assert (l' = l) as -> by congruence. by assert (d' = d) as -> by congruence.
  - intros Ht. exists (fire_at d), k. split_and!; [lia..| |done]. by apply Hc.
Qed.

(** C4, as amended.  On a host whose local zone is UTC, for a device
    present in the store and listed in the time index under its
    [fire_at], the keep-alive handler returns normally and leaves the
    device with [fire_at = now + ttl], computed from the clock reading
    and not from the previous value; the new value exceeds the old one
    exactly when the clock reading is later than the instant the old
    value was computed from; the update the handler makes moves the
    entry of the device in the time index to the bucket of the new
    [fire_at]; after the handler the device is listed in that bucket
    and in no other, so that a later range query returns it exactly
    when its window contains the new [fire_at]. *)
Theorem keep_alive_renews_from_now (w : World) (k : string) (l : loc) (d : Device) :
  utcoffset w = 0 →
  store_inv (store w) →
  by_uuid (store w) !! k = Some l → heap (store w) !! l = Some d →
  k ∈ dd_get (fire_at d) (by_fire_at (store w)) →
  (∀ t, k ∈ dd_get t (by_fire_at
                        (Repository.update k (only_fire_at (clock w + ttl d))
                           (store w))) ↔
        t = clock w + ttl d) ∧
  ∃ w' d',
    command_handlers.keep_alive_device (KeepAliveDeviceCommand k) w = (Ok tt, w') ∧
    by_uuid (store w') !! k = Some l ∧ heap (store w') !! l = Some d' ∧
    fire_at d' = clock w + ttl d ∧
    (fire_at d < fire_at d' ↔ fire_at d - ttl d < clock w) ∧
    (∀ t, k ∈ dd_get t (by_fire_at (store w')) ↔ t = clock w + ttl d) ∧
    (∀ start end_,
       l ∈ (Repository.get_fire_at_between start end_ (store w')).1 ↔
       start ≤ clock w + ttl d ≤ end_).
Proof.
  intros Hutc Hinv Hl Hd Hlisted. split.
  { destruct (update_spec (store w) k (only_fire_at (clock w + ttl d)) l d
                Hinv Hl Hd) as (_&_&Hf).
    pose proof Hinv as (_&Hi&_).
    pose proof (proj1 (index_sound_alt _) Hi) as Hi'.
    assert (Hdev : device_at (store w) k = Some d).
    { unfold device_at. by rewrite Hl. }
    assert (Hold : ∀ t, k ∈ dd_get t (by_fire_at (store w)) → t = fire_at d).
    { intros t (d0&Hd0&<-)%Hi'. congruence. }
    intros t. rewrite Hf, dd_get_reindexed. cbn [fire_at setattrs only_fire_at
      f_fire_at default from_option id].
    destruct (decide (clock w + ttl d = fire_at d)) as [Heq|Hne].
    - split; [intros Hin%Hold; congruence|]. intros ->. by rewrite Heq.
    - destruct (decide (clock w + ttl d = t)) as [<-|Hnt].
      + split; [done|]. intros _. apply elem_of_union. right.
        by apply elem_of_singleton.
      + destruct (decide (fire_at d = t)) as [<-|Hot].
        * split; [|done]. intros [_ Hn]%elem_of_difference.
          destruct Hn. by apply elem_of_singleton.
        * split; [|done]. intros Hin%Hold. congruence. }
  destruct (keep_alive_device_spec w k l d Hinv Hl Hd)
    as (w'&Hrun&Hu&Hh&Hinv'&Hc').
  rewrite Hutc, Z.add_0_r in Hh.
  set (d' := generate_event_keep_alive_device
               (setattrs (only_fire_at (clock w + ttl d)) d)) in *.
  assert (Hd' : heap (store w') !! l = Some d') by (by rewrite Hh, lookup_insert_eq).
  assert (Hl' : by_uuid (store w') !! k = Some l) by (by rewrite Hu).
  assert (Hdev : device_at (store w') k = Some d').
  { unfold device_at. by rewrite Hl'. }
  assert (Hf : fire_at d' = clock w + ttl d) by reflexivity.
  exists w', d'. split; [done|]. split; [done|]. split; [done|].
  split; [done|]. split; [rewrite Hf; lia|]. split.
  - intros t. split.
    + intros Hin. destruct Hinv' as (_&Hi&_).
      destruct (proj1 (index_sound_alt _) Hi _ _ Hin) as (d''&Hd''&<-).
      by assert (d'' = d') as -> by congruence.
    + intros ->. by apply (Hc' k d').
  - intros start end_.
    rewrite (get_fire_at_between_complete start end_ (store w') l d'); eauto.
Qed.

(** C4, counterexample.  A keep-alive in the second the device was
    stamped (clock 100, ttl 10, [fire_at] 110) leaves [fire_at] at 110:
    it does not increase, and a query at the old timestamp still
    returns the device. *)
Lemma keep_alive_same_second :
  let w := world_a 100 in
  let r := command_handlers.keep_alive_device (KeepAliveDeviceCommand "a") w in
  r.1 = Ok tt ∧
  fire_at <$> device_at (store w) "a" = Some 110 ∧
  fire_at <$> device_at (store r.2) "a" = Some 110 ∧
  (Repository.get_fire_at_between 110 110 (store r.2)).1 = [1%positive].
Proof. vm_compute. done. Qed.

(** C4, instance: a keep-alive at second 104 moves the device to 114;
    a query at the old timestamp no longer returns it, one at the new
    timestamp does. *)
Lemma keep_alive_renews_from_now_witness :
  utcoffset (world_a 104) = 0 ∧ store_inv (store (world_a 104)) ∧
  "a" ∈ dd_get 110 (by_fire_at (store (world_a 104))) ∧
  ∃ w' d',
    command_handlers.keep_alive_device (KeepAliveDeviceCommand "a") (world_a 104)
      = (Ok tt, w') ∧
    heap (store w') !! 1%positive = Some d' ∧ fire_at d' = 114 ∧
    (1%positive ∉ (Repository.get_fire_at_between 110 110 (store w')).1) ∧
    1%positive ∈ (Repository.get_fire_at_between 114 114 (store w')).1.
Proof.
  assert (Hinv : store_inv (store (world_a 104))).
  { apply reachable_store_inv, store_a_reachable. }
  assert (Hin : "a" ∈ dd_get 110 (by_fire_at (store (world_a 104)))).
  { vm_compute. reflexivity. }
  split; [reflexivity|]. split; [exact Hinv|]. split; [exact Hin|].
  destruct (keep_alive_renews_from_now (world_a 104) "a" 1%positive device_a
              eq_refl Hinv eq_refl eq_refl Hin)
    as (_&w'&d'&Hrun&_&Hd'&Hf&_&_&Hq).
  exists w', d'. split; [exact Hrun|]. split; [exact Hd'|]. split; [exact Hf|].
  split.
  - intros Hold. apply Hq in Hold. simpl in Hold. lia.
  - apply Hq. simpl. lia.
Defined.

(** ** Commit, registration, rollback, wiring *)

(** C1, evaluated on the code.  The scope exit runs [rollback] also
    after [commit]: in the scenario store the remove handler returns
    normally and the device is still stored afterwards, and a device
    added inside a committed scope is absent once the scope has
    closed. *)
Theorem committed_scope_is_undone :
  let w := world_a 100 in
  let removed := command_handlers.remove_device (RemoveDeviceCommand "a") w in
  let added :=
    with_uow (device ← on_store (alloc device_b);
              on_store_ (Repository.add device);;
              uow_commit) w in
  by_uuid (store w) !! "a" = Some 1%positive ∧
  removed.1 = Ok tt ∧ by_uuid (store removed.2) !! "a" = Some 1%positive ∧
  by_uuid (store w) !! "b" = None ∧
  added.1 = Ok tt ∧ by_uuid (store added.2) !! "b" = None.
Proof. vm_compute. done. Qed.

Lemma add_heap l s : heap (Repository.add l s) = heap s.
Proof.
  destruct (add_same l s) as (->&_&_). unfold Repository._add.
  by destruct (heap s !! l).
Qed.

Lemma remove_all_heap s : heap (Repository.remove_all s) = heap s.
Proof.
  unfold Repository.remove_all.
  destruct (get_all_by_uuid_spec s) as [_ (Hh&_&_)].
  destruct (Repository.get_all_by_uuid s) as [devices s1]. simpl in *.
  by case_decide.
Qed.

Lemma rollback_heap u s : heap (UnitOfWork.rollback u s) = heap s.
Proof.
  unfold UnitOfWork.rollback. rewrite <- (remove_all_heap s).
  generalize (Repository.remove_all s) as s0.
  induction ((map_to_list (_backup u)).*2) as [|l ls IH]; intros s0; [done|].
  cbn [foldl]. by rewrite IH, add_heap.
Qed.

(** C2, evaluated on the code.  For every RegisterDevice command and
    every world, [register_device] passes the aware [datetime] itself as
    [created_at]; [Device.__init__] then adds the integer [ttl] to it
    and raises [TypeError]: no device is constructed and the error
    propagates out of the bus. *)
Theorem register_device_raises_TypeError
    (cuuid cname clast_will : string) (cttl : Z) (w : World) :
  let cmd := RegisterDeviceCommand cuuid cname clast_will cttl in
  (∀ wall tzinfo,
     Device__init__ cuuid cname clast_will cttl (PyDatetime wall tzinfo)
       = Raise TypeError) ∧
  (command_handlers.register_device cmd w).1 = Raise TypeError ∧
  heap (store (command_handlers.register_device cmd w).2) = heap (store w) ∧
  ∀ fuel, ∃ w',
    bootstrap.handle (S fuel) (MsgCommand cmd) w = Some (Raise TypeError, w').
Proof.
  intros cmd. split; [reflexivity|]. split; [reflexivity|]. split.
  - unfold command_handlers.register_device, with_uow.
    cbn -[UnitOfWork.rollback Repository.seen_update].
    cbv [mbind M_bind datetime_now lift get_utc_tz_aware_datetime
         Device__init__ py_add_int].
    cbn [snd store set_store uow set_uow]. unfold UnitOfWork.__exit__.
    rewrite rollback_heap.
    apply seen_update_same.
  - intros fuel. eexists. reflexivity.
Qed.

Example Device__init___from_seconds :
  Device__init__ "a" "sensor" "gone" 10 (PyInt 100) = Ok device_a.
Proof. reflexivity. Qed.

(** C5, evaluated on the code.  The backup shares the [Device] objects
    with the repository, so an [update] made inside a scope survives
    both the implicit rollback after an exception and an explicit
    [rollback()]: the device's [fire_at] is 200 afterwards, not the 110
    it had on entry. *)
Theorem rollback_keeps_updated_fields :
  let w := world_a 100 in
  let failed :=
    with_uow (A := unit)
      (on_store_ (Repository.update "a" (only_fire_at 200));;
       raise (UserError "boom")) w in
  let entered := UnitOfWork.__enter__ (uow w) (store w) in
  let explicit :=
    UnitOfWork.rollback entered.1
      (Repository.update "a" (only_fire_at 200) entered.2) in
  fire_at <$> device_at (store w) "a" = Some 110 ∧
  failed.1 = Raise (UserError "boom") ∧
  fire_at <$> device_at (store failed.2) "a" = Some 200 ∧
  fire_at <$> device_at explicit "a" = Some 200.
Proof. vm_compute. done. Qed.

(** C7, evaluated on the code.  [COMMAND_HANDLERS] files the remove
    handler under [ConsumerCommand]; [RemoveDeviceCommand] has no entry,
    and dispatching one fails the handler lookup with [KeyError] in every
    world. *)
Theorem remove_command_has_no_handler :
  items_for T_RemoveDeviceCommand bootstrap.COMMAND_HANDLERS = [] ∧
  items_for T_ConsumerCommand bootstrap.COMMAND_HANDLERS
    = [command_handlers.remove_device] ∧
  length (items_for T_RegisterDeviceCommand bootstrap.COMMAND_HANDLERS) = 1%nat ∧
  length (items_for T_KeepAliveDeviceCommand bootstrap.COMMAND_HANDLERS) = 1%nat ∧
  ∀ fuel k w,
    bootstrap.handle (S fuel) (MsgCommand (RemoveDeviceCommand k)) w =
    Some (Raise KeyError,
          add_log (LogCommandException (RemoveDeviceCommand k) KeyError)
            (add_log (LogHandlingCommand (RemoveDeviceCommand k)) w)).
Proof. repeat split. Qed.

Lemma remove_heap k s : heap (Repository.remove k s) = heap s.
Proof.
  unfold Repository.remove. destruct (get_spec k s) as [_ (Hh&_&_)].
  destruct (Repository.get k s) as [[l|] s1]; simpl in *; [|done].
  destruct (seen_add_same l (Repository._remove k s1)) as (->&_&_).
  unfold Repository._remove. destruct (by_uuid s1 !! k); [|done].
  by destruct (heap s1 !! _).
Qed.

(** The defect behind C1 on every store: the remove handler, run on a
    stored device, commits and returns normally, and the identity index
    is afterwards what it was before. *)
Lemma remove_device_keeps_device w k l d :
  store_inv (store w) →
  by_uuid (store w) !! k = Some l → heap (store w) !! l = Some d →
  ∃ w', command_handlers.remove_device (RemoveDeviceCommand k) w = (Ok tt, w') ∧
        by_uuid (store w') = by_uuid (store w).
Proof.
  intros Hinv Hl Hd.
  unfold command_handlers.remove_device, with_uow, UnitOfWork.__enter__.
  destruct (get_all_by_uuid_spec (store w)) as [Hg Hs].
  destruct (Repository.get_all_by_uuid (store w)) as [backup s1] eqn:Hga.
  simpl in Hg, Hs. subst backup.
  rewrite bind_unfold, on_store_get. cbn [store set_store set_uow command_uuid].
  destruct (get_spec k s1) as [_ Hs2].
  set (s2 := (Repository.get k s1).2) in *.
  pose proof (same_indexes_trans _ _ _ Hs Hs2) as Hs02.
  destruct Hs as (Hh1&Hu1&Hf1). destruct Hs02 as (Hh2&Hu2&Hf2).
  rewrite Hu1, Hl.
  assert (Hinv2 : store_inv s2).
  { eapply store_inv_same; [|exact Hinv]. by repeat split. }
  rewrite bind_unfold, (deref_Some _ l d) by (by cbn [store set_store]; rewrite Hh2).
  cbv [mbind M_bind on_store_ call_method uow_commit UnitOfWork.commit
       UnitOfWork._commit].
  cbn [set_store set_uow store uow log clock].
  pose proof (remove_inv s2 (uuid d) Hinv2) as Hinv3.
  pose proof (remove_heap (uuid d) s2) as Hh3.
  set (s3 := Repository.remove (uuid d) s2) in *.
  pose proof (method_inv s3 l generate_event_remove_device
                (λ d, conj eq_refl eq_refl) Hinv3) as Hinv4.
  set (s4 := set_heap (alter generate_event_remove_device l (heap s3)) s3) in *.
  destruct (rollback_spec (mkUoW true (by_uuid (store w))) s4 Hinv4)
    as (_&Hu5&_).
  { intros k' l' Hl'. destruct Hinv as (Hk&_&_).
    destruct (Hk _ _ Hl') as (d'&Hd'&Hu').
    subst s4. cbn [heap set_heap]. rewrite Hh3, Hh2, lookup_alter.
    case_decide; subst; rewrite Hd'; simpl; eauto. }
  eexists. split; [reflexivity|]. cbn [store set_store]. exact Hu5.
Qed.

(** ** Scopes of the unit of work, unfolded *)

Lemma with_uow_unfold {A} (body : M A) w :
  with_uow body w =
  (let r := body (set_store (UnitOfWork.__enter__ (uow w) (store w)).2
                    (set_uow (UnitOfWork.__enter__ (uow w) (store w)).1 w)) in
   (r.1, set_store (UnitOfWork.__exit__ (uow r.2) (store r.2)) r.2)).
Proof.
  unfold with_uow. destruct (UnitOfWork.__enter__ (uow w) (store w)) as [u s].
  simpl. by destruct (body _).
Qed.

Lemma enter_backup u s : (UnitOfWork.__enter__ u s).1 = mkUoW true (by_uuid s).
Proof.
  unfold UnitOfWork.__enter__.
  destruct (get_all_by_uuid_spec s) as [Hg _].
  destruct (Repository.get_all_by_uuid s) as [b s1]. simpl in *. by subst.
Qed.

(** ** The message bus *)

Section Bus.

Variable ehs : list (EventType * list EventHandler).
Variable chs : list (CommandType * (Command → M unit)).


Lemma try_event_handler_ok ev q h w :
  ∃ q1 w1, messagebus.try_event_handler ev q h w = (Ok q1, w1).
Proof.
  unfold messagebus.try_event_handler.
  destruct ((logger (LogHandlingEvent ev (handler_name h));;
             handler_call h ev;; messagebus.extend_with_new_events q) w) as [[q1|e] w1];
    eauto.
Qed.

Lemma for_each_try_ok ev hs q w :
  ∃ q1 w1, for_each (messagebus.try_event_handler ev) q hs w = (Ok q1, w1).
Proof.
  revert q w. induction hs as [|h hs IH]; intros q w; simpl.
  - by exists q, w.
  - rewrite bind_unfold.
    destruct (try_event_handler_ok ev q h w) as (q1&w1&->). apply IH.
Qed.

Lemma extend_only_events q w q' w' :
  Forall is_event q → messagebus.extend_with_new_events q w = (Ok q', w') →
  Forall is_event q'.
Proof.
  unfold messagebus.extend_with_new_events. intros Hq.
  destruct (UnitOfWork.collect_new_events (uow w) (store w)) as [[evs|e] s];
    [|done].
  intros [= <- _]. apply Forall_app. split; [done|].
  apply Forall_fmap, Forall_true. done.
Qed.

Lemma try_only_events ev q h w q' w' :
  Forall is_event q → messagebus.try_event_handler ev q h w = (Ok q', w') →
  Forall is_event q'.
Proof.
  unfold messagebus.try_event_handler. intros Hq. rewrite bind_unfold.
  cbn [logger]. rewrite bind_unfold.
  destruct (handler_call h ev (add_log (LogHandlingEvent ev (handler_name h)) w))
    as [[?|e1] w1]; [|by intros [= <- _]].
  destruct (messagebus.extend_with_new_events q w1) as [[q2|e2] w2] eqn:Hx;
    [|by intros [= <- _]].
  intros [= <- _]. by eapply extend_only_events.
Qed.

Lemma for_each_only_events ev hs q w q' w' :
  Forall is_event q → for_each (messagebus.try_event_handler ev) q hs w = (Ok q', w') →
  Forall is_event q'.
Proof.
  revert q w. induction hs as [|h hs IH]; intros q w Hq; simpl.
  - by intros [= <- _].
  - rewrite bind_unfold.
    destruct (messagebus.try_event_handler ev q h w) as [[q1|e] w1] eqn:Ht; [|done].
    apply IH. by eapply try_only_events.
Qed.

Lemma _handle_event_mapped ev q w hs :
  dict_getitem (type_of_event ev) ehs = Ok hs →
  (messagebus._handle_event ehs) ev q w = for_each (messagebus.try_event_handler ev) q hs w.
Proof.
  intros Hg. unfold messagebus._handle_event. rewrite bind_unfold.
  unfold lift. by rewrite Hg.
Qed.

Lemma _handle_event_unmapped ev q w :
  dict_getitem (type_of_event ev) ehs = Raise KeyError →
  (messagebus._handle_event ehs) ev q w = (Raise KeyError, w).
Proof.
  intros Hg. unfold messagebus._handle_event. rewrite bind_unfold.
  unfold lift. by rewrite Hg.
Qed.

Lemma dict_getitem_cases {K V} `{EqDecision K} (k : K) (d : list (K * V)) :
  (∃ v, dict_getitem k d = Ok v) ∨
  (dict_getitem k d = Raise KeyError ∧ items_for k d = []).
Proof.
  unfold dict_getitem. destruct (last (items_for k d)) as [v|] eqn:Hlast.
  - left. eauto.
  - right. split; [done|]. by apply last_None.
Qed.

Lemma process_raise m q w e w' :
  (messagebus.process ehs chs) m q w = (Raise e, w') → raising_step ehs chs m e.
Proof.
  destruct m as [ev|c|r]; simpl.
  - destruct (dict_getitem_cases (type_of_event ev) ehs) as [[hs Hg]|[Hg Hi]].
    + rewrite (_handle_event_mapped _ _ _ _ Hg).
      destruct (for_each_try_ok ev hs q w) as (q1&w1&->). done.
    + rewrite (_handle_event_unmapped _ _ _ Hg). by intros [= <- _].
  - eauto.
  - by intros [= <- _].
Qed.

Lemma drain_queue_raise fuel q w e w' :
  (messagebus.drain_queue ehs chs) fuel q w = Some (Raise e, w') →
  ∃ m q1 w1, (messagebus.process ehs chs) m q1 w1 = (Raise e, w') ∧ raising_step ehs chs m e.
Proof.
  revert q w. induction fuel as [|fuel IH]; intros q w.
  - destruct q; done.
  - destruct q as [|m q]; [done|]. cbn [messagebus.drain_queue].
    destruct ((messagebus.process ehs chs) m q w) as [[q1|e1] w1] eqn:Hp.
    + apply IH.
    + intros [= <- <-]. exists m, q, w. split; [done|].
      by eapply process_raise.
Qed.

Lemma command_failure_propagates fuel c w e w' :
  (messagebus._handle_command chs) c [] w = (Raise e, w') →
  (messagebus.handle ehs chs) (S fuel) (MsgCommand c) w = Some (Raise e, w').
Proof.
  intros Hc. unfold messagebus.handle. cbn [messagebus.drain_queue].
  cbn [messagebus.process]. by rewrite Hc.
Qed.

Lemma dict_getitem_elem {K V} `{EqDecision K} (k : K) (d : list (K * V)) v :
  dict_getitem k d = Ok v → (k, v) ∈ d.
Proof.
  unfold dict_getitem, items_for.
  destruct (last (filter (λ kv, kv.1 = k) d).*2) as [v'|] eqn:Hl; [|done].
  intros [= ->]. apply last_Some_elem_of in Hl.
  apply list_elem_of_fmap in Hl as ([k' v']&->&Hin).
  apply list_elem_of_filter in Hin as [Hk Hin]. simpl in *. by subst.
Qed.

Lemma pending_heap P s s' : heap s' = heap s → pending P s → pending P s'.
Proof. intros Hh Hp l d ev. rewrite Hh. apply Hp. Qed.

Lemma drain_pending P acc s l :
  Forall P acc → pending P s →
  Forall P (UnitOfWork.drain (acc, s) l).1 ∧
  pending P (UnitOfWork.drain (acc, s) l).2.
Proof.
  intros Hacc Hp. unfold UnitOfWork.drain. cbn [fst snd].
  destruct (heap s !! l) as [d|] eqn:Hd; [|done]. cbn [fst snd]. split.
  - apply Forall_app. split; [done|]. apply Forall_forall. intros ev.
    by apply (Hp l d).
  - intros l' d' ev. cbn [heap set_heap]. rewrite lookup_insert.
    case_decide; [|apply Hp]. intros [= <-]. by intros ?%elem_of_nil.
Qed.

Lemma fold_drain_pending P ls acc s :
  Forall P acc → pending P s →
  Forall P (foldl UnitOfWork.drain (acc, s) ls).1 ∧
  pending P (foldl UnitOfWork.drain (acc, s) ls).2.
Proof.
  revert acc s. induction ls as [|l ls IH]; intros acc s Hacc Hp; [done|].
  cbn [foldl]. destruct (drain_pending P acc s l Hacc Hp) as [Hacc1 Hp1].
  destruct (UnitOfWork.drain (acc, s) l) as [acc1 s1]. by apply IH.
Qed.

Lemma collect_pending P u s :
  pending P s →
  pending P (UnitOfWork.collect_new_events u s).2 ∧
  ∀ evs, (UnitOfWork.collect_new_events u s).1 = Ok evs → Forall P evs.
Proof.
  intros Hp. unfold UnitOfWork.collect_new_events.
  destruct (_devices u); [|done].
  destruct (fold_drain_pending P (map_to_list (seen s)).*2 [] s) as [He Hs];
    [constructor|done|].
  destruct (foldl UnitOfWork.drain ([], s) (map_to_list (seen s)).*2)
    as [evs s1].
  split; [done|]. by intros ? [= <-].
Qed.

Lemma extend_mapped q w :
  Forall (is_mapped_event ehs) q → pending_mapped ehs w →
  pending_mapped ehs (messagebus.extend_with_new_events q w).2 ∧
  ∀ q', (messagebus.extend_with_new_events q w).1 = Ok q' →
        Forall (is_mapped_event ehs) q'.
Proof.
  intros Hq Hp. unfold messagebus.extend_with_new_events.
  destruct (collect_pending (mapped ehs) (uow w) (store w) Hp) as [Hs He].
  destruct (UnitOfWork.collect_new_events (uow w) (store w)) as [[evs|e] s];
    cbn [fst snd] in *; (split; [done|]); [|done].
  intros q' [= <-]. apply Forall_app. split; [done|].
  apply Forall_fmap. eapply Forall_impl; [by apply He|]. done.
Qed.

Lemma try_event_handler_mapped et hs ev q h w :
  handlers_keep_mapped ehs chs → (et, hs) ∈ ehs → h ∈ hs →
  Forall (is_mapped_event ehs) q → pending_mapped ehs w →
  pending_mapped ehs (messagebus.try_event_handler ev q h w).2 ∧
  ∀ q', (messagebus.try_event_handler ev q h w).1 = Ok q' →
        Forall (is_mapped_event ehs) q'.
Proof.
  intros [_ Hkeep] Het Hh Hq Hp. unfold messagebus.try_event_handler.
  rewrite bind_unfold. cbn [logger]. rewrite bind_unfold.
  pose proof (Hkeep et hs h ev
                (add_log (LogHandlingEvent ev (handler_name h)) w) Het Hh Hp)
    as Hp1.
  destruct (handler_call h ev
              (add_log (LogHandlingEvent ev (handler_name h)) w))
    as [[[]|e1] w1]; cbn [snd] in Hp1.
  - destruct (extend_mapped q w1 Hq Hp1) as [Hp2 Hq2].
    destruct (messagebus.extend_with_new_events q w1) as [[q2|e2] w2];
      cbn [fst snd] in *.
    + split; [done|]. intros q' [= <-]. by apply Hq2.
    + split; [done|]. by intros q' [= <-].
  - split; [done|]. by intros q' [= <-].
Qed.

Lemma for_each_try_mapped et hs0 hs ev q w :
  handlers_keep_mapped ehs chs → (et, hs0) ∈ ehs → hs ⊆ hs0 →
  Forall (is_mapped_event ehs) q → pending_mapped ehs w →
  pending_mapped ehs (for_each (messagebus.try_event_handler ev) q hs w).2 ∧
  ∀ q', (for_each (messagebus.try_event_handler ev) q hs w).1 = Ok q' →
        Forall (is_mapped_event ehs) q'.
Proof.
  intros Hkeep Het. revert q w.
  induction hs as [|h hs IH]; intros q w Hsub Hq Hp; cbn [for_each].
  - split; [done|]. by intros q' [= <-].
  - rewrite bind_unfold.
    destruct (try_event_handler_mapped et hs0 ev q h w Hkeep Het) as [Hp1 Hq1];
      [apply Hsub; by left|done|done|].
    destruct (try_event_handler_ok ev q h w) as (q1&w1&Ht).
    rewrite Ht in *. cbn [fst snd] in *.
    apply IH; [|by apply Hq1|done].
    intros x Hx. apply Hsub. by right.
Qed.

Lemma drain_mapped_never_raises fuel q w e w' :
  handlers_keep_mapped ehs chs →
  Forall (is_mapped_event ehs) q → pending_mapped ehs w →
  (messagebus.drain_queue ehs chs) fuel q w ≠ Some (Raise e, w').
Proof.
  intros Hkeep. revert q w. induction fuel as [|fuel IH]; intros q w Hq Hp.
  - destruct q; done.
  - destruct q as [|m q]; [done|]. cbn [messagebus.drain_queue].
    apply Forall_cons in Hq as [Hm Hq].
    destruct m as [ev| |]; try done. cbn [messagebus.process].
    destruct Hm as [hs Hg]. rewrite (_handle_event_mapped _ _ _ _ Hg).
    destruct (for_each_try_mapped (type_of_event ev) hs hs ev q w Hkeep)
      as [Hp1 Hq1]; [by apply dict_getitem_elem|done|done|done|].
    destruct (for_each_try_ok ev hs q w) as (q1&w1&Hf).
    rewrite Hf in *. cbn [fst snd] in *. apply IH; [by apply Hq1|done].
Qed.

Lemma _handle_command_mapped c w q' w' :
  handlers_keep_mapped ehs chs → pending_mapped ehs w →
  (messagebus._handle_command chs) c [] w = (Ok q', w') →
  Forall (is_mapped_event ehs) q' ∧ pending_mapped ehs w'.
Proof.
  intros [Hkeep _] Hp. unfold messagebus._handle_command.
  rewrite bind_unfold. unfold lift.
  destruct (dict_getitem (type_of_command c) chs) as [h|e0] eqn:Hg; [|done].
  rewrite bind_unfold.
  pose proof (Hkeep _ h c (add_log (LogHandlingCommand c) w)
                (dict_getitem_elem _ _ _ Hg) Hp) as Hp1.
  destruct (h c (add_log (LogHandlingCommand c) w)) as [[[]|e1] w1]; [|done].
  cbn [snd] in Hp1.
  destruct (extend_mapped [] w1) as [Hp2 Hq2]; [constructor|done|].
  destruct (messagebus.extend_with_new_events [] w1) as [[q2|e2] w2]; [|done].
  cbn [fst snd] in *. intros [= <- <-]. split; [by apply Hq2|done].
Qed.

Lemma command_dispatch_raises_iff fuel c w e w' :
  handlers_keep_mapped ehs chs → pending_mapped ehs w →
  (messagebus.handle ehs chs) (S fuel) (MsgCommand c) w = Some (Raise e, w') ↔
  (messagebus._handle_command chs) c [] w = (Raise e, w').
Proof.
  intros Hkeep Hp. split; [|apply command_failure_propagates].
  unfold messagebus.handle. cbn [messagebus.drain_queue messagebus.process].
  destruct ((messagebus._handle_command chs) c [] w) as [[q1|e1] w1] eqn:Hc.
  - intros Hd. exfalso.
    destruct (_handle_command_mapped c w q1 w1 Hkeep Hp Hc) as [Hq1 Hp1].
    by eapply drain_mapped_never_raises.
  - by intros [= <- <-].
Qed.

Lemma try_event_handler_raise ev q h w e w1 :
  handler_call h ev (add_log (LogHandlingEvent ev (handler_name h)) w)
    = (Raise e, w1) →
  messagebus.try_event_handler ev q h w
    = (Ok q, add_log (LogEventException ev e) w1).
Proof.
  intros Hh. unfold messagebus.try_event_handler. rewrite bind_unfold.
  cbn [logger]. rewrite bind_unfold. by rewrite Hh.
Qed.

Lemma siblings_run ev q h hs w :
  ∃ q1 w1,
    messagebus.try_event_handler ev q h w = (Ok q1, w1) ∧
    for_each (messagebus.try_event_handler ev) q (h :: hs) w
      = for_each (messagebus.try_event_handler ev) q1 hs w1.
Proof.
  destruct (try_event_handler_ok ev q h w) as (q1&w1&Ht).
  exists q1, w1. split; [done|]. cbn [for_each]. rewrite bind_unfold.
  by rewrite Ht.
Qed.

Lemma _handle_command_raise c q w e w' :
  messagebus._handle_command chs c q w = (Raise e, w') →
  (items_for (type_of_command c) chs = [] ∧ e = KeyError) ∨
  ∃ handler, dict_getitem (type_of_command c) chs = Ok handler ∧
    ((handler c (add_log (LogHandlingCommand c) w)).1 = Raise e ∨
     ∃ w1, handler c (add_log (LogHandlingCommand c) w) = (Ok tt, w1) ∧
           (messagebus.extend_with_new_events q w1).1 = Raise e).
Proof.
  unfold messagebus._handle_command. rewrite bind_unfold. unfold lift.
  destruct (dict_getitem_cases (type_of_command c) chs) as [[h Hg]|[Hg Hi]];
    rewrite Hg.
  - rewrite bind_unfold.
    destruct (h c (add_log (LogHandlingCommand c) w)) as [[[]|e1] w1] eqn:Hh.
    + destruct (messagebus.extend_with_new_events q w1) as [[q2|e2] w2] eqn:Hx;
        [done|].
      intros [= <- _]. right. exists h. split; [done|]. right.
      exists w1. split; [done|]. by rewrite Hx.
    + intros [= <- _]. right. exists h. split; [done|]. left. by rewrite Hh.
  - intros [= <- _]. by left.
Qed.

(** C8, as amended.  On any bus: a failure of a command's handling
    propagates out of [handle]; an exception of an event handler is
    logged and turned into a normal completion of that handler's turn,
    after which the remaining sibling handlers run; handling an event
    whose type is in the mapping never raises; whenever [handle] raises,
    the iteration that raised was processing a command whose handling
    failed, a message that is neither command nor event, or an event
    whose type has no entry; and when every event that is pending, or
    that a registered handler leaves pending, is of a type with an
    entry, dispatching a command raises exactly when handling it
    fails. *)
Theorem dispatch_raise_causes :
  (∀ fuel c w e w',
     messagebus._handle_command chs c [] w = (Raise e, w') →
     messagebus.handle ehs chs (S fuel) (MsgCommand c) w = Some (Raise e, w')) ∧
  (∀ ev q h w e w1,
     handler_call h ev (add_log (LogHandlingEvent ev (handler_name h)) w)
       = (Raise e, w1) →
     messagebus.try_event_handler ev q h w
       = (Ok q, add_log (LogEventException ev e) w1)) ∧
  (∀ ev q h hs w, ∃ q1 w1,
     messagebus.try_event_handler ev q h w = (Ok q1, w1) ∧
     for_each (messagebus.try_event_handler ev) q (h :: hs) w
       = for_each (messagebus.try_event_handler ev) q1 hs w1) ∧
  (∀ ev q w hs,
     dict_getitem (type_of_event ev) ehs = Ok hs →
     ∃ q' w', messagebus._handle_event ehs ev q w = (Ok q', w')) ∧
  (∀ fuel m w e w',
     messagebus.handle ehs chs fuel m w = Some (Raise e, w') →
     ∃ m1 q1 w1, messagebus.process ehs chs m1 q1 w1 = (Raise e, w') ∧
                 raising_step ehs chs m1 e) ∧
  (handlers_keep_mapped ehs chs →
   ∀ fuel c w e w',
     pending_mapped ehs w →
     (messagebus.handle ehs chs (S fuel) (MsgCommand c) w
        = Some (Raise e, w') ↔
      messagebus._handle_command chs c [] w = (Raise e, w'))).
Proof.
  split_and!.
  - apply command_failure_propagates.
  - apply try_event_handler_raise.
  - apply siblings_run.
  - intros ev q w hs Hg. rewrite (_handle_event_mapped _ _ _ _ Hg).
    apply for_each_try_ok.
  - intros fuel m w e w'. apply drain_queue_raise.
  - intros Hkeep fuel c w e w' Hp. by apply command_dispatch_raises_iff.
Qed.

(** C9, as amended.  An event whose type has no entry in the
    event-handler mapping makes the lookup raise [KeyError]: no handler
    runs, the world is unchanged, the rest of the queue is abandoned and
    the error leaves [handle].  The no-op is what happens for a type
    mapped to the empty handler list: the event is skipped and the loop
    goes on with the rest of the queue. *)
Theorem unmapped_event_aborts_dispatch
    (ev : Event) (queue : list Message) (w : World) (fuel : nat) :
  (items_for (type_of_event ev) ehs = [] →
     messagebus._handle_event ehs ev queue w = (Raise KeyError, w) ∧
     messagebus.drain_queue ehs chs (S fuel) (MsgEvent ev :: queue) w
       = Some (Raise KeyError, w) ∧
     messagebus.handle ehs chs (S fuel) (MsgEvent ev) w
       = Some (Raise KeyError, w)) ∧
  (dict_getitem (type_of_event ev) ehs = Ok [] →
     messagebus._handle_event ehs ev queue w = (Ok queue, w) ∧
     messagebus.drain_queue ehs chs (S fuel) (MsgEvent ev :: queue) w
       = messagebus.drain_queue ehs chs fuel queue w).
Proof.
  split.
  - intros Hi.
    assert (Hg : dict_getitem (type_of_event ev) ehs = Raise KeyError).
    { unfold dict_getitem. by rewrite Hi. }
    unfold messagebus.handle. cbn [messagebus.drain_queue messagebus.process].
    rewrite !(_handle_event_unmapped _ _ _ Hg). done.
  - intros Hg. cbn [messagebus.drain_queue messagebus.process].
    rewrite (_handle_event_mapped _ _ _ _ Hg). done.
Qed.

End Bus.

(** C8, counterexample.  The wired bus raises without any command
    having been handled: for a message that is no command and no event,
    and for an event whose type has no entry (the log stays empty). *)
Lemma dispatch_raises_without_failed_command :
  bootstrap.handle 5 (MsgOther "42") (world_a 100)
    = Some (Raise InvalidMessageTypeError, world_a 100) ∧
  bootstrap.handle 5 (MsgEvent (OtherEvent "Ping")) (world_a 100)
    = Some (Raise KeyError, world_a 100).
Proof. split; reflexivity. Qed.

(** C9, counterexample.  On the wired bus an event of a type without
    entry raises [KeyError] out of [handle]; queued before a handled
    event it stops the loop, although that event alone is processed
    normally. *)
Lemma unmapped_event_raises_KeyError :
  items_for (T_OtherEvent "DeviceExpired") bootstrap.EVENT_HANDLERS = [] ∧
  bootstrap.handle 5 (MsgEvent (OtherEvent "DeviceExpired")) (world_a 100)
    = Some (Raise KeyError, world_a 100) ∧
  messagebus.drain_queue bootstrap.EVENT_HANDLERS bootstrap.COMMAND_HANDLERS 5
    [MsgEvent (OtherEvent "DeviceExpired"); MsgEvent (RemoveDeviceEvent "a")]
    (world_a 100)
    = Some (Raise KeyError, world_a 100) ∧
  fst <$> messagebus.drain_queue bootstrap.EVENT_HANDLERS
            bootstrap.COMMAND_HANDLERS 5
            [MsgEvent (RemoveDeviceEvent "a")] (world_a 100) = Some (Ok tt).
Proof. vm_compute. done. Qed.

(** ** What the wired handlers leave pending *)

Lemma keeps_bind {A B} P (m : M A) (f : A → M B) :
  keeps P m → (∀ a, keeps P (f a)) → keeps P (m ≫= f).
Proof.
  intros Hm Hf w Hp. rewrite bind_unfold. specialize (Hm w Hp).
  destruct (m w) as [[a|e] w1]; [by apply Hf|done].
Qed.

Lemma keeps_lift_bind {A B} P (r : Result A) (f : A → M B) :
  (∀ a, r = Ok a → keeps P (f a)) → keeps P (lift r ≫= f).
Proof.
  intros Hf w Hp. rewrite bind_unfold. unfold lift.
  destruct r as [a|e]; [by apply Hf|done].
Qed.

Lemma keeps_same {A} P (m : M A) :
  (∀ w, store (m w).2 = store w) → keeps P m.
Proof. intros Hm w Hp. by rewrite Hm. Qed.

Lemma keeps_on_store {A} P (f : Store → A * Store) :
  (∀ s, P s → P (f s).2) → keeps P (on_store f).
Proof.
  intros Hf w Hp. unfold on_store. specialize (Hf _ Hp).
  by destruct (f (store w)).
Qed.

Lemma keeps_on_store_ P (f : Store → Store) :
  (∀ s, P s → P (f s)) → keeps P (on_store_ f).
Proof. intros Hf w Hp. by apply Hf. Qed.

Lemma keeps_call_method Q l (f : Device → Device) :
  (∀ d ev, ev ∈ events (f d) → ev ∈ events d ∨ Q ev) →
  keeps (pending Q) (call_method l f).
Proof.
  intros Hf. apply keeps_on_store_. intros s Hp l' d' ev.
  cbn [heap set_heap]. rewrite lookup_alter.
  case_decide; [|apply Hp]. subst l'.
  destruct (heap s !! l) as [d|] eqn:Hd; [|done].
  intros [= <-] [Hev|Hev]%Hf; [by apply (Hp l d)|done].
Qed.

Lemma keeps_with_uow {A} Q (body : M A) :
  keeps (pending Q) body → keeps (pending Q) (with_uow body).
Proof.
  intros Hbody w Hp. rewrite with_uow_unfold. cbn [fst snd store set_store].
  unfold UnitOfWork.__exit__.
  eapply pending_heap; [apply rollback_heap|]. apply Hbody.
  cbn [store set_store].
  destruct (enter_spec (uow w) (store w)) as [_ (Hh&_&_)].
  by eapply pending_heap.
Qed.

Lemma _update_pending Q k f s :
  f_events f = None → pending Q s → pending Q (Repository._update k f s).
Proof.
  intros Hf Hp. unfold Repository._update.
  destruct (by_uuid s !! k) as [l0|]; [|done].
  destruct (heap s !! l0) as [d0|] eqn:Hd0; [|done].
  assert (Hp1 : pending Q (set_heap (<[l0:=setattrs f d0]> (heap s)) s)).
  { intros l d ev. cbn [heap set_heap]. rewrite lookup_insert.
    case_decide; [|apply Hp]. subst l. intros [= <-].
    cbn [events setattrs]. rewrite Hf. by apply (Hp l0 d0). }
  cbn zeta. destruct (f_fire_at f); [case_decide|]; done.
Qed.

Lemma update_pending Q k f s :
  f_events f = None → pending Q s → pending Q (Repository.update k f s).
Proof.
  intros Hf Hp. unfold Repository.update.
  destruct (get_spec k s) as [_ (Hh&_&_)].
  destruct (Repository.get k s) as [[l|] s1]; cbn [snd] in Hh.
  - destruct (seen_add_same l (Repository._update k f s1)) as (Hh1&_).
    eapply pending_heap; [exact Hh1|]. apply _update_pending; [done|].
    by eapply pending_heap.
  - by eapply pending_heap.
Qed.

(** The registration handler raises before it constructs a device (C2);
    the other two append one event of their own class. *)
Lemma wired_command_handlers_keep Q c :
  (∀ k, Q (RemoveDeviceEvent k)) → (∀ k t, Q (KeepAliveDeviceEvent k t)) →
  keeps (pending Q) (command_handlers.register_device c) ∧
  keeps (pending Q) (command_handlers.remove_device c) ∧
  keeps (pending Q) (command_handlers.keep_alive_device c).
Proof.
  intros Hrem Hka. split_and!; apply keeps_with_uow.
  - destruct c; by apply keeps_same.
  - apply keeps_bind.
    { apply keeps_on_store. intros s.
      apply pending_heap. by destruct (get_spec (command_uuid c) s) as [_ (?&_)]. }
    intros [device|]; [|by apply keeps_same].
    apply keeps_bind; [apply keeps_same; intros w; unfold deref;
                       by destruct (heap (store w) !! device)|].
    intros d. apply keeps_bind.
    { apply keeps_on_store_. intros s. apply pending_heap, remove_heap. }
    intros _. apply keeps_bind; [|intros _; by apply keeps_same].
    apply keeps_call_method. intros d0 ev.
    unfold generate_event_remove_device. cbn [events set_events].
    intros [?|Hs%list_elem_of_singleton]%elem_of_app; [auto|subst; auto].
  - apply keeps_bind.
    { apply keeps_on_store. intros s.
      apply pending_heap. by destruct (get_spec (command_uuid c) s) as [_ (?&_)]. }
    intros [device|]; [|by apply keeps_same].
    apply keeps_bind; [by apply keeps_same|]. intros dt.
    apply keeps_bind; [by apply keeps_same|]. intros t.
    apply keeps_bind; [apply keeps_same; intros w; unfold deref;
                       by destruct (heap (store w) !! device)|].
    intros d. apply keeps_bind.
    { apply keeps_on_store_. intros s. by apply update_pending. }
    intros _. apply keeps_bind; [|intros _; by apply keeps_same].
    apply keeps_call_method. intros d0 ev.
    unfold generate_event_keep_alive_device. cbn [events set_events].
    intros [?|Hs%list_elem_of_singleton]%elem_of_app; [auto|subst; auto].
Qed.

Lemma wired_handlers_keep_mapped :
  handlers_keep_mapped bootstrap.EVENT_HANDLERS bootstrap.COMMAND_HANDLERS.
Proof.
  split.
  - intros ct handler c w Hin Hp.
    destruct (wired_command_handlers_keep (mapped bootstrap.EVENT_HANDLERS) c)
      as (Hreg&Hrem&Hka); [by eexists..|].
    unfold bootstrap.COMMAND_HANDLERS in Hin.
    apply elem_of_cons in Hin as [Heq|Hin];
      [injection Heq as -> ->; by apply Hreg|].
    apply elem_of_cons in Hin as [Heq|Hin];
      [injection Heq as -> ->; by apply Hrem|].
    apply elem_of_cons in Hin as [Heq|Hin];
      [injection Heq as -> ->; by apply Hka|].
    by apply elem_of_nil in Hin.
  - intros et hs h ev w Het Hh Hp.
    unfold bootstrap.EVENT_HANDLERS in Het.
    apply elem_of_cons in Het as [Heq|Het];
      [injection Heq as -> ->;
       apply list_elem_of_singleton in Hh as ->; exact Hp|].
    apply elem_of_cons in Het as [Heq|Het];
      [injection Heq as -> ->;
       apply list_elem_of_singleton in Hh as ->; exact Hp|].
    apply elem_of_cons in Het as [Heq|Het];
      [injection Heq as -> ->;
       apply list_elem_of_singleton in Hh as ->; exact Hp|].
    by apply elem_of_nil in Het.
Qed.

(** C8, instance on the wired bus: a keep-alive for an unknown device
    makes [handle] raise not-found, and what raised is the handling of
    the command. *)
Lemma dispatch_raise_causes_witness :
  handlers_keep_mapped bootstrap.EVENT_HANDLERS bootstrap.COMMAND_HANDLERS ∧
  pending_mapped bootstrap.EVENT_HANDLERS (world_a 100) ∧
  ∃ w',
    bootstrap.handle 1 (MsgCommand (KeepAliveDeviceCommand "zz")) (world_a 100)
      = Some (Raise NotFoundError, w') ∧
    messagebus._handle_command bootstrap.COMMAND_HANDLERS
      (KeepAliveDeviceCommand "zz") [] (world_a 100)
      = (Raise NotFoundError, w').
Proof.
  assert (Hp : pending_mapped bootstrap.EVENT_HANDLERS (world_a 100)).
  { intros l d ev Hd.
    assert (Hm : heap (store (world_a 100)) = {[1%positive := device_a]})
      by (by vm_compute).
    rewrite Hm in Hd. apply lookup_singleton_Some in Hd as [_ <-].
    by intros ?%elem_of_nil. }
  split; [exact wired_handlers_keep_mapped|]. split; [exact Hp|].
  assert (Hh : bootstrap.handle 1 (MsgCommand (KeepAliveDeviceCommand "zz"))
                 (world_a 100)
               = Some (Raise NotFoundError,
                       (messagebus._handle_command bootstrap.COMMAND_HANDLERS
                          (KeepAliveDeviceCommand "zz") [] (world_a 100)).2)).
  { vm_compute. reflexivity. }
  eexists. split; [exact Hh|].
  destruct (dispatch_raise_causes bootstrap.EVENT_HANDLERS
              bootstrap.COMMAND_HANDLERS) as (_&_&_&_&_&Hiff).
  exact (proj1 (Hiff wired_handlers_keep_mapped 0%nat _ _ _ _ Hp) Hh).
Defined.

(** C9, instance on the wired bus. *)
Lemma unmapped_event_aborts_dispatch_witness :
  items_for (type_of_event (OtherEvent "DeviceExpired"))
    bootstrap.EVENT_HANDLERS = [] ∧
  bootstrap.handle 1 (MsgEvent (OtherEvent "DeviceExpired")) (world_a 100)
    = Some (Raise KeyError, world_a 100).
Proof.
  split; [reflexivity|].
  apply (unmapped_event_aborts_dispatch bootstrap.EVENT_HANDLERS
           bootstrap.COMMAND_HANDLERS (OtherEvent "DeviceExpired") []
           (world_a 100) 0).
  reflexivity.
Defined.

(** ** Successive ticks, and the remaining concrete instances *)

Lemma exit_after_commit_rolls_back u s :
  UnitOfWork.__exit__ u (UnitOfWork.commit u s) = UnitOfWork.rollback u s.
Proof. reflexivity. Qed.

(** Whatever a scope did, and although it committed, its exit leaves
    exactly the devices of the snapshot taken on entry. *)
Lemma committed_scope_restores_snapshot u s :
  store_inv s → backup_coherent s (_backup u) →
  by_uuid (UnitOfWork.__exit__ u (UnitOfWork.commit u s)) = _backup u.
Proof.
  intros Hinv Hb. rewrite exit_after_commit_rolls_back.
  by destruct (rollback_spec u s Hinv Hb) as (_&?&_).
Qed.

Lemma ticks_window ws p i w :
  ws !! i = Some w →
  ∃ a devs, task.ticks p ws !! i = Some (a, clock w, devs) ∧
    (i = 0%nat → a = _last_poll p + 1) ∧
    (∀ i' w', i = S i' → ws !! i' = Some w' → a = clock w' + 1).
Proof.
  revert p i. induction ws as [|w0 ws IH]; intros p i Hi; [done|].
  destruct i as [|i]; simpl in *.
  - injection Hi as ->. eexists _, _. split; [done|]. split; [done|]. done.
  - destruct (IH (task.check_and_fire p w0).1 i Hi) as (a&devs&Ht&H0&HS).
    exists a, devs. split; [done|]. split; [done|].
    intros i' w' [= <-] Hi'. destruct i as [|i].
    + simpl in Hi'. injection Hi' as <-.
      rewrite H0 by done. by rewrite check_and_fire_last_poll.
    + simpl in Hi'. by eapply HS.
Qed.

(** C6, as amended.  For ticks whose clock readings never decrease,
    each finding a store that satisfies the repository invariant: a
    tick queries the inclusive window from the previous [_last_poll]
    plus one to its clock reading, logs one record per returned device
    and leaves [_last_poll] at its clock reading whatever was returned;
    every returned device has its [fire_at] inside the window; the
    windows of two different ticks are disjoint, hence no [fire_at]
    value is returned by two ticks: a device whose [fire_at] does not
    change is fired by at most one tick. *)
Theorem ticks_never_revisit (p : FirePoller) (ws : list World) :
  StronglySorted Z.le (clock <$> ws) →
  Forall (λ w, store_inv (store w)) ws →
  (∀ p0 w0,
     _last_poll (task.check_and_fire p0 w0).1 = clock w0 ∧
     log (task.check_and_fire p0 w0).2 =
       log w0 ++ LogPolling (_last_poll p0 + 1) (clock w0)
         :: omap (λ l, task.lwt_record <$> heap (store w0) !! l)
              (task.polled p0 w0)) ∧
  (∀ i w, ws !! i = Some w →
     ∃ a devs, task.ticks p ws !! i = Some (a, clock w, devs) ∧
       (i = 0%nat → a = _last_poll p + 1) ∧
       (∀ i' w', i = S i' → ws !! i' = Some w' → a = clock w' + 1)) ∧
  (∀ i a b devs d,
     task.ticks p ws !! i = Some (a, b, devs) → d ∈ devs →
     a ≤ fire_at d ≤ b) ∧
  (∀ i j a b devs a' b' devs',
     (i < j)%nat →
     task.ticks p ws !! i = Some (a, b, devs) →
     task.ticks p ws !! j = Some (a', b', devs') →
     b < a' ∧
     ∀ d d', d ∈ devs → d' ∈ devs' → fire_at d ≠ fire_at d').
Proof.
  intros Hs Hinv. split_and!.
  - intros p0 w0. split; [apply check_and_fire_last_poll|apply check_and_fire_log].
  - intros i w. apply ticks_window.
  - intros i a b devs d. by apply ticks_in_window.
  - intros i j a b devs a' b' devs' Hij Hi Hj.
    pose proof (ticks_disjoint ws p i j _ _ _ _ _ _ Hs Hij Hi Hj) as Hlt.
    split; [done|]. intros d d' Hd Hd' Heq.
    pose proof (ticks_in_window ws p i _ _ _ d Hinv Hi Hd).
    pose proof (ticks_in_window ws p j _ _ _ d' Hinv Hj Hd'). lia.
Qed.

(** C6, instance: three ticks at seconds 103, 110 and 120. *)
Lemma ticks_never_revisit_witness :
  StronglySorted Z.le (clock <$> ticks_example) ∧
  Forall (λ w, store_inv (store w)) ticks_example ∧
  ∀ i j a b devs a' b' devs',
    (i < j)%nat →
    task.ticks (task.__init__ 100) ticks_example !! i = Some (a, b, devs) →
    task.ticks (task.__init__ 100) ticks_example !! j = Some (a', b', devs') →
    b < a' ∧ ∀ d d', d ∈ devs → d' ∈ devs' → fire_at d ≠ fire_at d'.
Proof.
  assert (Hs : StronglySorted Z.le (clock <$> ticks_example)).
  { repeat constructor; simpl; lia. }
  assert (Hinv : Forall (λ w, store_inv (store w)) ticks_example).
  { repeat constructor; apply reachable_store_inv, store_a_reachable. }
  split; [exact Hs|]. split; [exact Hinv|].
  apply (ticks_never_revisit (task.__init__ 100) ticks_example Hs Hinv).
Defined.

(** C6, counterexample.  The poller reads the wall clock; when it is
    set back between ticks (readings 110, 105, 110) the third window
    [106, 110] overlaps the first [101, 110], and the device, whose
    [fire_at] stayed 110, is returned by both ticks. *)
Lemma clock_set_back_revisits :
  (λ x : Z * Z * list Device, (x.1.1, x.1.2, uuid <$> x.2))
    <$> task.ticks (task.__init__ 100) [world_a 110; world_a 105; world_a 110]
  = [(101, 110, ["a"]); (111, 105, []); (106, 110, ["a"])] ∧
  fire_at <$> device_at (store (world_a 110)) "a" = Some 110.
Proof. vm_compute. done. Qed.

(** The three ticks of the instance: only the second returns the device. *)
Example ticks_example_run :
  (λ x : Z * Z * list Device, (x.1.1, x.1.2, uuid <$> x.2))
    <$> task.ticks (task.__init__ 100) ticks_example
  = [(101, 103, []); (104, 110, ["a"]); (111, 120, [])].
Proof. vm_compute. reflexivity. Qed.

(** C3, counterexample.  In the state a query over [110, 110] leaves
    behind, the device is still stored with [fire_at] 110, yet a query
    over [100, 120] returns no device: its bucket has been consumed. *)
Lemma consumed_bucket_hides_a_stored_device :
  let s := (Repository.get_fire_at_between 110 110 store_a).2 in
  device_at s "a" = Some device_a ∧ fire_at device_a = 110 ∧
  (Repository.get_fire_at_between 100 120 s).1 = [].
Proof. vm_compute. done. Qed.

(** C3, instance on the scenario store, whose index is complete: the
    device, due at 110, is returned by a query over [110, 110] and not
    by one over [101, 109]; the query over [110, 110] returns nothing
    when repeated. *)
Lemma get_fire_at_between_claims_window_witness :
  store_inv store_a ∧ index_complete store_a ∧
  1%positive ∈ (Repository.get_fire_at_between 110 110 store_a).1 ∧
  (1%positive ∉ (Repository.get_fire_at_between 101 109 store_a).1) ∧
  (Repository.get_fire_at_between 110 110
     (Repository.get_fire_at_between 110 110 store_a).2).1 = [].
Proof.
  assert (Hinv : store_inv store_a).
  { apply reachable_store_inv, store_a_reachable. }
  assert (Hc : index_complete store_a).
  { apply (add_complete _ _ device_a); [reflexivity|].
    intros k d Hd. by vm_compute in Hd. }
  split; [exact Hinv|]. split; [exact Hc|].
  destruct (get_fire_at_between_claims_window store_a 110 110 Hinv)
    as (_&Hexact&Hagain).
  destruct (Hexact Hc) as (_&Hincl&_).
  destruct (get_fire_at_between_claims_window store_a 101 109 Hinv)
    as (_&Hexact'&_).
  destruct (Hexact' Hc) as (_&_&Hexcl).
  split; [|split; [|exact Hagain]].
  - apply (Hincl "a" 1%positive device_a); [reflexivity|reflexivity|lia|].
    reflexivity.
  - apply (Hexcl "a" 1%positive device_a); reflexivity.
Defined.

(** C10, instance on the scenario store. *)
Lemma indexes_stay_consistent_witness :
  reachable store_a ∧
  ∀ t b, by_fire_at store_a !! t = Some b → b ≠ ∅.
Proof.
  split; [exact store_a_reachable|].
  apply (indexes_stay_consistent store_a store_a_reachable).
Defined.

(** ** Further properties of the code *)

(** ** More about the repository *)

Lemma get_fst k s : (Repository.get k s).1 = by_uuid s !! k.
Proof. apply get_spec. Qed.

(** X1.  Insert then look up: after [add] of an object, [get] on its
    uuid returns that very object, the lookup of every other uuid is
    what it was, the uuid is listed in the bucket of the object's
    [fire_at], and no object has been modified. *)
Theorem add_then_get (s : Store) (l : loc) (d : Device) :
  heap s !! l = Some d →
  (Repository.get (uuid d) (Repository.add l s)).1 = Some l ∧
  (∀ k, k ≠ uuid d →
     (Repository.get k (Repository.add l s)).1 = (Repository.get k s).1) ∧
  uuid d ∈ dd_get (fire_at d) (by_fire_at (Repository.add l s)) ∧
  heap (Repository.add l s) = heap s.
Proof.
  intros Hl. destruct (add_spec s l d Hl) as (Hh&Hu&Hf).
  rewrite !get_fst, Hu, Hf, lookup_insert_eq. split_and!; try done.
  - intros k Hk. by rewrite !get_fst, Hu, lookup_insert_ne.
  - rewrite dd_get_add, decide_True by done. set_solver.
Qed.

Lemma add_then_get_witness :
  heap (alloc device_b store_a).2 !! 2%positive = Some device_b ∧
  (Repository.get "b" (Repository.add 2%positive (alloc device_b store_a).2)).1
    = Some 2%positive.
Proof.
  split; [reflexivity|].
  apply (add_then_get (alloc device_b store_a).2 2%positive device_b).
  reflexivity.
Defined.

Lemma remove_spec s k l d :
  store_inv s → by_uuid s !! k = Some l → heap s !! l = Some d →
  heap (Repository.remove k s) = heap s ∧
  by_uuid (Repository.remove k s) = delete k (by_uuid s) ∧
  by_fire_at (Repository.remove k s) =
    dd_prune (fire_at d) (dd_discard (fire_at d) k (by_fire_at s)).
Proof.
  intros (Hk&_&_) Hl Hd. unfold Repository.remove.
  destruct (get_spec k s) as [Hg Hs].
  destruct (Repository.get k s) as [o s1]. simpl in Hg, Hs. subst o.
  rewrite Hl. destruct (seen_add_same l (Repository._remove k s1)) as (->&->&->).
  destruct Hs as (Hh&Hu&Hf).
  assert (Hk1 : keys_coherent s1).
  { intros k' l'. rewrite Hu, Hh. apply Hk. }
  pose proof (_remove_spec s1 k Hk1) as Hsp.
  assert (Hd1 : device_at s1 k = Some d).
  { unfold device_at. rewrite Hu, Hl. simpl. by rewrite Hh. }
  rewrite Hd1 in Hsp. destruct Hsp as (Hh'&Hu'&Hf').
  rewrite Hh', Hu', Hf'. by rewrite Hh, Hu, Hf.
Qed.

(** X2.  Remove then look up: after [remove] of a stored uuid, [get]
    returns [None] for it and no bucket of the time index lists it, while
    every other uuid is found and listed exactly as before; the removed
    object itself is not modified. *)
Theorem remove_then_get (s : Store) (k : string) (l : loc) (d : Device) :
  store_inv s → by_uuid s !! k = Some l → heap s !! l = Some d →
  let s' := Repository.remove k s in
  (Repository.get k s').1 = None ∧
  (∀ k', k' ≠ k → (Repository.get k' s').1 = (Repository.get k' s).1) ∧
  (∀ t, k ∉ dd_get t (by_fire_at s')) ∧
  (∀ t k', k' ≠ k →
     k' ∈ dd_get t (by_fire_at s') ↔ k' ∈ dd_get t (by_fire_at s)) ∧
  heap s' = heap s.
Proof.
  intros Hinv Hl Hd s'. destruct (remove_spec s k l d Hinv Hl Hd) as (Hh&Hu&Hf).
  subst s'. rewrite !get_fst, Hu, Hf, lookup_delete_eq.
  destruct Hinv as (Hk&Hi&_).
  pose proof (proj1 (index_sound_alt s) Hi) as Hi'.
  split_and!; try done.
  - intros k' Hk'. by rewrite !get_fst, Hu, lookup_delete_ne.
  - intros t. rewrite dd_get_remove. case_decide as Ht.
    + intros [_ Hn]%elem_of_difference. apply Hn. by apply elem_of_singleton.
    + intros (d'&Hd'&Ht')%Hi'. unfold device_at in Hd'. rewrite Hl in Hd'.
      simpl in Hd'. congruence.
  - intros t k' Hk'. rewrite dd_get_remove. case_decide; [|done]. subst t.
    split; [by intros [? _]%elem_of_difference|].
    intros Hin. apply elem_of_difference. split; [done|].
    by intros ?%elem_of_singleton.
Qed.

Lemma remove_then_get_witness :
  store_inv store_a ∧
  (Repository.get "a" (Repository.remove "a" store_a)).1 = None.
Proof.
  assert (Hinv : store_inv store_a).
  { apply reachable_store_inv, store_a_reachable. }
  split; [exact Hinv|].
  apply (remove_then_get store_a "a" 1%positive device_a Hinv); reflexivity.
Defined.

(** X3.  A uuid that is not stored: [get] returns [None], and [get],
    [update] and [remove] leave the whole repository state as it was
    (indexes and seen set included); so does [remove_all] on an empty
    repository. *)
Theorem absent_uuid_is_a_no_op (s : Store) (k : string) (f : Fields) :
  by_uuid s !! k = None →
  Repository.get k s = (None, s) ∧
  Repository.update k f s = s ∧
  Repository.remove k s = s ∧
  (by_uuid s = ∅ → Repository.remove_all s = s).
Proof.
  intros Hk.
  assert (Hg : Repository.get k s = (None, s)).
  { unfold Repository.get, Repository._get. by rewrite Hk. }
  split_and!; [done|..].
  - unfold Repository.update. by rewrite Hg.
  - unfold Repository.remove. by rewrite Hg.
  - intros He. unfold Repository.remove_all, Repository.get_all_by_uuid,
      Repository._get_all_by_uuid. rewrite He, map_to_list_empty. simpl.
    rewrite decide_True by done. by destruct s.
Qed.

Lemma absent_uuid_is_a_no_op_witness :
  by_uuid store_a !! "zz" = None ∧
  Repository.update "zz" (only_fire_at 5) store_a = store_a.
Proof.
  split; [reflexivity|].
  apply (absent_uuid_is_a_no_op store_a "zz" (only_fire_at 5)). reflexivity.
Defined.

(** X4.  [update] on a stored uuid assigns the given fields to the
    object stored under it and changes no other object: every other
    uuid resolves to the same, unchanged device, the identity index is
    unchanged, the time index is untouched when [fire_at] is not among
    the fields, and the repository invariant is kept. *)
Theorem update_changes_one_device
    (s : Store) (k : string) (f : Fields) (d : Device) :
  store_inv s → device_at s k = Some d →
  let s' := Repository.update k f s in
  device_at s' k = Some (setattrs f d) ∧
  (∀ k', k' ≠ k → device_at s' k' = device_at s k') ∧
  (∀ l', by_uuid s !! k ≠ Some l' → heap s' !! l' = heap s !! l') ∧
  by_uuid s' = by_uuid s ∧
  (f_fire_at f = None → by_fire_at s' = by_fire_at s) ∧
  store_inv s'.
Proof.
  intros Hinv Hd s'. pose proof Hinv as (Hk&_&_).
  apply device_at_Some in Hd as (l&Hl&Hd); [|done].
  destruct (update_spec s k f l d Hinv Hl Hd) as (Hh&Hu&Hf).
  subst s'. split_and!; try done.
  - unfold device_at. rewrite Hu, Hl. simpl. by rewrite Hh, lookup_insert_eq.
  - intros k' Hk'. unfold device_at. rewrite Hu.
    destruct (by_uuid s !! k') as [l'|] eqn:Hl'; [|done]. simpl.
    rewrite Hh, lookup_insert_ne; [done|]. intros <-.
    destruct (Hk _ _ Hl') as (d'&Hd'&Hu'). destruct (Hk _ _ Hl) as (d0&Hd0&Hu0).
    congruence.
  - intros l' Hne. rewrite Hh, lookup_insert_ne; [done|]. congruence.
  - intros Hn. rewrite Hf. unfold reindexed. simpl. rewrite Hn. simpl.
    by rewrite decide_False by auto.
  - by apply update_inv.
Qed.

Lemma update_changes_one_device_witness :
  store_inv store_a ∧
  fire_at <$> device_at (Repository.update "a" (only_fire_at 200) store_a) "a"
    = Some 200.
Proof.
  assert (Hinv : store_inv store_a).
  { apply reachable_store_inv, store_a_reachable. }
  split; [exact Hinv|].
  destruct (update_changes_one_device store_a "a" (only_fire_at 200) device_a Hinv)
    as (Hd&_); [reflexivity|].
  by rewrite Hd.
Defined.

Lemma update_complete s k f :
  store_inv s → index_complete s → index_complete (Repository.update k f s).
Proof.
  intros Hinv Hc. unfold Repository.update.
  destruct (get_spec k s) as [_ Hs].
  destruct (Repository.get k s) as [[l|] s1]; simpl in *.
  - eapply index_complete_same; [apply seen_add_same|].
    apply _update_complete.
    + eapply store_inv_same in Hinv; [|exact Hs]. apply Hinv.
    + by eapply index_complete_same.
  - by eapply index_complete_same.
Qed.

Lemma remove_complete s k :
  store_inv s → index_complete s → index_complete (Repository.remove k s).
Proof.
  intros Hinv Hc. unfold Repository.remove.
  destruct (get_spec k s) as [_ Hs].
  destruct (Repository.get k s) as [[l|] s1]; simpl in *.
  - eapply index_complete_same; [apply seen_add_same|].
    apply _remove_complete.
    + eapply store_inv_same in Hinv; [|exact Hs]. apply Hinv.
    + by eapply index_complete_same.
  - by eapply index_complete_same.
Qed.

Lemma remove_all_complete s :
  store_inv s → index_complete s → index_complete (Repository.remove_all s).
Proof.
  intros Hinv Hc. destruct (remove_all_spec s Hinv) as (_&Hu&_).
  intros k d. unfold device_at. by rewrite Hu, lookup_empty.
Qed.

Lemma alloc_complete d s :
  keys_coherent s → index_complete s → index_complete (alloc d s).2.
Proof. intros Hk Hc k d'. rewrite device_at_alloc by done. apply Hc. Qed.

Lemma reachable_unclaimed_inv s :
  reachable_unclaimed s → store_inv s ∧ index_complete s.
Proof.
  induction 1 as [h|s d _ [IHi IHc]|s l d _ [IHi IHc] Hl Hf|s k f _ [IHi IHc]
                  |s k _ [IHi IHc]|s _ [IHi IHc]|s k _ [IHi IHc]|s _ [IHi IHc]].
  - split; [apply empty_repository_inv|].
    intros k d. unfold device_at. simpl. by rewrite lookup_empty.
  - split; [by apply alloc_inv|apply alloc_complete; [apply IHi|done]].
  - split; [by eapply add_inv|by eapply add_complete].
  - split; [by apply update_inv|by apply update_complete].
  - split; [by apply remove_inv|by apply remove_complete].
  - split; [by apply remove_all_inv|by apply remove_all_complete].
  - split; [eapply store_inv_same|eapply index_complete_same];
      try apply get_spec; done.
  - split; [eapply store_inv_same|eapply index_complete_same];
      try apply get_all_by_uuid_spec; done.
Qed.

(** X5.  As long as no range query has been run, every stored device
    is listed in the bucket of its [fire_at]; a range query then returns a
    stored device exactly when its [fire_at] lies in the inclusive
    window. *)
Theorem unclaimed_index_is_complete (s : Store) (start end_ : Z) :
  reachable_unclaimed s →
  (∀ k l d, by_uuid s !! k = Some l → heap s !! l = Some d →
     k ∈ dd_get (fire_at d) (by_fire_at s)) ∧
  (∀ k l d, by_uuid s !! k = Some l → heap s !! l = Some d →
     (l ∈ (Repository.get_fire_at_between start end_ s).1 ↔
      start ≤ fire_at d ≤ end_)).
Proof.
  intros [Hinv Hc]%reachable_unclaimed_inv. split.
  - intros k l d Hl Hd. apply Hc. unfold device_at. by rewrite Hl.
  - intros k l d Hl Hd. apply get_fire_at_between_complete; eauto.
Qed.

Lemma store_a_unclaimed : reachable_unclaimed store_a.
Proof.
  unfold store_a. eapply (unclaimed_add _ _ device_a).
  - apply unclaimed_construct, (unclaimed_empty ∅).
  - reflexivity.
  - reflexivity.
Qed.

Lemma unclaimed_index_is_complete_witness :
  reachable_unclaimed store_a ∧
  "a" ∈ dd_get 110 (by_fire_at store_a).
Proof.
  split; [exact store_a_unclaimed|].
  apply (proj1 (unclaimed_index_is_complete store_a 0 0 store_a_unclaimed)
           "a" 1%positive device_a); reflexivity.
Defined.

Lemma range_empty a b : b ≤ a → range a b = [].
Proof. intros H. unfold range. by replace (Z.to_nat (b - a)) with 0%nat by lia. Qed.

(** X6.  A window that ends before it starts: the range query returns
    no device and changes nothing, whatever the state. *)
Theorem empty_window_query (s : Store) (start end_ : Z) :
  end_ < start →
  Repository.get_fire_at_between start end_ s = ([], s).
Proof.
  intros Hlt. unfold Repository.get_fire_at_between.
  rewrite _get_fire_at_between_eq, range_empty by lia. simpl.
  by rewrite set_by_fire_at_id.
Qed.

Lemma empty_window_query_witness :
  109 < 110 ∧ Repository.get_fire_at_between 110 109 store_a = ([], store_a).
Proof. split; [lia|]. apply (empty_window_query store_a 110 109). lia. Defined.

Lemma seen_add_keeps l s k l0 :
  seen s !! k = Some l0 → seen (Repository.seen_add l s) !! k = Some l0.
Proof.
  intros Hs. unfold Repository.seen_add.
  destruct (heap s !! l) as [d|]; [|done].
  destruct (seen s !! uuid d) eqn:Hd; [done|]. simpl.
  rewrite lookup_insert_ne; [done|]. congruence.
Qed.

Lemma seen_update_keeps ls s k l0 :
  seen s !! k = Some l0 → seen (Repository.seen_update ls s) !! k = Some l0.
Proof.
  unfold Repository.seen_update. revert s.
  induction ls as [|l ls IH]; intros s Hs; [done|].
  cbn [foldl]. by apply IH, seen_add_keeps.
Qed.

Lemma _get_fire_at_between_seen start end_ s :
  seen (Repository._get_fire_at_between start end_ s).2 = seen s.
Proof. by rewrite _get_fire_at_between_eq. Qed.

Lemma get_fire_at_between_keeps start end_ s k l :
  seen s !! k = Some l →
  seen (Repository.get_fire_at_between start end_ s).2 !! k = Some l.
Proof.
  intros Hs. unfold Repository.get_fire_at_between.
  pose proof (_get_fire_at_between_seen start end_ s) as Hseen.
  destruct (Repository._get_fire_at_between start end_ s) as [devices s1].
  simpl in *. apply seen_update_keeps. by rewrite Hseen.
Qed.

(** X7.  What a range query changes: no object and no entry of the
    identity index; from the time index exactly the buckets of the
    timestamps in the inclusive window are dropped and every other bucket
    is kept; devices marked seen stay marked. *)
Theorem range_query_frame (s : Store) (start end_ : Z) :
  let s' := (Repository.get_fire_at_between start end_ s).2 in
  heap s' = heap s ∧ by_uuid s' = by_uuid s ∧
  (∀ t, by_fire_at s' !! t =
        if decide (start ≤ t ≤ end_) then None else by_fire_at s !! t) ∧
  (∀ k l, seen s !! k = Some l → seen s' !! k = Some l).
Proof.
  intros s'. subst s'.
  destruct (get_fire_at_between_spec start end_ s) as [_ (Hh&Hu&Hf)].
  split_and!.
  - rewrite Hh. by rewrite _get_fire_at_between_eq.
  - rewrite Hu. by rewrite _get_fire_at_between_eq.
  - intros t. rewrite Hf, _get_fire_at_between_eq. simpl.
    rewrite lookup_drop_buckets.
    destruct (decide (t ∈ range start (end_ + 1))) as [Hin|Hnin].
    + apply elem_of_range in Hin. rewrite decide_True; [done|lia].
    + rewrite elem_of_range in Hnin. rewrite decide_False; [done|lia].
  - intros k l Hs. by apply get_fire_at_between_keeps.
Qed.

Lemma NoDup_omap_inj {A B} (f : A → option B) (l : list A) :
  NoDup l →
  (∀ x y z, x ∈ l → y ∈ l → f x = Some z → f y = Some z → x = y) →
  NoDup (omap f l).
Proof.
  induction l as [|x l IH]; intros Hnd Hinj; simpl; [constructor|].
  apply NoDup_cons in Hnd as [Hx Hnd].
  assert (IH' : NoDup (omap f l)).
  { apply IH; [done|]. intros x' y z Hx' Hy. apply Hinj; by apply elem_of_cons; right. }
  destruct (f x) as [z|] eqn:Hfx; [|done].
  apply NoDup_cons. split; [|done].
  intros (y&Hy&Hfy)%list_elem_of_omap.
  assert (x = y) as ->; [|done].
  eapply Hinj; [apply elem_of_cons; by left|apply elem_of_cons; by right|done..].
Qed.

Lemma by_uuid_inj s k k' l :
  keys_coherent s → by_uuid s !! k = Some l → by_uuid s !! k' = Some l → k = k'.
Proof.
  intros Hk Hl Hl'. destruct (Hk _ _ Hl) as (d&Hd&<-).
  destruct (Hk _ _ Hl') as (d'&Hd'&<-). congruence.
Qed.

Lemma NoDup_scanned s ts :
  store_inv s → NoDup ts → NoDup (scanned s ts).
Proof.
  revert s. induction ts as [|t ts IH]; intros s Hinv Hnd; simpl; [constructor|].
  apply NoDup_cons in Hnd as [Ht Hnd]. pose proof Hinv as (Hk&Hi&He).
  set (s' := set_by_fire_at (delete t (by_fire_at s)) s).
  assert (Hinv' : store_inv s').
  { split_and!; [done|..].
    - intros t' b k. simpl. rewrite lookup_delete. case_decide; [done|apply Hi].
    - intros t' b. simpl. rewrite lookup_delete. case_decide; [done|apply He]. }
  apply NoDup_app. split_and!.
  - apply NoDup_omap_inj; [apply NoDup_elements|].
    intros k k' l _ _. by apply by_uuid_inj.
  - intros l (k&Hin&Hl)%elem_of_bucket_devices (t'&k'&Ht'&Hin'&Hl')%elem_of_scanned.
    simpl in Hin', Hl'. rewrite dd_get_delete in Hin'.
    case_decide as Htt; [set_solver|].
    assert (k = k') as <- by (by eapply by_uuid_inj).
    pose proof (proj1 (index_sound_alt s) Hi) as Hi'.
    destruct (Hi' _ _ Hin) as (d&Hd&Hf). destruct (Hi' _ _ Hin') as (d'&Hd'&Hf').
    congruence.
  - by apply IH.
Qed.

Lemma NoDup_range a b : NoDup (range a b).
Proof.
  unfold range. apply NoDup_fmap_2_strong; [|apply NoDup_seq].
  intros x y _ _ H. lia.
Qed.

(** X8.  Under the repository invariant a range query returns no
    device twice. *)
Theorem range_query_returns_each_device_once (s : Store) (start end_ : Z) :
  store_inv s → NoDup (Repository.get_fire_at_between start end_ s).1.
Proof.
  intros Hinv. destruct (get_fire_at_between_spec start end_ s) as [-> _].
  rewrite _get_fire_at_between_eq. simpl.
  apply NoDup_scanned; [done|apply NoDup_range].
Qed.

Lemma range_query_returns_each_device_once_witness :
  store_inv store_a ∧ NoDup (Repository.get_fire_at_between 100 120 store_a).1.
Proof.
  assert (Hinv : store_inv store_a).
  { apply reachable_store_inv, store_a_reachable. }
  split; [exact Hinv|].
  apply (range_query_returns_each_device_once store_a 100 120 Hinv).
Defined.

(** X9.  [update] of [fire_at] on a stored device whose time-index
    entry has been consumed by a range query: the device is listed again,
    under the new value only, when the new value differs from the current
    one; writing the value it already has leaves it unlisted. *)
Theorem update_relists_only_on_change
    (s : Store) (k : string) (d : Device) (t : Z) :
  store_inv s → device_at s k = Some d →
  k ∉ dd_get (fire_at d) (by_fire_at s) →
  let s' := Repository.update k (only_fire_at t) s in
  (t ≠ fire_at d → ∀ t', k ∈ dd_get t' (by_fire_at s') ↔ t' = t) ∧
  (t = fire_at d → ∀ t', k ∉ dd_get t' (by_fire_at s')).
Proof.
  intros Hinv Hd Hout s'. pose proof Hinv as (Hk&Hi&_).
  pose proof (proj1 (index_sound_alt s) Hi) as Hi'.
  assert (Hnone : ∀ t', k ∉ dd_get t' (by_fire_at s)).
  { intros t' Hin. destruct (Hi' _ _ Hin) as (d'&Hd'&<-).
    by assert (d' = d) as -> by congruence. }
  apply device_at_Some in Hd as (l&Hl&Hd); [|done].
  destruct (update_spec s k (only_fire_at t) l d Hinv Hl Hd) as (_&_&Hf).
  subst s'. rewrite Hf. simpl. split.
  - intros Hne t'. rewrite dd_get_reindexed, decide_False by done.
    destruct (decide (t = t')) as [<-|Ht].
    { split; [done|]. intros _. apply elem_of_union. right.
      by apply elem_of_singleton. }
    split; [|by intros ->].
    case_decide.
    + intros [_ Hn]%elem_of_difference. destruct Hn. by apply elem_of_singleton.
    + intros Hin. by destruct (Hnone t').
  - intros -> t'. rewrite dd_get_reindexed, decide_True by done. apply Hnone.
Qed.

Lemma update_relists_only_on_change_witness :
  let s := (Repository.get_fire_at_between 110 110 store_a).2 in
  store_inv s ∧ device_at s "a" = Some device_a ∧
  ("a" ∉ dd_get 110 (by_fire_at s)) ∧
  "a" ∈ dd_get 120 (by_fire_at (Repository.update "a" (only_fire_at 120) s)).
Proof.
  intros s.
  assert (Hinv : store_inv s).
  { apply reachable_store_inv, reach_get_fire_at_between, store_a_reachable. }
  assert (Hd : device_at s "a" = Some device_a) by reflexivity.
  assert (Hout : "a" ∉ dd_get (fire_at device_a) (by_fire_at s)).
  { vm_compute. set_solver. }
  split; [exact Hinv|]. split; [exact Hd|]. split; [exact Hout|].
  apply (proj1 (update_relists_only_on_change s "a" device_a 120 Hinv Hd Hout));
    [by compute|reflexivity].
Defined.

Lemma _add_seen l s : seen (Repository._add l s) = seen s.
Proof. unfold Repository._add. by destruct (heap s !! l). Qed.

Lemma _update_seen k f s : seen (Repository._update k f s) = seen s.
Proof.
  unfold Repository._update. destruct (by_uuid s !! k) as [l|]; [|done].
  destruct (heap s !! l) as [d|]; [|done]. simpl.
  destruct (f_fire_at f); [case_decide|]; done.
Qed.

Lemma _remove_seen k s : seen (Repository._remove k s) = seen s.
Proof.
  unfold Repository._remove. destruct (by_uuid s !! k) as [l|]; [|done].
  by destruct (heap s !! l).
Qed.

Lemma get_keeps k' s k l0 :
  seen s !! k = Some l0 → seen (Repository.get k' s).2 !! k = Some l0.
Proof.
  intros Hs. unfold Repository.get. destruct (Repository._get k' s); [|done].
  by apply seen_add_keeps.
Qed.

Lemma add_keeps l s k l0 :
  seen s !! k = Some l0 → seen (Repository.add l s) !! k = Some l0.
Proof. intros Hs. apply seen_add_keeps. by rewrite _add_seen. Qed.

Lemma update_keeps k' f s k l0 :
  seen s !! k = Some l0 → seen (Repository.update k' f s) !! k = Some l0.
Proof.
  intros Hs. unfold Repository.update.
  pose proof (get_keeps k' s k l0 Hs) as Hg.
  destruct (Repository.get k' s) as [[l|] s1]; simpl in *; [|done].
  apply seen_add_keeps. by rewrite _update_seen.
Qed.

Lemma remove_keeps k' s k l0 :
  seen s !! k = Some l0 → seen (Repository.remove k' s) !! k = Some l0.
Proof.
  intros Hs. unfold Repository.remove.
  pose proof (get_keeps k' s k l0 Hs) as Hg.
  destruct (Repository.get k' s) as [[l|] s1]; simpl in *; [|done].
  apply seen_add_keeps. by rewrite _remove_seen.
Qed.

Lemma remove_all_keeps s k l0 :
  seen s !! k = Some l0 → seen (Repository.remove_all s) !! k = Some l0.
Proof.
  intros Hs. unfold Repository.remove_all, Repository.get_all_by_uuid.
  case_decide; [by apply seen_update_keeps|].
  unfold Repository.seen_update at 1. cbn [foldl].
  unfold Repository._remove_all. cbn [seen set_by_fire_at set_by_uuid].
  by apply seen_update_keeps.
Qed.

Lemma rollback_keeps u s k l0 :
  seen s !! k = Some l0 → seen (UnitOfWork.rollback u s) !! k = Some l0.
Proof.
  intros Hs. unfold UnitOfWork.rollback.
  apply remove_all_keeps in Hs. revert Hs.
  generalize (Repository.remove_all s) as s0.
  induction ((map_to_list (_backup u)).*2) as [|l ls IH]; intros s0 Hs; [done|].
  cbn [foldl]. by apply IH, add_keeps.
Qed.

Lemma add_ignored_by_seen s l d l0 :
  heap s !! l = Some d → seen s !! uuid d = Some l0 →
  seen (Repository.add l s) = seen s.
Proof.
  intros Hl Hs. unfold Repository.add, Repository.seen_add.
  assert (Hh : heap (Repository._add l s) !! l = Some d).
  { unfold Repository._add. by rewrite Hl. }
  rewrite Hh, _add_seen, Hs. apply _add_seen.
Qed.

(** X10.  The seen set never forgets: an entry made for a uuid is
    kept, with the same object, by every repository method and by
    [rollback]; in particular [add] of another object with that uuid
    leaves the seen set as it was. *)
Theorem seen_never_forgets (s : Store) (k : string) (l0 : loc) :
  seen s !! k = Some l0 →
  (∀ k', seen (Repository.get k' s).2 !! k = Some l0) ∧
  seen (Repository.get_all_by_uuid s).2 !! k = Some l0 ∧
  (∀ l, seen (Repository.add l s) !! k = Some l0) ∧
  (∀ k' f, seen (Repository.update k' f s) !! k = Some l0) ∧
  (∀ k', seen (Repository.remove k' s) !! k = Some l0) ∧
  seen (Repository.remove_all s) !! k = Some l0 ∧
  (∀ a b, seen (Repository.get_fire_at_between a b s).2 !! k = Some l0) ∧
  (∀ u, seen (UnitOfWork.rollback u s) !! k = Some l0) ∧
  (∀ l d, heap s !! l = Some d → uuid d = k →
     seen (Repository.add l s) = seen s).
Proof.
  intros Hs. split_and!.
  - intros k'. by apply get_keeps.
  - by apply seen_update_keeps.
  - intros l. by apply add_keeps.
  - intros k' f. by apply update_keeps.
  - intros k'. by apply remove_keeps.
  - by apply remove_all_keeps.
  - intros a b. by apply get_fire_at_between_keeps.
  - intros u. by apply rollback_keeps.
  - intros l d Hl <-. by eapply add_ignored_by_seen.
Qed.

Lemma seen_never_forgets_witness :
  seen store_a !! "a" = Some 1%positive ∧
  seen (Repository.remove "a" store_a) !! "a" = Some 1%positive.
Proof.
  split; [reflexivity|].
  apply (seen_never_forgets store_a "a" 1%positive). reflexivity.
Defined.

(** X11.  [add] of a second object under a uuid that is stored with
    another [fire_at]: the identity index now holds the new object, but
    the old entry of the time index stays, so the uuid is listed under
    both timestamps, a range query over the old timestamp returns the new
    object, and the time index is no longer sound. *)
Theorem add_over_existing_uuid_leaves_stale_entry
    (s : Store) (l l0 : loc) (d d0 : Device) :
  store_inv s →
  heap s !! l = Some d → by_uuid s !! uuid d = Some l0 →
  heap s !! l0 = Some d0 → fire_at d0 ≠ fire_at d →
  uuid d ∈ dd_get (fire_at d0) (by_fire_at s) →
  let s' := Repository.add l s in
  by_uuid s' !! uuid d = Some l ∧
  uuid d ∈ dd_get (fire_at d0) (by_fire_at s') ∧
  uuid d ∈ dd_get (fire_at d) (by_fire_at s') ∧
  l ∈ (Repository.get_fire_at_between (fire_at d0) (fire_at d0) s').1 ∧
  ¬ index_sound s'.
Proof.
  intros Hinv Hl Hl0 Hd0 Hne Hin s'.
  destruct (add_spec s l d Hl) as (Hh&Hu&Hf). subst s'.
  assert (H1 : by_uuid (Repository.add l s) !! uuid d = Some l).
  { by rewrite Hu, lookup_insert_eq. }
  assert (H2 : uuid d ∈ dd_get (fire_at d0) (by_fire_at (Repository.add l s))).
  { by rewrite Hf, dd_get_add, decide_False by done. }
  split_and!; try done.
  - rewrite Hf, dd_get_add, decide_True by done. set_solver.
  - apply elem_of_get_fire_at_between. exists (fire_at d0), (uuid d).
    split_and!; [lia..|done|done].
  - intros Hi. destruct (proj1 (index_sound_alt _) Hi _ _ H2) as (d'&Hd'&Hf').
    unfold device_at in Hd'. rewrite H1 in Hd'. simpl in Hd'.
    rewrite Hh, Hl in Hd'. congruence.
Qed.

Lemma add_over_existing_uuid_leaves_stale_entry_witness :
  let s := (alloc device_a' store_a).2 in
  store_inv s ∧
  2%positive
    ∈ (Repository.get_fire_at_between 110 110 (Repository.add 2%positive s)).1 ∧
  fire_at <$> (heap s !! 2%positive) = Some 210.
Proof.
  intros s.
  assert (Hinv : store_inv s).
  { apply reachable_store_inv, reach_construct, store_a_reachable. }
  split; [exact Hinv|].
  destruct (add_over_existing_uuid_leaves_stale_entry s 2%positive 1%positive
              device_a' device_a Hinv) as (_&_&_&Hq&_);
    [reflexivity|reflexivity|reflexivity|by compute|vm_compute; set_solver|].
  split; [exact Hq|reflexivity].
Defined.

(** ** Harvesting the pending events *)

Lemma set_events_nil_idemp d : set_events [] (set_events [] d) = set_events [] d.
Proof. reflexivity. Qed.

Lemma drain_spec acc s l :
  by_uuid (UnitOfWork.drain (acc, s) l).2 = by_uuid s ∧
  by_fire_at (UnitOfWork.drain (acc, s) l).2 = by_fire_at s ∧
  seen (UnitOfWork.drain (acc, s) l).2 = seen s ∧
  (∀ l', heap (UnitOfWork.drain (acc, s) l).2 !! l' =
         if decide (l' = l) then set_events [] <$> heap s !! l
         else heap s !! l') ∧
  (UnitOfWork.drain (acc, s) l).1 = acc ++ default [] (events <$> heap s !! l).
Proof.
  unfold UnitOfWork.drain. simpl. destruct (heap s !! l) as [d|] eqn:Hd; simpl.
  - split_and!; try done. intros l'. rewrite lookup_insert.
    case_decide; case_decide; congruence.
  - split_and!; try done.
    + intros l'. case_decide; congruence.
    + by rewrite app_nil_r.
Qed.

Lemma fold_drain_spec ls acc s :
  ∃ E s',
    foldl UnitOfWork.drain (acc, s) ls = (acc ++ E, s') ∧
    by_uuid s' = by_uuid s ∧ by_fire_at s' = by_fire_at s ∧ seen s' = seen s ∧
    (∀ l, heap s' !! l =
          if decide (l ∈ ls) then set_events [] <$> heap s !! l
          else heap s !! l) ∧
    ∀ ev, ev ∈ E ↔ ∃ l d, l ∈ ls ∧ heap s !! l = Some d ∧ ev ∈ events d.
Proof.
  revert acc s. induction ls as [|l0 ls IH]; intros acc s; cbn [foldl].
  - exists [], s. rewrite app_nil_r. split; [done|].
    split; [done|]. split; [done|]. split; [done|]. split.
    + intros l. rewrite decide_False; [done|apply not_elem_of_nil].
    + intros ev. split.
      * by intros ?%elem_of_nil.
      * by intros (?&?&?%elem_of_nil&_).
  - destruct (drain_spec acc s l0) as (Hu&Hf&Hs&Hh&Hacc).
    destruct (UnitOfWork.drain (acc, s) l0) as [acc1 s1]. simpl in *.
    destruct (IH acc1 s1) as (E&s'&Heq&Hu'&Hf'&Hs'&Hh'&Hmem).
    exists (default [] (events <$> heap s !! l0) ++ E), s'.
    split; [by rewrite Heq, Hacc, app_assoc|].
    split; [congruence|]. split; [congruence|]. split; [congruence|]. split.
    + intros l. rewrite Hh', !Hh.
      destruct (decide (l = l0)) as [->|Hne].
      * rewrite (decide_True (P := l0 ∈ l0 :: ls)) by (apply elem_of_cons; by left).
        case_decide; [|done]. by destruct (heap s !! l0).
      * destruct (decide (l ∈ ls)) as [Hin|Hnin].
        -- by rewrite decide_True by (apply elem_of_cons; by right).
        -- rewrite decide_False; [done|]. rewrite elem_of_cons. by intros [?|?].
    + intros ev. rewrite elem_of_app, Hmem. split.
      * intros [Hin|(l&d&Hl&Hd&Hev)].
        -- destruct (heap s !! l0) as [d0|] eqn:Hd0; simpl in Hin;
             [|by apply elem_of_nil in Hin].
           exists l0, d0. split; [apply elem_of_cons; by left|done].
        -- rewrite Hh in Hd. case_decide as Hll.
           ++ subst. destruct (heap s !! l0); simplify_eq/=.
              by apply elem_of_nil in Hev.
           ++ exists l, d. split; [apply elem_of_cons; by right|done].
      * intros (l&d&Hl&Hd&Hev). destruct (decide (l = l0)) as [->|Hne].
        -- left. by rewrite Hd.
        -- right. exists l, d. split; [|by rewrite Hh, decide_False].
           apply elem_of_cons in Hl as [?|?]; done.
Qed.

Lemma elem_of_seen_values s l :
  l ∈ (map_to_list (seen s)).*2 ↔ ∃ k, seen s !! k = Some l.
Proof.
  rewrite list_elem_of_fmap. split.
  - intros ([k l']&->&Hin%elem_of_map_to_list). eauto.
  - intros (k&Hk). exists (k, l). split; [done|]. by apply elem_of_map_to_list.
Qed.

Lemma store_eq s s' :
  heap s = heap s' → by_uuid s = by_uuid s' → by_fire_at s = by_fire_at s' →
  seen s = seen s' → s = s'.
Proof. destruct s, s'. simpl. by intros -> -> -> ->. Qed.

Lemma collect_spec u s :
  _devices u = true →
  ∃ evs s',
    UnitOfWork.collect_new_events u s = (Ok evs, s') ∧
    (∀ ev, ev ∈ evs ↔
       ∃ k l d, seen s !! k = Some l ∧ heap s !! l = Some d ∧ ev ∈ events d) ∧
    by_uuid s' = by_uuid s ∧ by_fire_at s' = by_fire_at s ∧ seen s' = seen s ∧
    (∀ l, (∃ k, seen s !! k = Some l) →
          heap s' !! l = set_events [] <$> heap s !! l) ∧
    (∀ l, (∀ k, seen s !! k ≠ Some l) → heap s' !! l = heap s !! l).
Proof.
  intros Hb. unfold UnitOfWork.collect_new_events. rewrite Hb.
  destruct (fold_drain_spec (map_to_list (seen s)).*2 [] s)
    as (E&s'&Heq&Hu&Hf&Hs&Hh&Hmem).
  rewrite Heq. simpl. exists E, s'. split; [done|].
  split; [|split; [done|split; [done|split; [done|]]]].
  - intros ev. rewrite Hmem. split.
    + intros (l&d&(k&Hk)%elem_of_seen_values&Hd&Hev). eauto 6.
    + intros (k&l&d&Hk&Hd&Hev). exists l, d. split; [|done].
      apply elem_of_seen_values. eauto.
  - split.
    + intros l Hex. rewrite Hh, decide_True; [done|].
      by apply elem_of_seen_values.
    + intros l Hno. rewrite Hh, decide_False; [done|].
      intros (k&Hk)%elem_of_seen_values. by destruct (Hno k).
Qed.

Lemma collect_drained u s evs s' :
  UnitOfWork.collect_new_events u s = (Ok evs, s') → drained s'.
Proof.
  destruct (_devices u) eqn:Hb.
  - destruct (collect_spec u s Hb) as (evs0&s0&Hrun&_&_&_&Hs&Hh&_).
    rewrite Hrun. intros [= <- <-]. intros k l d' Hk Hd'.
    rewrite Hs in Hk. rewrite Hh in Hd' by eauto.
    destruct (heap s !! l); simplify_eq/=. done.
  - unfold UnitOfWork.collect_new_events. by rewrite Hb.
Qed.

Lemma collect_of_drained u s :
  _devices u = true → drained s →
  UnitOfWork.collect_new_events u s = (Ok [], s).
Proof.
  intros Hb Hdr.
  destruct (collect_spec u s Hb) as (evs2&s2&Hrun2&Hmem2&Hu2&Hf2&Hs2&Hh2&Hh02).
  rewrite Hrun2. f_equal; [f_equal|].
  - apply elem_of_nil_inv. intros ev (k&l&d&Hk&Hd&Hev)%Hmem2.
    rewrite (Hdr _ _ _ Hk Hd) in Hev. by apply elem_of_nil in Hev.
  - apply store_eq; try done. apply map_eq. intros l.
    destruct (decide (l ∈ (map_to_list (seen s)).*2)) as [Hin|Hnin].
    + apply elem_of_seen_values in Hin. rewrite Hh2 by done.
      destruct Hin as (k&Hk).
      destruct (heap s !! l) as [d|] eqn:Hd; [|done]. simpl.
      pose proof (Hdr _ _ _ Hk Hd) as He. destruct d; simpl in *. by subst.
    + apply Hh02. intros k Hk. apply Hnin, elem_of_seen_values. eauto.
Qed.

Lemma fold_drain_exact ls acc s :
  NoDup ls →
  (foldl UnitOfWork.drain (acc, s) ls).1 = acc ++ mjoin (pending_of s <$> ls).
Proof.
  revert acc s. induction ls as [|l0 ls IH]; intros acc s Hnd.
  - simpl. by rewrite app_nil_r.
  - apply NoDup_cons in Hnd as [Hl0 Hnd]. cbn [foldl fmap list_fmap].
    destruct (drain_spec acc s l0) as (_&_&_&Hh&Hacc).
    destruct (UnitOfWork.drain (acc, s) l0) as [acc1 s1]. simpl in Hh, Hacc.
    rewrite (IH acc1 s1 Hnd), Hacc.
    assert (Hsame : pending_of s1 <$> ls = pending_of s <$> ls).
    { apply list_fmap_ext. intros i l Hl. unfold pending_of.
      rewrite Hh, decide_False; [done|]. intros ->.
      apply Hl0. by eapply list_elem_of_lookup_2. }
    rewrite Hsame. cbn [mjoin list_join]. by rewrite <- app_assoc.
Qed.

Lemma NoDup_seen_values s :
  seen_coherent s → NoDup (map_to_list (seen s)).*2.
Proof.
  intros Hc. apply NoDup_fmap_2_strong; [|apply NoDup_map_to_list].
  intros [k l] [k' l'] Hin Hin' Heq. simpl in Heq. subst l'.
  apply elem_of_map_to_list in Hin, Hin'.
  destruct (Hc _ _ Hin) as (d&Hd&<-). destruct (Hc _ _ Hin') as (d'&Hd'&<-).
  congruence.
Qed.

(** X12.  [collect_new_events] with a bound repository, on a seen set
    whose entries are objects with the uuid they are filed under: the
    harvest is the concatenation, over the devices of the seen set in the
    order they are iterated, of each device's pending events, oldest
    first, each event once; the event lists of the seen devices are
    emptied, every other object and both indexes and the seen set are as
    before; a second harvest right after returns no event and changes
    nothing. *)
Theorem collect_new_events_drains_once (u : InMemoryDeviceUnitOfWork) (s : Store) :
  _devices u = true → seen_coherent s →
  ∃ s',
    UnitOfWork.collect_new_events u s
      = (Ok (mjoin (pending_of s <$> (map_to_list (seen s)).*2)), s') ∧
    by_uuid s' = by_uuid s ∧ by_fire_at s' = by_fire_at s ∧ seen s' = seen s ∧
    (∀ l, (∃ k, seen s !! k = Some l) →
          heap s' !! l = set_events [] <$> heap s !! l) ∧
    (∀ l, (∀ k, seen s !! k ≠ Some l) → heap s' !! l = heap s !! l) ∧
    drained s' ∧
    UnitOfWork.collect_new_events u s' = (Ok [], s').
Proof.
  intros Hb Hcoh.
  destruct (collect_spec u s Hb) as (evs&s'&Hrun&_&Hu&Hf&Hs&Hh&Hh0).
  pose proof (collect_drained u s evs s' Hrun) as Hdr.
  assert (evs = mjoin (pending_of s <$> (map_to_list (seen s)).*2)) as ->.
  { pose proof (fold_drain_exact (map_to_list (seen s)).*2 [] s
                  (NoDup_seen_values s Hcoh)) as Hfold.
    revert Hrun Hfold. unfold UnitOfWork.collect_new_events. rewrite Hb.
    destruct (foldl UnitOfWork.drain ([], s) (map_to_list (seen s)).*2)
      as [E s0].
    intros [= <- _]. simpl. by intros ->. }
  exists s'. split_and!; try done. by apply collect_of_drained.
Qed.

Lemma collect_new_events_drains_once_witness :
  let u := mkUoW true ∅ in
  let s := set_heap (alter generate_event_remove_device 1%positive (heap store_a))
             store_a in
  _devices u = true ∧ seen_coherent s ∧
  ∃ s', UnitOfWork.collect_new_events u s = (Ok [RemoveDeviceEvent "a"], s') ∧
        heap s' !! 1%positive = Some device_a ∧
        UnitOfWork.collect_new_events u s' = (Ok [], s').
Proof.
  intros u s.
  assert (Hc : seen_coherent s).
  { intros k l Hk.
    assert (Hm : seen s = {["a" := 1%positive]}) by (by vm_compute).
    rewrite Hm in Hk. apply lookup_singleton_Some in Hk as [<- <-].
    eexists. split; reflexivity. }
  split; [reflexivity|]. split; [exact Hc|].
  destruct (collect_new_events_drains_once u s eq_refl Hc)
    as (s'&Hrun&_&_&_&Hh&_&_&Hagain).
  exists s'. split; [exact Hrun|]. split; [|exact Hagain].
  rewrite Hh; [reflexivity|]. by exists "a".
Defined.

(** ** The [seen] set holds one object per uuid *)

(** [s'] has the objects of [s], with the same uuids. *)
Lemma seen_coherent_mono s s' :
  seen s' = seen s →
  (∀ l d, heap s !! l = Some d → ∃ d', heap s' !! l = Some d' ∧ uuid d' = uuid d) →
  seen_coherent s → seen_coherent s'.
Proof.
  intros Hs Hh Hc k l. rewrite Hs. intros Hk.
  destruct (Hc _ _ Hk) as (d&Hd&Hu). destruct (Hh _ _ Hd) as (d'&Hd'&Hu').
  exists d'. split; [done|congruence].
Qed.

Lemma seen_add_coherent l s : seen_coherent s → seen_coherent (Repository.seen_add l s).
Proof.
  intros Hc. unfold Repository.seen_add.
  destruct (heap s !! l) as [d|] eqn:Hd; [|done].
  destruct (seen s !! uuid d) eqn:Hs; [done|].
  intros k l'. simpl. rewrite lookup_insert. case_decide.
  - intros [= <-]. eauto.
  - apply Hc.
Qed.

Lemma seen_update_coherent ls s :
  seen_coherent s → seen_coherent (Repository.seen_update ls s).
Proof.
  unfold Repository.seen_update. revert s.
  induction ls as [|l ls IH]; intros s Hc; [done|].
  cbn [foldl]. by apply IH, seen_add_coherent.
Qed.

Lemma _add_heap l s : heap (Repository._add l s) = heap s.
Proof. unfold Repository._add. by destruct (heap s !! l). Qed.

Lemma _remove_heap k s : heap (Repository._remove k s) = heap s.
Proof.
  unfold Repository._remove. destruct (by_uuid s !! k) as [l|]; [|done].
  by destruct (heap s !! l).
Qed.

Lemma _update_heap_uuid k f s l d :
  heap s !! l = Some d →
  ∃ d', heap (Repository._update k f s) !! l = Some d' ∧ uuid d' = uuid d.
Proof.
  intros Hd. unfold Repository._update.
  destruct (by_uuid s !! k) as [l0|]; [|eauto].
  destruct (heap s !! l0) as [d0|] eqn:Hd0; [|eauto].
  assert (Hh : ∃ d', (<[l0:=setattrs f d0]> (heap s)) !! l = Some d' ∧ uuid d' = uuid d).
  { rewrite lookup_insert. case_decide; subst; [|eauto].
    eexists. split; [done|]. simpl. congruence. }
  simpl. destruct (f_fire_at f); [case_decide|]; exact Hh.
Qed.

Lemma get_coherent k s : seen_coherent s → seen_coherent (Repository.get k s).2.
Proof.
  intros Hc. unfold Repository.get. destruct (Repository._get k s); [|done].
  by apply seen_add_coherent.
Qed.

Lemma add_coherent l s : seen_coherent s → seen_coherent (Repository.add l s).
Proof.
  intros Hc. apply seen_add_coherent.
  eapply seen_coherent_mono; [apply _add_seen| |exact Hc].
  intros l' d. rewrite _add_heap. eauto.
Qed.

Lemma update_coherent k f s :
  seen_coherent s → seen_coherent (Repository.update k f s).
Proof.
  intros Hc. unfold Repository.update.
  pose proof (get_coherent k s Hc) as Hg.
  destruct (Repository.get k s) as [[l|] s1]; simpl in *; [|done].
  apply seen_add_coherent.
  eapply seen_coherent_mono; [apply _update_seen| |exact Hg].
  intros l' d. apply _update_heap_uuid.
Qed.

Lemma remove_coherent k s :
  seen_coherent s → seen_coherent (Repository.remove k s).
Proof.
  intros Hc. unfold Repository.remove.
  pose proof (get_coherent k s Hc) as Hg.
  destruct (Repository.get k s) as [[l|] s1]; simpl in *; [|done].
  apply seen_add_coherent.
  eapply seen_coherent_mono; [apply _remove_seen| |exact Hg].
  intros l' d. rewrite _remove_heap. eauto.
Qed.

Lemma remove_all_coherent s :
  seen_coherent s → seen_coherent (Repository.remove_all s).
Proof.
  intros Hc. unfold Repository.remove_all, Repository.get_all_by_uuid.
  case_decide; [by apply seen_update_coherent|].
  unfold Repository.seen_update at 1. cbn [foldl].
  eapply seen_coherent_mono; [| |apply seen_update_coherent, Hc]; [done|].
  intros l d. simpl. eauto.
Qed.

Lemma get_fire_at_between_coherent a b s :
  seen_coherent s → seen_coherent (Repository.get_fire_at_between a b s).2.
Proof.
  intros Hc. unfold Repository.get_fire_at_between.
  pose proof (_get_fire_at_between_eq a b s) as Heq.
  destruct (Repository._get_fire_at_between a b s) as [devices s1].
  simpl. apply seen_update_coherent. injection Heq as _ ->.
  eapply seen_coherent_mono; [| |exact Hc]; [done|]. intros l d. simpl. eauto.
Qed.

Lemma rollback_coherent u s :
  seen_coherent s → seen_coherent (UnitOfWork.rollback u s).
Proof.
  intros Hc. unfold UnitOfWork.rollback.
  apply remove_all_coherent in Hc. revert Hc.
  generalize (Repository.remove_all s) as s0.
  induction ((map_to_list (_backup u)).*2) as [|l ls IH]; intros s0 Hc; [done|].
  cbn [foldl]. by apply IH, add_coherent.
Qed.

Lemma alloc_coherent d s : seen_coherent s → seen_coherent (alloc d s).2.
Proof.
  intros Hc. eapply seen_coherent_mono; [| |exact Hc]; [done|].
  intros l d' Hd'. simpl. rewrite lookup_insert_ne; [eauto|].
  intros <-. pose proof (alloc_fresh d s) as Hf. simpl in Hf. congruence.
Qed.

Lemma reachable_seen_coherent s : reachable s → seen_coherent s.
Proof.
  induction 1 as [h|s d _ IH|s l d _ IH Hl Hf|s k f _ IH|s k _ IH|s _ IH
                  |s a b _ IH|s k _ IH|s _ IH].
  - intros k l. simpl. by rewrite lookup_empty.
  - by apply alloc_coherent.
  - by apply add_coherent.
  - by apply update_coherent.
  - by apply remove_coherent.
  - by apply remove_all_coherent.
  - by apply get_fire_at_between_coherent.
  - by apply get_coherent.
  - by apply seen_update_coherent.
Qed.

(** X13.  An object added under a uuid that is already marked seen
    for another object is not marked: the events it generates are not
    popped by [collect_new_events] and stay pending on the object. *)
Theorem events_of_a_replacing_object_stay_pending
    (u : InMemoryDeviceUnitOfWork) (s : Store) (l l0 : loc) (d : Device) :
  _devices u = true → seen_coherent s →
  heap s !! l = Some d → seen s !! uuid d = Some l0 → l0 ≠ l →
  let s1 := Repository.add l s in
  let s2 := set_heap (alter generate_event_register_device l (heap s1)) s1 in
  seen s2 !! uuid d = Some l0 ∧
  ∃ evs s3,
    UnitOfWork.collect_new_events u s2 = (Ok evs, s3) ∧
    heap s3 !! l = Some (generate_event_register_device d) ∧
    RegisterDeviceEvent (uuid d) (name d) (last_will d) (ttl d) (fire_at d)
      ∈ events (generate_event_register_device d).
Proof.
  intros Hb Hc Hd Hs Hne s1 s2.
  assert (Hs2 : seen s2 = seen s) by (by apply (add_ignored_by_seen s l d l0)).
  assert (Hh2 : heap s2 !! l = Some (generate_event_register_device d)).
  { subst s2 s1. simpl. by rewrite lookup_alter, decide_True, add_heap, Hd. }
  split; [by rewrite Hs2|].
  destruct (collect_spec u s2 Hb) as (evs&s3&Hrun&_&_&_&_&_&Hh0).
  exists evs, s3. split; [done|]. split.
  - rewrite Hh0; [done|]. intros k Hk. rewrite Hs2 in Hk.
    destruct (Hc _ _ Hk) as (d'&Hd'&Hu'). congruence.
  - simpl. apply elem_of_app. right. by apply list_elem_of_singleton.
Qed.

Lemma events_of_a_replacing_object_stay_pending_witness :
  let s := (alloc device_a' store_a).2 in
  seen_coherent s ∧ seen s !! "a" = Some 1%positive ∧
  ∃ evs s3,
    UnitOfWork.collect_new_events (mkUoW true ∅)
      (set_heap (alter generate_event_register_device 2%positive
                   (heap (Repository.add 2%positive s)))
         (Repository.add 2%positive s)) = (Ok evs, s3) ∧
    heap s3 !! 2%positive = Some (generate_event_register_device device_a').
Proof.
  intros s.
  assert (Hc : seen_coherent s).
  { apply reachable_seen_coherent, reach_construct, store_a_reachable. }
  split; [exact Hc|]. split; [reflexivity|].
  destruct (events_of_a_replacing_object_stay_pending (mkUoW true ∅) s
              2%positive 1%positive device_a' eq_refl Hc)
    as (_&evs&s3&Hrun&Hh&_); [reflexivity|reflexivity|done|].
  exists evs, s3. split; [exact Hrun|exact Hh].
Defined.

(** ** [Device.consume] *)

Lemma consume_all_snoc cs c d :
  consume_all (cs ++ [c]) d =
  ((consume_all cs d).1 ++ (consume c (consume_all cs d).2).1,
   (consume c (consume_all cs d).2).2).
Proof. unfold consume_all. by rewrite foldl_app. Qed.

(** X14.  [consume] never refuses: after [n] successive calls the
    version number has grown by [n], the consumer is the one of the last
    call, the device is consumed as soon as one call was made, and one
    warning was logged for each call made on an already consumed device;
    uuid, [fire_at] and pending events are untouched. *)
Theorem consume_never_refuses (cs : list string) (d : Device) :
  let r := consume_all cs d in
  version_number r.2 = version_number d + Z.of_nat (length cs) ∧
  consumer_id r.2 = from_option Some (consumer_id d) (last cs) ∧
  consumed r.2 = consumed d || bool_decide (cs ≠ []) ∧
  r.1 = replicate (if consumed d then length cs else pred (length cs))
          "consuming already consumed message!" ∧
  uuid r.2 = uuid d ∧ fire_at r.2 = fire_at d ∧ events r.2 = events d.
Proof.
  induction cs as [|c cs IH] using rev_ind; intros r; subst r.
  - simpl. split_and!; try done; try lia.
    + by rewrite orb_false_r.
    + by destruct (consumed d).
  - rewrite consume_all_snoc. destruct IH as (Hv&Hc&Hb&Hw&Hu&Hf&He).
    cbn [fst snd consume version_number consumer_id consumed uuid fire_at events].
    rewrite last_snoc, length_app, Hv, Hw, Hb. simpl length.
    split_and!; try done; try lia.
    + rewrite bool_decide_true; [by rewrite orb_true_r|].
      by destruct cs.
    + destruct (consumed d); cbn [orb].
      * rewrite Nat.add_1_r. by rewrite replicate_S_end.
      * destruct cs as [|c0 cs]; [done|].
        rewrite bool_decide_true by done.
        rewrite Nat.add_1_r. cbn [length Nat.pred].
        by rewrite <- replicate_S_end.
Qed.

(** ** Command handlers on a uuid that is not stored *)

Lemma not_found_scope (w : World) (k : string) (body : loc → M unit) :
  store_inv (store w) → by_uuid (store w) !! k = None →
  ∃ w',
    with_uow (found ← on_store (Repository.get k);
              match found with
              | None => raise NotFoundError
              | Some device => body device
              end) w = (Raise NotFoundError, w') ∧
    heap (store w') = heap (store w) ∧
    by_uuid (store w') = by_uuid (store w) ∧
    log w' = log w ∧ clock w' = clock w ∧
    store_inv (store w') ∧ index_complete (store w').
Proof.
  intros Hinv Hk. rewrite with_uow_unfold.
  destruct (enter_spec (uow w) (store w)) as [Hb Hs].
  rewrite enter_backup in *.
  set (s1 := (UnitOfWork.__enter__ (uow w) (store w)).2) in *.
  destruct Hs as (Hh1&Hu1&Hf1).
  rewrite bind_unfold, on_store_get. cbn [store set_store set_uow].
  rewrite Hu1, Hk. cbn [raise fst snd uow store set_store log clock].
  assert (Hg : (Repository.get k s1).2 = s1).
  { unfold Repository.get, Repository._get. by rewrite Hu1, Hk. }
  rewrite Hg.
  assert (Hinv1 : store_inv s1).
  { eapply store_inv_same; [|exact Hinv]. by repeat split. }
  destruct (scope_exit_spec (mkUoW true (by_uuid (store w))) s1 Hinv1)
    as (Hh5&Hu5&Hinv5&Hc5); [done|].
  eexists. split; [reflexivity|]. cbn [store set_store set_uow uow log clock].
  split_and!; try done; congruence.
Qed.

(** X15.  On a command whose uuid is not stored, the remove and the
    keep-alive handler raise [NotFoundError]; no object and no entry of
    the identity index is changed, nothing is logged, and the scope exit
    leaves a sound and complete time index. *)
Theorem handlers_reject_an_unknown_uuid (w : World) (c : Command) :
  store_inv (store w) → by_uuid (store w) !! command_uuid c = None →
  ∀ handler,
    handler ∈ [command_handlers.remove_device;
               command_handlers.keep_alive_device] →
    ∃ w',
      handler c w = (Raise NotFoundError, w') ∧
      heap (store w') = heap (store w) ∧
      by_uuid (store w') = by_uuid (store w) ∧
      log w' = log w ∧
      store_inv (store w') ∧ index_complete (store w').
Proof.
  intros Hinv Hk handler Hin.
  apply elem_of_cons in Hin as [->|Hin];
    [|apply elem_of_cons in Hin as [->|Hin]; [|by apply elem_of_nil in Hin]].
  - destruct (not_found_scope w (command_uuid c)
                (λ device, d ← deref device;
                           on_store_ (Repository.remove (uuid d));;
                           call_method device generate_event_remove_device;;
                           uow_commit) Hinv Hk)
      as (w'&Hrun&Hh&Hu&Hl&_&Hi&Hc).
    exists w'. by split_and!.
  - destruct (not_found_scope w (command_uuid c)
                (λ device, dt ← datetime_now;
                           t ← py_timestamp (get_utc_tz_aware_datetime dt);
                           d ← deref device;
                           on_store_ (Repository.update (uuid d)
                                        (only_fire_at (t + ttl d)));;
                           call_method device generate_event_keep_alive_device;;
                           uow_commit) Hinv Hk)
      as (w'&Hrun&Hh&Hu&Hl&_&Hi&Hc).
    exists w'. by split_and!.
Qed.

Lemma handlers_reject_an_unknown_uuid_witness :
  ∃ w',
    command_handlers.keep_alive_device (KeepAliveDeviceCommand "zz") (world_a 100)
      = (Raise NotFoundError, w') ∧
    by_uuid (store w') = by_uuid store_a.
Proof.
  destruct (handlers_reject_an_unknown_uuid (world_a 100)
              (KeepAliveDeviceCommand "zz")
              (reachable_store_inv _ store_a_reachable) eq_refl
              command_handlers.keep_alive_device)
    as (w'&Hrun&_&Hu&_); [set_solver|].
  exists w'. split; [exact Hrun|exact Hu].
Defined.

(** ** Any scope of the unit of work *)

(** X16.  Any scope of the unit of work, whatever its body does and
    whether or not it raises: provided the body leaves the unit of work
    in place, the repository invariant intact and the objects of the
    entry snapshot with their uuid, the scope returns what the body
    returned, the identity index after the exit is the one found on
    entry, the objects are as the body left them, and the time index is
    sound and complete. *)
Theorem scope_restores_the_stored_set {A : Type} (body : M A) (w : World) :
  let entered := UnitOfWork.__enter__ (uow w) (store w) in
  let r := body (set_store entered.2 (set_uow entered.1 w)) in
  uow r.2 = entered.1 →
  store_inv (store r.2) →
  backup_coherent (store r.2) (by_uuid (store w)) →
  (with_uow body w).1 = r.1 ∧
  by_uuid (store (with_uow body w).2) = by_uuid (store w) ∧
  heap (store (with_uow body w).2) = heap (store r.2) ∧
  store_inv (store (with_uow body w).2) ∧
  index_complete (store (with_uow body w).2).
Proof.
  intros entered r Hu Hinv Hb. rewrite with_uow_unfold. fold entered. fold r.
  cbn [fst snd store set_store]. unfold UnitOfWork.__exit__.
  rewrite Hu. subst entered. rewrite enter_backup.
  destruct (rollback_spec (mkUoW true (by_uuid (store w))) (store r.2) Hinv Hb)
    as (Hh&Hbu&Hi&Hc).
  by split_and!.
Qed.

Lemma scope_restores_the_stored_set_witness :
  by_uuid
    (store (with_uow (on_store_ (Repository.remove "a");; uow_commit)
              (world_a 100)).2) = by_uuid store_a.
Proof.
  refine (proj1 (proj2 (scope_restores_the_stored_set
            (on_store_ (Repository.remove "a");; uow_commit) (world_a 100)
            eq_refl _ _))).
  - apply reachable_store_inv.
    change (reachable (Repository.remove "a"
                         (Repository.get_all_by_uuid store_a).2)).
    apply reach_remove, reach_get_all_by_uuid, store_a_reachable.
  - intros k l Hk.
    assert (Hm : by_uuid (store (world_a 100)) = {["a" := 1%positive]})
      by (by vm_compute).
    rewrite Hm in Hk. apply lookup_singleton_Some in Hk as [<- <-].
    exists device_a. split; reflexivity.
Defined.

(** ** The expiry poller *)

Lemma check_and_fire_store p w :
  store_inv (store w) →
  heap (store (task.check_and_fire p w).2) = heap (store w) ∧
  by_uuid (store (task.check_and_fire p w).2) = by_uuid (store w) ∧
  uow (task.check_and_fire p w).2 = uow w ∧
  clock (task.check_and_fire p w).2 = clock w ∧
  store_inv (store (task.check_and_fire p w).2) ∧
  index_complete (store (task.check_and_fire p w).2).
Proof.
  intros Hinv. unfold task.check_and_fire. cbn [add_log store uow log clock].
  destruct (enter_spec UnitOfWork.__init__ (store w)) as [_ Hs].
  pose proof (enter_backup UnitOfWork.__init__ (store w)) as Hu0.
  destruct (UnitOfWork.__enter__ UnitOfWork.__init__ (store w)) as [u s1].
  simpl in Hs, Hu0. subst u.
  pose proof (store_inv_same _ _ Hs Hinv) as Hinv1.
  destruct Hs as (Hh1&Hu1&Hf1).
  destruct (get_fire_at_between_spec (_last_poll p + 1) (clock w) s1)
    as [_ (Hh2&Hu2&_)].
  rewrite _get_fire_at_between_eq in Hh2, Hu2. simpl in Hh2, Hu2.
  pose proof (get_fire_at_between_inv (_last_poll p + 1) (clock w) s1 Hinv1)
    as Hinv2.
  destruct (Repository.get_fire_at_between (_last_poll p + 1) (clock w) s1)
    as [devices s2].
  simpl in *.
  destruct (scope_exit_spec (mkUoW true (by_uuid (store w))) s2 Hinv2)
    as (Hh3&Hu3&Hinv3&Hc3); [simpl; congruence|].
  split_and!; try done; congruence.
Qed.

Lemma polled_complete p w l d :
  store_inv (store w) → index_complete (store w) →
  heap (store w) !! l = Some d → (∃ k, by_uuid (store w) !! k = Some l) →
  l ∈ task.polled p w ↔ _last_poll p + 1 ≤ fire_at d ≤ clock w.
Proof.
  intros Hinv Hc Hd Hk. unfold task.polled.
  destruct (enter_spec UnitOfWork.__init__ (store w)) as [_ Hs].
  destruct (UnitOfWork.__enter__ UnitOfWork.__init__ (store w)) as [u s1].
  simpl in Hs.
  pose proof (store_inv_same _ _ Hs Hinv) as Hinv1.
  pose proof (index_complete_same _ _ Hs Hc) as Hc1.
  destruct Hs as (Hh1&Hu1&Hf1).
  apply get_fire_at_between_complete; try done.
  - by rewrite Hh1.
  - by rewrite Hu1.
Qed.

(** X17.  A tick of the poller claims nothing for good: it leaves
    every object and the identity index as they were, and the exit of its
    scope re-lists what the range query consumed, so the time index is
    complete afterwards and a tick over the same window would fire the
    same devices again. *)
Theorem tick_relists_what_it_fired (p : FirePoller) (w : World) :
  store_inv (store w) →
  let w' := (task.check_and_fire p w).2 in
  heap (store w') = heap (store w) ∧
  by_uuid (store w') = by_uuid (store w) ∧
  uow w' = uow w ∧ clock w' = clock w ∧
  store_inv (store w') ∧ index_complete (store w') ∧
  ∀ l, l ∈ task.polled p w → l ∈ task.polled p w'.
Proof.
  intros Hinv w'.
  destruct (check_and_fire_store p w Hinv) as (Hh&Hu&Huow&Hclk&Hinv'&Hc').
  split_and!; try done.
  intros l (k&d&Hk&Hd&Hwin)%polled_window; [|done].
  apply (polled_complete p w' l d); try done.
  - subst w'. by rewrite Hh.
  - exists k. subst w'. by rewrite Hu.
  - subst w'. by rewrite Hclk.
Qed.

Lemma tick_relists_what_it_fired_witness :
  let p := mkFirePoller 100 10 in
  1%positive ∈ task.polled p (world_a 110) ∧
  1%positive ∈ task.polled p (task.check_and_fire p (world_a 110)).2.
Proof.
  intros p.
  assert (Hin : 1%positive ∈ task.polled p (world_a 110)).
  { vm_compute. set_solver. }
  split; [exact Hin|].
  apply (tick_relists_what_it_fired p (world_a 110)
           (reachable_store_inv _ store_a_reachable)).
  exact Hin.
Defined.

Lemma last_cons_default {A} (x : A) (l : list A) :
  last (x :: l) = Some (default x (last l)).
Proof.
  revert x. induction l as [|y l IH]; intros x; [done|].
  change (last (x :: y :: l)) with (last (y :: l)). rewrite IH.
  by destruct l.
Qed.

(** X18.  Ticks at non-decreasing clock readings, with no other
    activity in between, on a store whose index is complete: a stored
    device is fired by exactly one tick when its [fire_at] is later than
    the poller's start and not later than the last reading, and by no
    tick otherwise. *)
Theorem each_expiry_fires_in_one_tick
    (p : FirePoller) (w : World) (clocks : list Z)
    (k : string) (l : loc) (d : Device) :
  store_inv (store w) → index_complete (store w) →
  StronglySorted Z.le clocks → Forall (λ t, _last_poll p ≤ t) clocks →
  by_uuid (store w) !! k = Some l → heap (store w) !! l = Some d →
  length (filter (λ fired, l ∈ fired) (poll_at p w clocks)) =
  if decide (_last_poll p < fire_at d ≤ default (_last_poll p) (last clocks))
  then 1%nat else 0%nat.
Proof.
  revert p w. induction clocks as [|t clocks IH]; intros p w Hinv Hc Hsort Hge Hk Hd.
  - simpl. rewrite decide_False; [done|lia].
  - apply StronglySorted_inv in Hsort as [Hsort Hle].
    apply Forall_cons in Hge as [Hpt Hge].
    cbn [poll_at].
    assert (Hinv0 : store_inv (store (at_clock t w))) by done.
    destruct (check_and_fire_store p (at_clock t w) Hinv0)
      as (Hh'&Hu'&_&_&Hinv'&Hc').
    cbn [at_clock store] in Hh', Hu'.
    specialize (IH (task.check_and_fire p (at_clock t w)).1
                   (task.check_and_fire p (at_clock t w)).2 Hinv' Hc' Hsort).
    rewrite check_and_fire_last_poll in IH. cbn [at_clock clock] in IH.
    assert (IH' := IH Hle ltac:(by rewrite Hu') ltac:(by rewrite Hh')).
    clear IH. rewrite last_cons_default.
    change (default (_last_poll p) (Some (default t (last clocks))))
      with (default t (last clocks)).
    assert (Hlast : t ≤ default t (last clocks)).
    { destruct (last clocks) as [t'|] eqn:Hl'; simpl; [|lia].
      rewrite Forall_forall in Hle. apply Hle.
      apply last_Some in Hl' as [? ->]. set_solver. }
    pose proof (polled_complete p (at_clock t w) l d Hinv0 Hc Hd
                  (ex_intro _ k Hk)) as Hiff.
    cbn [at_clock clock] in Hiff.
    destruct (decide (l ∈ task.polled p (at_clock t w))) as [Hin|Hnin].
    + rewrite filter_cons_True by done. cbn [length]. rewrite IH'.
      apply Hiff in Hin.
      destruct (decide (t < fire_at d ≤ default t (last clocks))); [lia|].
      destruct (decide (_last_poll p < fire_at d ≤ default t (last clocks)));
        [done|lia].
    + rewrite filter_cons_False by done. rewrite IH'.
      rewrite Hiff in Hnin.
      destruct (decide (t < fire_at d ≤ default t (last clocks)));
        destruct (decide (_last_poll p < fire_at d ≤ default t (last clocks)));
        try done; lia.
Qed.

Lemma each_expiry_fires_in_one_tick_witness :
  length (filter (λ fired, 1%positive ∈ fired)
            (poll_at (task.__init__ 100) (world_a 100) [103; 110; 110; 120]))
  = 1%nat.
Proof.
  refine (each_expiry_fires_in_one_tick (task.__init__ 100) (world_a 100)
            [103; 110; 110; 120] "a" 1%positive device_a
            (reachable_store_inv _ store_a_reachable) _ _ _ eq_refl eq_refl).
  - apply (add_complete _ _ device_a); [reflexivity|].
    intros k d Hd. by vm_compute in Hd.
  - repeat (constructor; [|repeat (constructor; [lia|])]); constructor.
  - repeat (constructor; [simpl; lia|]). constructor.
Defined.

(** ** The wired message bus *)

Lemma extend_Ok q w q' w' :
  messagebus.extend_with_new_events q w = (Ok q', w') →
  ∃ evs s',
    UnitOfWork.collect_new_events (uow w) (store w) = (Ok evs, s') ∧
    q' = q ++ (MsgEvent <$> evs) ∧ w' = set_store s' w.
Proof.
  unfold messagebus.extend_with_new_events.
  destruct (UnitOfWork.collect_new_events (uow w) (store w)) as [[evs|e] s];
    [|done].
  intros [= <- <-]. eauto.
Qed.

Lemma _handle_command_Ok (chs : list (CommandType * (Command → M unit)))
    c q w q' w' :
  messagebus._handle_command chs c q w = (Ok q', w') →
  ∃ handler w1,
    dict_getitem (type_of_command c) chs = Ok handler ∧
    handler c (add_log (LogHandlingCommand c) w) = (Ok tt, w1) ∧
    messagebus.extend_with_new_events q w1 = (Ok q', w').
Proof.
  unfold messagebus._handle_command. rewrite bind_unfold. unfold lift at 1.
  destruct (dict_getitem (type_of_command c) chs) as [handler|e]; [|done].
  rewrite bind_unfold.
  destruct (handler c (add_log (LogHandlingCommand c) w)) as [[[]|e] w1] eqn:Hh;
    [|done].
  destruct (messagebus.extend_with_new_events q w1) as [[q1|e] w2] eqn:Hx;
    [|done].
  intros [= <- <-]. exists handler, w1. by rewrite Hh.
Qed.

(** One handler that only writes a log record, as all three wired
    event handlers are. *)
Lemma try_logging_handler ev q name (call : Event → M unit) r w :
  (∀ w0, call ev w0 = (Ok tt, add_log r w0)) →
  (_devices (uow w) = true → drained (store w)) →
  ∃ w1,
    messagebus.try_event_handler ev q (mkEventHandler name call) w = (Ok q, w1) ∧
    store w1 = store w ∧ uow w1 = uow w ∧
    log w1 = log w ++ [LogHandlingEvent ev name; r]
               ++ (if _devices (uow w) then []
                   else [LogEventException ev RuntimeError]).
Proof.
  intros Hcall Hdr. unfold messagebus.try_event_handler.
  rewrite bind_unfold. cbn [logger handler_name handler_call].
  rewrite bind_unfold, Hcall.
  unfold messagebus.extend_with_new_events.
  cbn [add_log store uow log clock].
  destruct (_devices (uow w)) eqn:Hb.
  - rewrite (collect_of_drained _ _ Hb (Hdr eq_refl)).
    eexists. split; [by rewrite app_nil_r|].
    cbn [set_store store uow log]. split; [done|]. split; [done|].
    simpl. by rewrite <- ?app_assoc, ?app_nil_r.
  - unfold UnitOfWork.collect_new_events. rewrite Hb.
    eexists. split; [done|].
    cbn [set_store add_log store uow log]. split; [done|]. split; [done|].
    simpl. by rewrite <- ?app_assoc, ?app_nil_r.
Qed.

Lemma wired_event_handlers ev :
  dict_getitem (type_of_event ev) bootstrap.EVENT_HANDLERS =
  match ev with
  | RegisterDeviceEvent _ _ _ _ _ =>
      Ok [mkEventHandler "register_device_event"
            event_handlers.register_device_event]
  | RemoveDeviceEvent _ =>
      Ok [mkEventHandler "remove_device_event"
            event_handlers.remove_device_event]
  | KeepAliveDeviceEvent _ _ =>
      Ok [mkEventHandler "keep_alive_device_event"
            event_handlers.keep_alive_device_event]
  | OtherEvent _ => Raise KeyError
  end.
Proof. by destruct ev. Qed.

Lemma wired_event_step ev q w :
  drained (store w) →
  (∃ w1, messagebus._handle_event bootstrap.EVENT_HANDLERS ev q w = (Ok q, w1) ∧
         store w1 = store w ∧ uow w1 = uow w) ∨
  (∃ w1, messagebus._handle_event bootstrap.EVENT_HANDLERS ev q w
         = (Raise KeyError, w1)).
Proof.
  intros Hdr. unfold messagebus._handle_event.
  rewrite bind_unfold, wired_event_handlers.
  destruct ev as [u n lw tl fa|u|u fa|cls]; cbn [lift];
    [| | |right; eauto]; left; cbn [for_each]; rewrite bind_unfold.
  - destruct (try_logging_handler
                (RegisterDeviceEvent u n lw tl fa) q
                "register_device_event" event_handlers.register_device_event
                (LogEventHandled "register_device"
                   (RegisterDeviceEvent u n lw tl fa)) w)
      as (w1&Hrun&Hs&Hu&_); [done|done|].
    rewrite Hrun. eauto.
  - destruct (try_logging_handler (RemoveDeviceEvent u) q
                "remove_device_event" event_handlers.remove_device_event
                (LogEventHandled "remove_device" (RemoveDeviceEvent u)) w)
      as (w1&Hrun&Hs&Hu&_); [done|done|].
    rewrite Hrun. eauto.
  - destruct (try_logging_handler (KeepAliveDeviceEvent u fa) q
                "keep_alive_device_event"
                event_handlers.keep_alive_device_event
                (LogEventHandled "keep_alive_device"
                   (KeepAliveDeviceEvent u fa)) w)
      as (w1&Hrun&Hs&Hu&_); [done|done|].
    rewrite Hrun. eauto.
Qed.

Lemma drain_events_terminates q w :
  Forall is_event q → drained (store w) →
  ∃ r w', messagebus.drain_queue bootstrap.EVENT_HANDLERS
            bootstrap.COMMAND_HANDLERS (length q) q w = Some (r, w').
Proof.
  revert w. induction q as [|m q IH]; intros w Hq Hdr; [simpl; eauto|].
  apply Forall_cons in Hq as [Hm Hq]. destruct m as [ev| |]; try done.
  cbn [length messagebus.drain_queue messagebus.process].
  destruct (wired_event_step ev q w Hdr) as [(w1&Hrun&Hs&_)|(w1&Hrun)];
    rewrite Hrun; [|eauto].
  apply IH; [done|by rewrite Hs].
Qed.

Lemma extend_drained q w q' w' :
  Forall is_event q →
  messagebus.extend_with_new_events q w = (Ok q', w') →
  Forall is_event q' ∧ drained (store w').
Proof.
  intros Hq Hx. split; [by eapply extend_only_events|].
  apply extend_Ok in Hx as (evs&s'&Hc&_&->).
  cbn [set_store store]. by eapply collect_drained.
Qed.

Lemma try_event_handler_step ev q h w :
  Forall is_event q →
  ∃ q' w1,
    messagebus.try_event_handler ev q h w = (Ok q', w1) ∧
    Forall is_event q' ∧ (drained (store w1) ∨ q' = q).
Proof.
  intros Hq. unfold messagebus.try_event_handler.
  destruct ((logger (LogHandlingEvent ev (handler_name h));;
             handler_call h ev;; messagebus.extend_with_new_events q) w)
    as [[q1|e] w1] eqn:Hrun; [|eauto 6].
  exists q1, w1. split; [done|].
  revert Hrun. rewrite bind_unfold. cbn [logger]. rewrite bind_unfold.
  destruct (handler_call h ev _) as [[[]|e] w2]; [|done].
  intros [? ?]%extend_drained; auto.
Qed.

(** X19.  The wired bus always returns: for every message and every
    world, the loop of [handle] empties its queue or raises after
    finitely many iterations. *)
Theorem wired_bus_always_returns (m : Message) (w : World) :
  ∃ fuel r w', bootstrap.handle fuel m w = Some (r, w').
Proof.
  unfold bootstrap.handle, messagebus.handle. destruct m as [ev|c|repr].
  - assert (Hstep :
      (∃ q' w1, messagebus._handle_event bootstrap.EVENT_HANDLERS ev [] w
                = (Ok q', w1) ∧
                Forall is_event q' ∧ (drained (store w1) ∨ q' = [])) ∨
      (∃ w1, messagebus._handle_event bootstrap.EVENT_HANDLERS ev [] w
             = (Raise KeyError, w1))).
    { unfold messagebus._handle_event.
      rewrite bind_unfold, wired_event_handlers.
      destruct ev as [u n lw tl fa|u|u fa|cls]; cbn [lift];
        [| | |right; eauto]; left;
        cbn [for_each]; rewrite bind_unfold;
        match goal with
        | |- context [messagebus.try_event_handler ?e ?q ?h ?w] =>
            destruct (try_event_handler_step e q h w) as (q'&w1&->&?&?);
              [constructor|]
        end; eauto. }
    destruct Hstep as [(q'&w1&Hrun&Hq&[Hdr| ->])|(w1&Hrun)].
    + destruct (drain_events_terminates q' w1 Hq Hdr) as (r&w'&Hd).
      exists (S (length q')), r, w'.
      cbn [messagebus.drain_queue messagebus.process]. by rewrite Hrun.
    + exists 1%nat, (Ok tt), w1.
      cbn [messagebus.drain_queue messagebus.process]. by rewrite Hrun.
    + exists 1%nat, (Raise KeyError), w1.
      cbn [messagebus.drain_queue messagebus.process]. by rewrite Hrun.
  - destruct (messagebus._handle_command bootstrap.COMMAND_HANDLERS c [] w)
      as [[q'|e] w1] eqn:Hrun.
    + destruct (_handle_command_Ok _ _ _ _ _ _ Hrun) as (handler&w0&_&_&Hx).
      apply extend_drained in Hx as [Hq Hdr]; [|constructor].
      destruct (drain_events_terminates q' w1 Hq Hdr) as (r&w'&Hd).
      exists (S (length q')), r, w'.
      cbn [messagebus.drain_queue messagebus.process]. by rewrite Hrun.
    + exists 1%nat, (Raise e), w1.
      cbn [messagebus.drain_queue messagebus.process]. by rewrite Hrun.
  - exists 1%nat, (Raise InvalidMessageTypeError), w. reflexivity.
Qed.

(** ** A keep-alive command through the wired bus *)

Lemma seen_add_agrees k l l' s :
  (∀ d', heap s !! l' = Some d' → uuid d' = k → l' = l) →
  seen_agrees k l s → seen_agrees k l (Repository.seen_add l' s).
Proof.
  intros Hl' Hs l0. unfold Repository.seen_add.
  destruct (heap s !! l') as [d'|] eqn:Hd'; [|apply Hs].
  destruct (seen s !! uuid d') eqn:Hsd; [apply Hs|]. simpl.
  destruct (decide (uuid d' = k)) as [Hk|Hk].
  - rewrite Hk, lookup_insert_eq. intros [= <-]. by apply (Hl' d').
  - rewrite lookup_insert_ne by done. apply Hs.
Qed.

Lemma seen_add_heap l s : heap (Repository.seen_add l s) = heap s.
Proof. by destruct (seen_add_same l s) as (?&_). Qed.

Lemma seen_update_agrees k l ls s :
  (∀ l' d', l' ∈ ls → heap s !! l' = Some d' → uuid d' = k → l' = l) →
  seen_agrees k l s → seen_agrees k l (Repository.seen_update ls s).
Proof.
  unfold Repository.seen_update. revert s.
  induction ls as [|l' ls IH]; intros s Hls Hs; [done|].
  cbn [foldl]. apply IH.
  - intros l'' d'' Hin. rewrite seen_add_heap. apply Hls.
    apply elem_of_cons. by right.
  - apply seen_add_agrees; [|done]. intros d'. apply Hls.
    apply elem_of_cons. by left.
Qed.

Lemma seen_add_marks k l d s :
  heap s !! l = Some d → uuid d = k → seen_agrees k l s →
  seen (Repository.seen_add l s) !! k = Some l.
Proof.
  intros Hd Hk Hs. unfold Repository.seen_add. rewrite Hd, Hk.
  destruct (seen s !! k) as [l0|] eqn:Hsk.
  - by rewrite Hsk, (Hs l0 Hsk).
  - simpl. by rewrite lookup_insert_eq.
Qed.

Lemma get_marks_seen s k l d :
  store_inv s → by_uuid s !! k = Some l → heap s !! l = Some d →
  seen_agrees k l s →
  seen (Repository.get k (Repository.get_all_by_uuid s).2).2 !! k = Some l.
Proof.
  intros Hinv Hl Hd Hagree.
  assert (Hud : uuid d = k).
  { destruct Hinv as (Hk&_&_). destruct (Hk _ _ Hl) as (d'&?&?). congruence. }
  destruct (get_all_by_uuid_spec s) as [_ (Hha&Hua&_)].
  unfold Repository.get at 1, Repository._get. rewrite Hua, Hl. cbn [snd].
  apply (seen_add_marks k l d); [by rewrite Hha|done|].
  unfold Repository.get_all_by_uuid. cbn [snd].
  apply seen_update_agrees; [|done].
  intros l' d' Hin Hd' Hk'.
  apply list_elem_of_fmap in Hin as ([k' l'']&->&Hin).
  apply elem_of_map_to_list in Hin. simpl in *.
  unfold Repository._get_all_by_uuid in Hin.
  destruct Hinv as (Hkc&_&_). destruct (Hkc _ _ Hin) as (d''&Hd''&Hk'').
  assert (k' = k) as -> by congruence. congruence.
Qed.

Lemma keep_alive_device_unfold w k l d :
  by_uuid (store w) !! k = Some l → heap (store w) !! l = Some d → uuid d = k →
  command_handlers.keep_alive_device (KeepAliveDeviceCommand k) w =
  (Ok tt,
   mkWorld
     (UnitOfWork.rollback (mkUoW true (by_uuid (store w)))
        (let s3 := Repository.update k (only_fire_at (clock w + utcoffset w + ttl d))
                     (Repository.get k
                        (Repository.get_all_by_uuid (store w)).2).2 in
         set_heap (alter generate_event_keep_alive_device l (heap s3)) s3))
     (mkUoW true (by_uuid (store w))) (log w) (clock w) (utcoffset w)).
Proof.
  intros Hl Hd Hud.
  unfold command_handlers.keep_alive_device. rewrite with_uow_unfold.
  rewrite enter_backup.
  assert (Hs1 : (UnitOfWork.__enter__ (uow w) (store w)).2
                = (Repository.get_all_by_uuid (store w)).2).
  { unfold UnitOfWork.__enter__.
    by destruct (Repository.get_all_by_uuid (store w)). }
  rewrite Hs1.
  destruct (get_all_by_uuid_spec (store w)) as [_ Hs].
  set (s1 := (Repository.get_all_by_uuid (store w)).2) in *.
  rewrite bind_unfold, on_store_get. cbn [store set_store set_uow command_uuid].
  destruct (get_spec k s1) as [_ Hs2].
  set (s2 := (Repository.get k s1).2) in *.
  pose proof (same_indexes_trans _ _ _ Hs Hs2) as (Hh2&Hu2&Hf2).
  destruct Hs as (Hh1&Hu1&Hf1).
  rewrite Hu1, Hl.
  rewrite bind_unfold. cbn [datetime_now].
  rewrite bind_unfold.
  cbn [py_timestamp get_utc_tz_aware_datetime timestamp utcoffset set_store
       set_uow clock].
  rewrite Z.sub_0_r.
  assert (Hd2 : heap s2 !! l = Some d) by (by rewrite Hh2).
  rewrite bind_unfold, (deref_Some _ l d) by done.
  rewrite Hud.
  cbv [mbind M_bind on_store_ call_method uow_commit UnitOfWork.commit
       UnitOfWork._commit UnitOfWork.__exit__].
  cbn [set_store set_uow store uow log clock utcoffset fst snd].
  reflexivity.
Qed.

Lemma set_events_same d : events d = [] → set_events [] d = d.
Proof. destruct d. simpl. by intros ->. Qed.

Lemma fold_drain_single ls acc s l d :
  heap s !! l = Some d →
  (∀ l' d', l' ≠ l → heap s !! l' = Some d' → events d' = []) →
  (foldl UnitOfWork.drain (acc, s) ls).1 =
  acc ++ (if decide (l ∈ ls) then events d else []).
Proof.
  revert acc s d. induction ls as [|l0 ls IH]; intros acc s d Hd Hothers.
  - simpl. by rewrite app_nil_r.
  - cbn [foldl]. destruct (drain_spec acc s l0) as (_&_&_&Hh&Hacc).
    destruct (UnitOfWork.drain (acc, s) l0) as [acc1 s1]. simpl in Hh, Hacc.
    destruct (decide (l0 = l)) as [->|Hne].
    + rewrite (IH acc1 s1 (set_events [] d)).
      * rewrite Hacc, Hd. simpl.
        rewrite (decide_True (P := l ∈ l :: ls)) by (apply elem_of_cons; by left).
        by destruct (decide (l ∈ ls)); rewrite app_nil_r.
      * by rewrite Hh, decide_True, Hd.
      * intros l' d' Hl'. rewrite Hh, decide_False by done. by apply Hothers.
    + rewrite (IH acc1 s1 d).
      * rewrite Hacc.
        assert (default [] (events <$> heap s !! l0) = []) as ->.
        { destruct (heap s !! l0) as [d0|] eqn:Hd0; [|done]. simpl.
          by apply (Hothers l0). }
        rewrite app_nil_r.
        destruct (decide (l ∈ ls)) as [Hin|Hnin].
        -- by rewrite decide_True by (apply elem_of_cons; by right).
        -- rewrite decide_False; [done|]. rewrite elem_of_cons.
           intros [?|?]; congruence.
      * by rewrite Hh, decide_False.
      * intros l' d' Hl'. rewrite Hh.
        destruct (decide (l' = l0)) as [->|Hne']; [|by apply Hothers].
        destruct (heap s !! l0); [|done]. by intros [= <-].
Qed.

Lemma collect_single u s k l d :
  _devices u = true → seen s !! k = Some l → heap s !! l = Some d →
  (∀ l' d', l' ≠ l → heap s !! l' = Some d' → events d' = []) →
  ∃ s',
    UnitOfWork.collect_new_events u s = (Ok (events d), s') ∧
    heap s' = <[l := set_events [] d]> (heap s) ∧
    by_uuid s' = by_uuid s ∧ drained s'.
Proof.
  intros Hb Hk Hd Hothers.
  destruct (collect_spec u s Hb) as (evs&s'&Hrun&_&Hu&_&_&Hh&Hh0).
  pose proof (collect_drained _ _ _ _ Hrun) as Hdr.
  assert (evs = events d) as ->.
  { pose proof (fold_drain_single (map_to_list (seen s)).*2 [] s l d Hd Hothers)
      as Hfold.
    revert Hrun Hfold. unfold UnitOfWork.collect_new_events. rewrite Hb.
    destruct (foldl UnitOfWork.drain ([], s) (map_to_list (seen s)).*2)
      as [E s0].
    intros [= <- _]. simpl. intros ->.
    rewrite decide_True; [done|]. apply elem_of_seen_values. eauto. }
  exists s'. split; [done|]. split; [|done].
  apply map_eq. intros l'.
  destruct (decide (l' = l)) as [->|Hne].
  - rewrite lookup_insert_eq, Hh by eauto. by rewrite Hd.
  - rewrite lookup_insert_ne by done.
    destruct (decide (l' ∈ (map_to_list (seen s)).*2)) as [Hin|Hnin].
    + apply elem_of_seen_values in Hin. rewrite Hh by done.
      destruct (heap s !! l') as [d'|] eqn:Hd'; [|done]. simpl.
      by rewrite set_events_same by (by apply (Hothers l')).
    + apply Hh0. intros k' Hk'. apply Hnin, elem_of_seen_values. eauto.
Qed.

(** A command whose handler leaves exactly one pending event, on an
    object marked seen: the event is harvested and its handler, which
    only logs, runs once. *)
Lemma command_cascade c handler ev name call r w w1 k l d1 :
  dict_getitem (type_of_command c) bootstrap.COMMAND_HANDLERS = Ok handler →
  handler c (add_log (LogHandlingCommand c) w) = (Ok tt, w1) →
  _devices (uow w1) = true → log w1 = log w ++ [LogHandlingCommand c] →
  seen (store w1) !! k = Some l → heap (store w1) !! l = Some d1 →
  events d1 = [ev] →
  (∀ l' d', l' ≠ l → heap (store w1) !! l' = Some d' → events d' = []) →
  dict_getitem (type_of_event ev) bootstrap.EVENT_HANDLERS
    = Ok [mkEventHandler name call] →
  (∀ w0, call ev w0 = (Ok tt, add_log r w0)) →
  ∃ w',
    bootstrap.handle 2 (MsgCommand c) w = Some (Ok tt, w') ∧
    log w' = log w ++ [LogHandlingCommand c; LogHandlingEvent ev name; r] ∧
    by_uuid (store w') = by_uuid (store w1) ∧
    heap (store w') = <[l := set_events [] d1]> (heap (store w1)).
Proof.
  intros Hch Hrun1 Hb Hlog Hseen Hd1 Hev1 Hothers Heh Hcall.
  destruct (collect_single (uow w1) (store w1) k l d1 Hb Hseen Hd1 Hothers)
    as (s2&Hc&Hh2&Hu2&Hdr2).
  rewrite Hev1 in Hc.
  destruct (try_logging_handler ev [] name call r (set_store s2 w1) Hcall)
    as (w3&Hrun3&Hs3&_&Hlog3); [done|].
  exists w3. split.
  - unfold bootstrap.handle, messagebus.handle.
    cbn [messagebus.drain_queue messagebus.process].
    unfold messagebus._handle_command.
    rewrite (bind_unfold
               (lift (dict_getitem (type_of_command c)
                        bootstrap.COMMAND_HANDLERS))), Hch.
    cbn [lift]. rewrite (bind_unfold (handler c)), Hrun1.
    unfold messagebus.extend_with_new_events at 1. rewrite Hc.
    cbn [fmap list_fmap app messagebus.process].
    unfold messagebus._handle_event.
    rewrite (bind_unfold
               (lift (dict_getitem (type_of_event ev)
                        bootstrap.EVENT_HANDLERS))), Heh.
    cbn [lift for_each].
    rewrite (bind_unfold (messagebus.try_event_handler _ _ _)).
    by rewrite Hrun3.
  - rewrite Hlog3, Hs3. cbn [set_store store uow log]. rewrite Hb, Hlog.
    by rewrite app_nil_r, <- app_assoc.
Qed.

(** X20.  A keep-alive command for a stored device, with no event
    pending and the device not marked seen under another object: [handle]
    returns normally after two iterations; the log gains the record of the
    command, of the dispatch of the one keep-alive event and of its
    handler; the identity index is unchanged, no event is left pending,
    and the device and the event carry the new [fire_at]: the handler's
    reading of the local wall clock taken as UTC, that is the system
    clock plus the offset of the host's zone, plus the ttl. *)
Theorem keep_alive_through_the_bus
    (w : World) (k : string) (l : loc) (d : Device) :
  store_inv (store w) → no_pending (store w) →
  by_uuid (store w) !! k = Some l → heap (store w) !! l = Some d →
  (∀ l0, seen (store w) !! k = Some l0 → l0 = l) →
  let c := KeepAliveDeviceCommand k in
  let ev := KeepAliveDeviceEvent k (clock w + utcoffset w + ttl d) in
  ∃ w',
    bootstrap.handle 2 (MsgCommand c) w = Some (Ok tt, w') ∧
    log w' = log w ++ [LogHandlingCommand c;
                       LogHandlingEvent ev "keep_alive_device_event";
                       LogEventHandled "keep_alive_device" ev] ∧
    by_uuid (store w') = by_uuid (store w) ∧
    heap (store w') =
      <[l := setattrs (only_fire_at (clock w + utcoffset w + ttl d)) d]> (heap (store w)) ∧
    no_pending (store w').
Proof.
  intros Hinv Hnp Hl Hd Hagree c ev.
  assert (Hud : uuid d = k).
  { destruct Hinv as (Hk&_&_). destruct (Hk _ _ Hl) as (d'&?&?). congruence. }
  set (w0 := add_log (LogHandlingCommand c) w).
  destruct (keep_alive_device_spec w0 k l d Hinv Hl Hd)
    as (w1&Hrun1&Hu1&Hh1&_&_).
  pose proof (keep_alive_device_unfold w0 k l d Hl Hd Hud) as Hrun1'.
  rewrite Hrun1 in Hrun1'. injection Hrun1' as Hw1.
  cbn [clock utcoffset store log add_log w0] in Hh1, Hu1.
  set (d1 := generate_event_keep_alive_device
               (setattrs (only_fire_at (clock w + utcoffset w + ttl d)) d)) in *.
  assert (Hs2 : seen (Repository.get k
                        (Repository.get_all_by_uuid (store w)).2).2 !! k
                = Some l) by (by apply (get_marks_seen _ k l d)).
  assert (Hseen : seen (store w1) !! k = Some l).
  { rewrite Hw1. cbn [store]. apply rollback_keeps.
    refine (update_keeps k _ _ k l _). exact Hs2. }
  assert (Hev1 : events d1 = [ev]).
  { unfold d1, generate_event_keep_alive_device. cbn [events set_events setattrs].
    rewrite (Hnp _ _ Hd). subst ev. by rewrite <- Hud. }
  destruct (command_cascade c command_handlers.keep_alive_device ev
              "keep_alive_device_event" event_handlers.keep_alive_device_event
              (LogEventHandled "keep_alive_device" ev) w w1 k l d1)
    as (w'&Hrun&Hlog&Hu'&Hh'); try done.
  { by rewrite Hw1. }
  { by rewrite Hw1. }
  { by rewrite Hh1, lookup_insert_eq. }
  { intros l' d' Hne. rewrite Hh1, lookup_insert_ne by done. apply Hnp. }
  assert (Hd1 : set_events [] d1 = setattrs (only_fire_at (clock w + utcoffset w + ttl d)) d).
  { pose proof (Hnp _ _ Hd) as He. unfold d1. clear -He.
    destruct d. simpl in *. by subst. }
  exists w'. split; [done|]. split; [done|]. split; [congruence|].
  rewrite Hh', Hh1, insert_insert_eq, Hd1. split; [done|].
  intros l' d' Hd'. rewrite Hh', Hh1, insert_insert_eq, Hd1 in Hd'.
  destruct (decide (l' = l)) as [->|Hne].
  - rewrite lookup_insert_eq in Hd'. injection Hd' as <-.
    cbn [events setattrs]. by apply (Hnp l).
  - rewrite lookup_insert_ne in Hd' by done. by apply (Hnp l').
Qed.

Lemma keep_alive_through_the_bus_witness :
  ∃ w',
    bootstrap.handle 2 (MsgCommand (KeepAliveDeviceCommand "a"))
      (world_in_zone 105 3600) = Some (Ok tt, w') ∧
    log w' = [LogHandlingCommand (KeepAliveDeviceCommand "a");
              LogHandlingEvent (KeepAliveDeviceEvent "a" 3715)
                "keep_alive_device_event";
              LogEventHandled "keep_alive_device"
                (KeepAliveDeviceEvent "a" 3715)] ∧
    fire_at <$> (heap (store w') !! 1%positive) = Some 3715.
Proof.
  destruct (keep_alive_through_the_bus (world_in_zone 105 3600) "a" 1%positive
              device_a (reachable_store_inv _ store_a_reachable))
    as (w'&Hrun&Hlog&_&Hh&_).
  - intros l d Hd.
    assert (Hm : heap (store (world_in_zone 105 3600))
                 = {[1%positive := device_a]}) by (by vm_compute).
    rewrite Hm in Hd. by apply lookup_singleton_Some in Hd as [_ <-].
  - reflexivity.
  - reflexivity.
  - intros l0 Hl0. vm_compute in Hl0. congruence.
  - exists w'. split; [exact Hrun|]. split; [exact Hlog|].
    by rewrite Hh, lookup_insert_eq.
Defined.

(** ** An event handled before any scope was entered *)

(** X21.  An event with a registered type, handled by a bus whose unit
    of work has never been entered: its handler runs, the harvest of new
    events raises [RuntimeError] inside the [try], the exception is logged
    and swallowed, and [handle] returns normally with the store
    untouched. *)
Theorem event_before_any_scope_logs_an_exception (ev : Event) (w : World) :
  _devices (uow w) = false → (∀ cls, ev ≠ OtherEvent cls) →
  ∃ name r w',
    bootstrap.handle 1 (MsgEvent ev) w = Some (Ok tt, w') ∧
    store w' = store w ∧
    log w' = log w ++ [LogHandlingEvent ev name; r;
                       LogEventException ev RuntimeError].
Proof.
  intros Hb Hev.
  assert (Hstep : ∃ name call r,
    dict_getitem (type_of_event ev) bootstrap.EVENT_HANDLERS
      = Ok [mkEventHandler name call] ∧
    ∀ w0, call ev w0 = (Ok tt, add_log r w0)).
  { rewrite wired_event_handlers.
    destruct ev as [u n lw tl fa|u|u fa|cls]; [..|by destruct (Hev cls)];
      eauto 6. }
  destruct Hstep as (name&call&r&Heh&Hcall).
  destruct (try_logging_handler ev [] name call r w Hcall)
    as (w1&Hrun&Hs&_&Hlog); [by rewrite Hb|].
  rewrite Hb in Hlog. exists name, r, w1. split; [|split; [done|exact Hlog]].
  unfold bootstrap.handle, messagebus.handle.
  cbn [messagebus.drain_queue messagebus.process].
  unfold messagebus._handle_event.
  rewrite (bind_unfold
             (lift (dict_getitem (type_of_event ev)
                      bootstrap.EVENT_HANDLERS))), Heh.
  cbn [lift for_each].
  rewrite (bind_unfold (messagebus.try_event_handler _ _ _)).
  by rewrite Hrun.
Qed.

Lemma event_before_any_scope_logs_an_exception_witness :
  ∃ name r w',
    bootstrap.handle 1 (MsgEvent (RemoveDeviceEvent "a")) (init_world 0 0)
      = Some (Ok tt, w') ∧
    log w' = [LogHandlingEvent (RemoveDeviceEvent "a") name; r;
              LogEventException (RemoveDeviceEvent "a") RuntimeError].
Proof.
  destruct (event_before_any_scope_logs_an_exception
              (RemoveDeviceEvent "a") (init_world 0 0) eq_refl)
    as (name&r&w'&Hrun&_&Hlog); [done|].
  exists name, r, w'. split; [exact Hrun|exact Hlog].
Defined.

(** ** [remove_all] *)

Lemma seen_add_is_Some l d s :
  heap s !! l = Some d → is_Some (seen (Repository.seen_add l s) !! uuid d).
Proof.
  intros Hd. unfold Repository.seen_add. rewrite Hd.
  destruct (seen s !! uuid d) eqn:Hs; [by rewrite Hs|].
  simpl. by rewrite lookup_insert_eq.
Qed.

Lemma seen_update_marks ls s l d k :
  l ∈ ls → heap s !! l = Some d → uuid d = k →
  is_Some (seen (Repository.seen_update ls s) !! k).
Proof.
  intros Hin Hd <-. unfold Repository.seen_update. revert s Hd.
  induction ls as [|l0 ls IH]; intros s Hd; [by apply elem_of_nil in Hin|].
  cbn [foldl]. apply elem_of_cons in Hin as [->|Hin].
  - destruct (seen_add_is_Some l0 d s Hd) as [l1 Hl1].
    exists l1. by apply seen_update_keeps.
  - apply IH; [done|]. by rewrite seen_add_heap.
Qed.

(** X22.  [remove_all] leaves nothing to find: no uuid resolves, no
    window returns a device, [get_all_by_uuid] returns an empty
    dictionary, a second [remove_all] does nothing; the objects
    themselves are untouched and every uuid that was stored is marked
    seen. *)
Theorem remove_all_leaves_nothing_to_find (s : Store) :
  store_inv s →
  let s' := Repository.remove_all s in
  heap s' = heap s ∧
  (∀ k, Repository.get k s' = (None, s')) ∧
  (∀ start end_, (Repository.get_fire_at_between start end_ s').1 = []) ∧
  Repository.get_all_by_uuid s' = (∅, s') ∧
  Repository.remove_all s' = s' ∧
  (∀ k l, by_uuid s !! k = Some l → is_Some (seen s' !! k)).
Proof.
  intros Hinv s'. destruct (remove_all_spec s Hinv) as (Hh&Hu&Hf).
  fold s' in Hh, Hu, Hf.
  assert (Hga : Repository.get_all_by_uuid s' = (∅, s')).
  { unfold Repository.get_all_by_uuid, Repository._get_all_by_uuid.
    rewrite Hu, map_to_list_empty. done. }
  split_and!; try done.
  - intros k. unfold Repository.get, Repository._get. by rewrite Hu.
  - intros start end_. apply elem_of_nil_inv. intros l.
    rewrite elem_of_get_fire_at_between. intros (t&k&_&_&Hk).
    by rewrite Hu in Hk.
  - unfold Repository.remove_all. rewrite Hga. by rewrite decide_True.
  - intros k l Hl. subst s'. unfold Repository.remove_all.
    assert (Hseen : is_Some (seen (Repository.get_all_by_uuid s).2 !! k)).
    { destruct Hinv as (Hk&_&_). destruct (Hk _ _ Hl) as (d&Hd&Hud).
      unfold Repository.get_all_by_uuid. cbn [snd].
      apply (seen_update_marks _ _ l d); [|done|done].
      apply list_elem_of_fmap. exists (k, l). split; [done|].
      by apply elem_of_map_to_list. }
    destruct (Repository.get_all_by_uuid s) as [devices s1]. cbn [snd] in Hseen.
    case_decide; [done|]. done.
Qed.

Lemma remove_all_leaves_nothing_to_find_witness :
  Repository.get "a" (Repository.remove_all store_a)
    = (None, Repository.remove_all store_a) ∧
  is_Some (seen (Repository.remove_all store_a) !! "a").
Proof.
  destruct (remove_all_leaves_nothing_to_find store_a
              (reachable_store_inv _ store_a_reachable))
    as (_&Hget&_&_&_&Hseen).
  split; [apply Hget|]. apply (Hseen "a" 1%positive). reflexivity.
Defined.

(** ** A [ConsumerCommand] through the wired bus *)

Lemma remove_device_unfold w c l d :
  by_uuid (store w) !! command_uuid c = Some l → heap (store w) !! l = Some d →
  command_handlers.remove_device c w =
  (Ok tt,
   mkWorld
     (UnitOfWork.rollback (mkUoW true (by_uuid (store w)))
        (let s3 := Repository.remove (uuid d)
                     (Repository.get (command_uuid c)
                        (Repository.get_all_by_uuid (store w)).2).2 in
         set_heap (alter generate_event_remove_device l (heap s3)) s3))
     (mkUoW true (by_uuid (store w))) (log w) (clock w) (utcoffset w)).
Proof.
  intros Hl Hd.
  unfold command_handlers.remove_device. rewrite with_uow_unfold.
  rewrite enter_backup.
  assert (Hs1 : (UnitOfWork.__enter__ (uow w) (store w)).2
                = (Repository.get_all_by_uuid (store w)).2).
  { unfold UnitOfWork.__enter__.
    by destruct (Repository.get_all_by_uuid (store w)). }
  rewrite Hs1.
  destruct (get_all_by_uuid_spec (store w)) as [_ Hs].
  set (s1 := (Repository.get_all_by_uuid (store w)).2) in *.
  rewrite bind_unfold, on_store_get. cbn [store set_store set_uow].
  destruct (get_spec (command_uuid c) s1) as [_ Hs2].
  set (s2 := (Repository.get (command_uuid c) s1).2) in *.
  pose proof (same_indexes_trans _ _ _ Hs Hs2) as (Hh2&Hu2&Hf2).
  destruct Hs as (Hh1&Hu1&Hf1).
  rewrite Hu1, Hl.
  assert (Hd2 : heap s2 !! l = Some d) by (by rewrite Hh2).
  rewrite bind_unfold, (deref_Some _ l d) by done.
  cbv [mbind M_bind on_store_ call_method uow_commit UnitOfWork.commit
       UnitOfWork._commit UnitOfWork.__exit__].
  cbn [set_store set_uow store uow log clock utcoffset fst snd].
  reflexivity.
Qed.

(** X23.  A [ConsumerCommand] for a stored device, with no event
    pending and the device not marked seen under another object, is
    dispatched to the remove handler: [handle] returns normally, the
    removal event is dispatched and its handler logs it, yet the identity
    index and every object are afterwards exactly as before: the device
    is still stored. *)
Theorem consumer_command_announces_a_removal
    (w : World) (k cid : string) (l : loc) (d : Device) :
  store_inv (store w) → no_pending (store w) →
  by_uuid (store w) !! k = Some l → heap (store w) !! l = Some d →
  (∀ l0, seen (store w) !! k = Some l0 → l0 = l) →
  let c := ConsumerCommand k cid in
  let ev := RemoveDeviceEvent k in
  ∃ w',
    bootstrap.handle 2 (MsgCommand c) w = Some (Ok tt, w') ∧
    log w' = log w ++ [LogHandlingCommand c;
                       LogHandlingEvent ev "remove_device_event";
                       LogEventHandled "remove_device" ev] ∧
    by_uuid (store w') = by_uuid (store w) ∧
    heap (store w') = heap (store w).
Proof.
  intros Hinv Hnp Hl Hd Hagree c ev.
  assert (Hud : uuid d = k).
  { destruct Hinv as (Hk&_&_). destruct (Hk _ _ Hl) as (d'&?&?). congruence. }
  set (w0 := add_log (LogHandlingCommand c) w).
  pose proof (remove_device_unfold w0 c l d Hl Hd) as Hrun1.
  cbn [store log clock utcoffset add_log w0 command_uuid c] in Hrun1.
  rewrite Hud in Hrun1.
  set (s2 := (Repository.get k (Repository.get_all_by_uuid (store w)).2).2) in *.
  assert (Hs02 : same_indexes (store w) s2).
  { eapply same_indexes_trans; [apply get_all_by_uuid_spec|apply get_spec]. }
  pose proof (store_inv_same _ _ Hs02 Hinv) as Hinv2.
  destruct Hs02 as (Hh2&Hu2&Hf2).
  pose proof (remove_inv s2 k Hinv2) as Hinv3.
  pose proof (remove_heap k s2) as Hh3.
  set (s3 := Repository.remove k s2) in *.
  pose proof (method_inv s3 l generate_event_remove_device
                (λ d, conj eq_refl eq_refl) Hinv3) as Hinv4.
  set (s4 := set_heap (alter generate_event_remove_device l (heap s3)) s3) in *.
  assert (Hh4 : heap s4 = <[l := generate_event_remove_device d]> (heap (store w))).
  { subst s4. cbn [heap set_heap]. rewrite Hh3, Hh2.
    apply map_eq. intros l'. rewrite lookup_alter, lookup_insert.
    repeat case_decide; subst; try done. by rewrite Hd. }
  destruct (rollback_spec (mkUoW true (by_uuid (store w))) s4 Hinv4)
    as (Hh5&Hu5&_).
  { intros k' l' Hl'. destruct Hinv as (Hk&_&_).
    destruct (Hk _ _ Hl') as (d'&Hd'&Hu').
    rewrite Hh4. destruct (decide (l' = l)) as [->|Hne].
    - rewrite lookup_insert_eq. eexists. split; [done|].
      simpl. congruence.
    - rewrite lookup_insert_ne by done. eauto. }
  set (w1 := mkWorld (UnitOfWork.rollback (mkUoW true (by_uuid (store w))) s4)
               (mkUoW true (by_uuid (store w)))
               (log w ++ [LogHandlingCommand c]) (clock w) (utcoffset w)) in *.
  destruct (command_cascade c command_handlers.remove_device ev
              "remove_device_event" event_handlers.remove_device_event
              (LogEventHandled "remove_device" ev) w w1 k l
              (generate_event_remove_device d))
    as (w'&Hrun&Hlog&Hu'&Hh'); try done.
  { subst w1. cbn [store]. apply rollback_keeps.
    refine (remove_keeps k _ k l _). by apply (get_marks_seen _ k l d). }
  { subst w1. cbn [store]. by rewrite Hh5, Hh4, lookup_insert_eq. }
  { unfold generate_event_remove_device. cbn [events set_events].
    rewrite (Hnp _ _ Hd). subst ev. by rewrite Hud. }
  { intros l' d' Hne. subst w1. cbn [store].
    rewrite Hh5, Hh4, lookup_insert_ne by done. apply Hnp. }
  exists w'. split; [done|]. split; [done|]. split.
  - rewrite Hu'. subst w1. cbn [store]. exact Hu5.
  - rewrite Hh'. subst w1. cbn [store].
    rewrite Hh5, Hh4, insert_insert_eq.
    assert (set_events [] (generate_event_remove_device d) = d) as ->.
    { pose proof (Hnp _ _ Hd) as He. clear -He. destruct d. simpl in *. by subst. }
    by apply insert_id.
Qed.

Lemma consumer_command_announces_a_removal_witness :
  ∃ w',
    bootstrap.handle 2 (MsgCommand (ConsumerCommand "a" "c1")) (world_a 105)
      = Some (Ok tt, w') ∧
    by_uuid (store w') = by_uuid store_a.
Proof.
  destruct (consumer_command_announces_a_removal (world_a 105) "a" "c1"
              1%positive device_a (reachable_store_inv _ store_a_reachable))
    as (w'&Hrun&_&Hu&_).
  - intros l d Hd.
    assert (Hm : heap (store (world_a 105)) = {[1%positive := device_a]})
      by (by vm_compute).
    rewrite Hm in Hd. by apply lookup_singleton_Some in Hd as [_ <-].
  - reflexivity.
  - reflexivity.
  - intros l0 Hl0. vm_compute in Hl0. congruence.
  - exists w'. split; [exact Hrun|exact Hu].
Defined.
